(** * utils.js: the client-side helper library of the scaffold application

    A shallow embedding of the helpers of [utils.js]: template
    interpolation ([String.prototype.format]), the client-side translator
    ([T.format]), the tag parser ([Q.parse_list]), the password score
    ([Q.score_password]) and the promise chains around [Q.ajax].

    Conventions.
    - A JavaScript string is the list of its UTF-16 code units, each a
      number of type [N].
    - A JavaScript object used as a dictionary is given by its own
      properties: a [gmap], or a list in the order of creation where the
      code enumerates the object.  It is a plain object: what it does not
      hold itself is read from [Object.prototype].
    - A JavaScript [Number] that is used for arithmetic is a binary64
      value ([spec_float] at precision 53, maximal exponent 1024).
    - Browser services ([fetch], the DOM, timers) are explicit state. *)

From Stdlib Require Import ZArith NArith Lia Ascii DecimalPos DecimalN.
From Stdlib Require Import SpecFloat.
From Equations Require Import Equations.
From stdpp Require Import gmap list strings sorting.

Set Default Proof Using "Type".

(* ===================================================================== *)
(** * Part I: definitions                                                 *)
(* ===================================================================== *)

(** ** Strings *)

Abbreviation jsstring := (list N).

(** Code units of an ASCII (Latin-1) literal. *)
Definition js (s : string) : jsstring :=
  N_of_ascii <$> String.list_ascii_of_string s.

Definition LBRACE : N := 123.
Definition RBRACE : N := 125.
Definition COMMA : N := 44.
Definition DQUOTE : N := 34.
Definition BACKSLASH : N := 92.
Definition SPACE : N := 32.
Definition AMPERSAND : N := 38.
Definition EQUALS : N := 61.
Definition PERCENT : N := 37.
Definition SLASH : N := 47.
Definition SEMICOLON : N := 59.

(** Values stored in an [args] object.  The library only ever converts
    them to a string (when they are interpolated) or compares the plural
    count [args.n] with the Number read from a key ([i <= n]); both
    conversions belong to the JavaScript runtime and form the interface
    of a value type. *)
Class JsValue (V : Type) := {
  (** [String(v)] *)
  ToString : V → jsstring;
  (** [i <= v] for a Number [i] that holds an integer *)
  le_int : Z → V → bool;
  (** the comparison converts [v] to one number and compares with it *)
  le_int_down i j v : (i ≤ j)%Z → le_int j v = true → le_int i v = true;
  (** [i <= v] for an infinite [i], negative when the flag is set *)
  le_inf : bool → V → bool
}.

(** Decimal digits of a non-negative integer. *)
Fixpoint uint_digits (d : Decimal.uint) : jsstring :=
  match d with
  | Decimal.Nil => []
  | Decimal.D0 d => 48%N :: uint_digits d
  | Decimal.D1 d => 49%N :: uint_digits d
  | Decimal.D2 d => 50%N :: uint_digits d
  | Decimal.D3 d => 51%N :: uint_digits d
  | Decimal.D4 d => 52%N :: uint_digits d
  | Decimal.D5 d => 53%N :: uint_digits d
  | Decimal.D6 d => 54%N :: uint_digits d
  | Decimal.D7 d => 55%N :: uint_digits d
  | Decimal.D8 d => 56%N :: uint_digits d
  | Decimal.D9 d => 57%N :: uint_digits d
  end.

(** Plural counts: the non-negative integers below [2^53], which a Number
    holds exactly and prints in plain decimal notation. *)
Record count := Count {
  count_val : N;
  count_safe : Is_true (count_val <? 2 ^ 53)%N
}.

#[export] Instance count_value : JsValue count.
Proof.
  refine {| ToString c := uint_digits (N.to_uint (count_val c));
            le_int i c := (i <=? Z.of_N (count_val c))%Z;
            le_inf negative _ := negative |}.
  intros i j c Hij Hj. apply Z.leb_le. apply Z.leb_le in Hj. lia.
Defined.

(** An [args] object that is absent or empty has no values. *)
#[export] Instance no_value : JsValue Empty_set :=
  {| ToString (v : Empty_set) := match v return jsstring with end;
     le_int _ (v : Empty_set) := match v return bool with end;
     le_int_down _ _ (v : Empty_set) := match v with end;
     le_inf _ (v : Empty_set) := match v return bool with end |}.

(** [String(undefined)] *)
Definition undefined_text : jsstring := js "undefined".

(** ** Numbers as property names *)

(** The decimal text of a non-negative integer, without leading zeros:
    the name under which an object holds the property of that number. *)
Definition index_text (n : N) : jsstring := uint_digits (N.to_uint n).

Definition digit_uint (c : N) (d : Decimal.uint) : option Decimal.uint :=
  if (c =? 48)%N then Some (Decimal.D0 d)
  else if (c =? 49)%N then Some (Decimal.D1 d)
  else if (c =? 50)%N then Some (Decimal.D2 d)
  else if (c =? 51)%N then Some (Decimal.D3 d)
  else if (c =? 52)%N then Some (Decimal.D4 d)
  else if (c =? 53)%N then Some (Decimal.D5 d)
  else if (c =? 54)%N then Some (Decimal.D6 d)
  else if (c =? 55)%N then Some (Decimal.D7 d)
  else if (c =? 56)%N then Some (Decimal.D8 d)
  else if (c =? 57)%N then Some (Decimal.D9 d)
  else None.

(** The digits of a text that has decimal digits only. *)
Fixpoint digits_uint (s : jsstring) : option Decimal.uint :=
  match s with
  | [] => Some Decimal.Nil
  | c :: r =>
      match digits_uint r with
      | Some d => digit_uint c d
      | None => None
      end
  end.

(** A property name that is an array index: the decimal text, without
    leading zeros, of an integer from [0] to [2^32 - 2].  An object
    enumerates these names first, in ascending order. *)
Definition array_index (key : jsstring) : option N :=
  match digits_uint key with
  | Some d =>
      let n := N.of_uint d in
      if (n <? 2 ^ 32 - 1)%N && bool_decide (index_text n = key)
      then Some n else None
  | None => None
  end.

(** What [parseInt] returns. *)
Inductive parsed :=
  | NaN
  | Finite (z : Z)
  | Infinite (negative : bool).

(** The properties that every plain object inherits from
    [Object.prototype]; none of them is enumerable. *)
Definition object_prototype_names : list jsstring :=
  js <$> ["constructor"; "__defineGetter__"; "__defineSetter__";
          "hasOwnProperty"; "__lookupGetter__"; "__lookupSetter__";
          "isPrototypeOf"; "propertyIsEnumerable"; "toString"; "valueOf";
          "__proto__"; "toLocaleString"].

(** [k in {}] *)
Definition inherits (k : jsstring) : bool :=
  bool_decide (k ∈ object_prototype_names).

(** Functions of the JavaScript runtime. *)
Class Runtime := {
  toLowerCase : jsstring → jsstring;
  (** [i <= s] for an integer [i] and a string [s] *)
  string_le : Z → jsstring → bool;
  string_le_down i j s :
    (i ≤ j)%Z → string_le j s = true → string_le i s = true;
  (** [i <= s] for an infinite [i] and a string [s] *)
  string_le_inf : bool → jsstring → bool;
  (** [String(Object.prototype[k])] for an inherited property [k]: the
      text of a function, or of [Object.prototype] itself *)
  inherited_text : jsstring → jsstring;
  (** [parseInt(key)] *)
  parseInt : jsstring → parsed;
  parseInt_index n :
    (n < 2 ^ 53)%N → parseInt (index_text n) = Finite (Z.of_N n);
  (** [String(k)] for a Number [k] that [parseInt] has returned *)
  number_key : parsed → jsstring;
  number_key_index n :
    (n < 2 ^ 53)%N → number_key (Finite (Z.of_N n)) = index_text n
}.

#[export] Instance text_value `{Runtime} : JsValue jsstring :=
  {| ToString s := s; le_int := string_le; le_int_down := string_le_down;
     le_inf := string_le_inf |}.

(** [i <= v] for the Number [i] read from a key. *)
Definition le_parsed `{JsValue V} (i : parsed) (v : V) : bool :=
  match i with
  | NaN => false
  | Finite z => le_int z v
  | Infinite negative => le_inf negative v
  end.

(** ** [String.prototype.format]

    [this.replace(/\{([^}]+)\}/g, function (match, k) { return args[k]; })] *)

(** The greedy run [[^}]+]: the longest prefix without a closing brace,
    and what follows it. *)
Fixpoint span_key (s : jsstring) : jsstring * jsstring :=
  match s with
  | [] => ([], [])
  | c :: r =>
      if (c =? RBRACE)%N then ([], s)
      else let '(k, rest) := span_key r in (c :: k, rest)
  end.

(** One attempt of the pattern [\{([^}]+)\}] at the head of [s]: the
    captured key and the rest of the string after the closing brace.
    Backtracking into the run cannot help: a shorter run is followed by a
    character of the run, which is not a closing brace. *)
Definition match_placeholder (s : jsstring) : option (jsstring * jsstring) :=
  match s with
  | [] => None
  | c :: r =>
      if (c =? LBRACE)%N then
        match span_key r with
        | (k1 :: k, c' :: rest) =>
            if (c' =? RBRACE)%N then Some (k1 :: k, rest) else None
        | _ => None
        end
      else None
  end.

Definition inspect {A} (a : A) : {b | a = b} := exist _ a eq_refl.

(** [s.replace(re, fn)] for the global pattern above: matches are searched
    from left to right, each search resuming after the previous match. *)
Equations? replace_placeholders (fn : jsstring → jsstring) (s : jsstring)
  : jsstring by wf (length s) lt :=
  replace_placeholders fn [] := [];
  replace_placeholders fn (c :: r) with inspect (match_placeholder (c :: r)) => {
    | exist _ (Some (k, rest)) Hm := fn k ++ replace_placeholders fn rest;
    | exist _ None Hn := c :: replace_placeholders fn r }.
Proof.
  - assert (Hlen : ∀ t : jsstring, length (span_key t).2 ≤ length t).
    { induction t as [|x t IH]; simpl; [lia|].
      destruct (x =? RBRACE)%N; simpl; [lia|].
      destruct (span_key t); simpl in *; lia. }
    unfold match_placeholder in Hm. specialize (Hlen r).
    destruct (c =? LBRACE)%N; [|done].
    destruct (span_key r) as [[|k1 k'] [|c' rest']]; try done.
    destruct (c' =? RBRACE)%N; [|done].
    simplify_eq. simpl in *. lia.
  - simpl. lia.
Qed.

(** [args[k]] converted to a string by [replace], for an object [args]
    given by its own properties: a property that [args] does not have
    itself is read from [Object.prototype], and is [undefined] when it is
    not there either. *)
Definition interpolate `{Runtime} `{JsValue V} (args : gmap jsstring V)
    (k : jsstring) : jsstring :=
  match args !! k with
  | Some v => ToString v
  | None => if inherits k then inherited_text k else undefined_text
  end.

Module JsString.
(** [String.prototype.format] *)
Definition format `{Runtime} `{JsValue V} (this : jsstring)
    (args : gmap jsstring V) : jsstring :=
  replace_placeholders (interpolate args) this.
End JsString.

(** What the claim about [format] says, as a relation between a string
    and its expansion: reading from the left, a placeholder [{k}] with [k]
    a non-empty run without closing brace is replaced, any other character
    is kept. *)
Definition placeholder_at (s k rest : jsstring) : Prop :=
  s = LBRACE :: k ++ RBRACE :: rest ∧ k ≠ [] ∧ RBRACE ∉ k.

Inductive expands (fn : jsstring → jsstring) : jsstring → jsstring → Prop :=
  | expands_nil : expands fn [] []
  | expands_placeholder s k rest out :
      placeholder_at s k rest →
      expands fn rest out →
      expands fn s (fn k ++ out)
  | expands_char c r out :
      (∀ k rest, ¬ placeholder_at (c :: r) k rest) →
      expands fn r out →
      expands fn (c :: r) (c :: out).

(** A string has a placeholder somewhere. *)
Definition has_placeholder (s : jsstring) : Prop :=
  ∃ pre k rest, s = pre ++ LBRACE :: k ++ RBRACE :: rest
                ∧ k ≠ [] ∧ RBRACE ∉ k.

(** ** Exceptions *)

Inductive error :=
  | Error (message : jsstring)      (* [new Error(message)] *)
  | TypeError (message : jsstring)  (* raised by the runtime *)
  | HostError (code : nat).         (* raised or rejected by the browser *)

(** Result of a call that may throw. *)
Inductive result (A : Type) :=
  | Ok (a : A)
  | Throw (e : error).
Arguments Ok {A} a.
Arguments Throw {A} e.

(** ** The translator [T]

    [T.translations] maps a text to its plural forms, an object whose
    keys are counts: [{'dog': {0: 'no cane', 1: 'un cane', 2: '{n} cani'}}].
    An object of plural forms is given by its own properties in the order
    of their creation, each name once. *)

Record plural_forms := PluralForms {
  pf_properties : list (jsstring * jsstring);
  pf_distinct : Is_true (bool_decide (NoDup pf_properties.*1))
}.

Abbreviation translation_table := (gmap jsstring plural_forms).

(** [undefined.format(args)] *)
Definition format_of_undefined : error :=
  TypeError (js "Cannot read properties of undefined (reading 'format')").

Module T.
(** [translations[key]] for a property of [translations] itself. *)
Definition own_property (translations : plural_forms) (key : jsstring)
  : option jsstring :=
  (list_to_map (pf_properties translations) : gmap jsstring jsstring) !! key.

(** The keys of [translations] in the order of [for (var key in ...)]:
    the array indices in ascending order, then the other names in the
    order of their creation. *)
Definition for_in_keys (translations : plural_forms) : list jsstring :=
  let names := (pf_properties translations).*1 in
  (index_text <$> merge_sort N.le (omap array_index names))
  ++ filter (λ key, array_index key = None) names.

(** [i <= n] with [var n = "n" in args ? args.n : 1]; no plain object
    inherits a property [n]. *)
Definition le_n `{JsValue V} (args : gmap jsstring V) (i : parsed) : bool :=
  match args !! js "n" with
  | Some n => le_parsed i n
  | None =>
      match i with
      | NaN => false
      | Finite z => (z <=? 1)%Z
      | Infinite negative => negative
      end
  end.

(** [for (var key in translations) { var i = parseInt(key);
      if (i <= n) k = i; else break; }] *)
Fixpoint select_key `{Runtime} (le : parsed → bool) (keys : list jsstring)
    (k : parsed) : parsed :=
  match keys with
  | [] => k
  | key :: keys' =>
      let i := parseInt key in
      if le i then select_key le keys' i else k
  end.

(** [T.format(text, args)] with the table [T.translations].  A text that
    names a property of [Object.prototype] finds that property in the
    table: a function or [Object.prototype] itself, which has no
    enumerable property and no property [0]. *)
Definition format `{Runtime} `{JsValue V} (translations : translation_table)
    (text : jsstring) (args : option (gmap jsstring V)) : result jsstring :=
  let args := default ∅ args in
  match translations !! text with
  | Some forms =>
      let k := select_key (le_n args) (for_in_keys forms) (Finite 0) in
      match own_property forms (number_key k) with
      | Some text' => Ok (JsString.format text' args)
      | None => Throw format_of_undefined
      end
  | None =>
      if inherits text then Throw format_of_undefined
      else Ok (JsString.format text args)
  end.
End T.

(** Plural forms whose keys are all array indices. *)
Definition index_keyed (forms : plural_forms) : Prop :=
  Forall (λ key, is_Some (array_index key)) (pf_properties forms).*1.

(** The plural rule in the words of the claim: [k] is the largest key of
    the entry that is at most [n], and [0] when no key is. *)
Definition plural_key (le : N → bool) (forms : plural_forms) (k : N) : Prop :=
  (is_Some (T.own_property forms (index_text k)) ∧ le k = true
   ∧ ∀ k', is_Some (T.own_property forms (index_text k')) → le k' = true →
           (k' ≤ k)%N)
  ∨ ((∀ k', is_Some (T.own_property forms (index_text k')) → le k' = false)
     ∧ k = 0%N).

(** ** [Q.parse_list] *)

(** The characters removed by [String.prototype.trim]: the white space and
    the line terminators of ECMAScript. *)
Definition is_space (c : N) : bool :=
  bool_decide (c ∈ [9; 10; 11; 12; 13; 32; 160; 5760; 8232; 8233; 8239;
                    8287; 12288; 65279]%N)
  || ((8192 <=? c) && (c <=? 8202))%N.

Fixpoint trim_start (s : jsstring) : jsstring :=
  match s with
  | [] => []
  | c :: r => if is_space c then trim_start r else s
  end.

Definition trim_end (s : jsstring) : jsstring :=
  reverse (trim_start (reverse s)).

Definition trim (s : jsstring) : jsstring := trim_end (trim_start s).

(** [xs.join(sep)] *)
Fixpoint join (sep : jsstring) (xs : list jsstring) : jsstring :=
  match xs with
  | [] => []
  | x :: xs' =>
      match xs' with
      | [] => x
      | _ :: _ => x ++ sep ++ join sep xs'
      end
  end.

(** [s.split(sep)] for a separator of one character: the pieces between
    the occurrences of the separator, at least one piece. *)
Fixpoint split (sep : N) (s : jsstring) : list jsstring :=
  match s with
  | [] => [[]]
  | c :: r =>
      if (c =? sep)%N then [] :: split sep r
      else match split sep r with
           | piece :: pieces => (c :: piece) :: pieces
           | [] => [[c]]
           end
  end.

(** A call that may throw, followed by another. *)
Definition and_then {A B} (r : result A) (k : A → result B) : result B :=
  match r with
  | Ok a => k a
  | Throw e => Throw e
  end.

(** [vars[key] = value] on an object literal, for a string [value]: the
    property [__proto__] is the accessor of [Object.prototype], whose
    setter ignores a string. *)
Definition assign (key value : jsstring) (vars : gmap jsstring jsstring)
  : gmap jsstring jsstring :=
  if decide (key = js "__proto__") then vars else <[key := value]> vars.

(** The variables of the loop: [a], [s], [q], [esc]. *)
Record parse_state := ParseState {
  ps_a : list jsstring;
  ps_s : jsstring;
  ps_q : bool;
  ps_esc : bool
}.

(** ** Numbers

    The score of a password is computed with [Number]s: binary64
    floating-point values, with the operations of IEEE 754 in the
    rounding mode to nearest, ties to even. *)

Abbreviation number := spec_float.

Definition prec : Z := 53.
Definition emax : Z := 1024.

(** The Number nearest to an integer. *)
Definition number_of_Z (z : Z) : number := binary_normalize prec emax z 0 false.

(** [x + y] and [x / y] *)
Definition add (x y : number) : number := SFadd prec emax x y.
Definition div (x y : number) : number := SFdiv prec emax x y.

Module Math.
(** [Math.max(x, y)]: NaN when an argument is NaN, and [+0] is larger
    than [-0]. *)
Definition max (x y : number) : number :=
  match SFcompare x y with
  | None => S754_nan
  | Some Lt => y
  | Some Gt => x
  | Some Eq =>
      match x, y with
      | S754_zero sx, S754_zero sy => S754_zero (sx && sy)
      | _, _ => x
      end
  end.

(** [Math.round(x)]: the integer nearest to [x], the larger one of two
    equally near; it is [floor(x + 1/2)], computed exactly.  A Number
    whose exponent is not negative is an integer already. *)
Definition round (x : number) : number :=
  match x with
  | S754_finite s m e =>
      if (0 <=? e)%Z then x
      else
        let n := ((cond_Zopp s (Z.pos m) + 2 ^ (- e - 1)) / 2 ^ (- e))%Z in
        if (n =? 0)%Z then S754_zero s else number_of_Z n
  | _ => x
  end.
End Math.

(** The character classes of the patterns [/\d/], [/[a-z]/], [/[A-Z]/]
    and [/\W/]. *)
Inductive char_class := class_digit | class_lower | class_upper | class_non_word.

Definition in_class (cls : char_class) (c : N) : bool :=
  let digit := ((48 <=? c) && (c <=? 57))%N in
  let lower := ((97 <=? c) && (c <=? 122))%N in
  let upper := ((65 <=? c) && (c <=? 90))%N in
  match cls with
  | class_digit => digit
  | class_lower => lower
  | class_upper => upper
  | class_non_word => negb (digit || lower || upper || (c =? 95)%N)
  end.

(** [re.test(text)] for a pattern that is one character class. *)
Definition regex_test (cls : char_class) (text : jsstring) : bool :=
  existsb (in_class cls) text.

(** ** Closures of [Q.debounce] and [Q.throttle]

    The variables captured by the functions that [Q.debounce] and
    [Q.throttle] return. *)

Record debounced := Debounced {
  d_wait : nat;
  d_timeout : option nat
}.

Record throttled := Throttled {
  t_delay : nat;
  t_throttleTimeout : option nat;
  t_storedEvent : option jsstring
}.

(** ** The page

    The library shares the page with the browser.  What the library owns
    is explicit: the flag [Q._globalDelegateActive], the table
    [T.translations] and the function stored in [Q.flash].  What the
    browser owns and the library only reaches through its interfaces (the
    document, the network) is an abstract component [page] with the
    operations of the class [Browser].  What the library asks the browser
    to do and a user can observe is recorded: the requests issued, the
    console, the flash banners, the click listeners of [document.body],
    the pending timers and the calls of the callbacks handed to
    [Q.debounce] and [Q.throttle]. *)

Abbreviation element := nat.
Abbreviation form := nat.

Record flash_details := FlashDetails {
  fd_message : jsstring;
  fd_class : option jsstring
}.

Inductive console_entry :=
  | console_log (label : jsstring) (detail : flash_details)
  | console_error (label : jsstring) (err : error).

(** The [data] argument of [Q.ajax]: a [FormData], or an object given by
    its [JSON.stringify] text. *)
Inductive payload :=
  | FormData (fields : list (jsstring * jsstring))
  | JsonObject (text : jsstring).

(** The arguments of [fetch(url, options)]. *)
Record request := Request {
  req_method : jsstring;
  req_url : jsstring;
  req_headers : option (gmap jsstring jsstring);
  req_body : option payload
}.

Record response := Response {
  res_redirected : bool;
  res_url : jsstring;
  (** [res.text()]: the body, or the reason why it cannot be read *)
  res_text : result jsstring;
  (** [res.headers.get("component-flash")] *)
  res_component_flash : option jsstring
}.

(** An [input], [textarea] or [select] of a form.  A [select] has no
    [defaultValue]. *)
Record control := Control {
  c_disabled : bool;
  c_type : jsstring;
  c_checked : bool;
  c_defaultChecked : bool;
  c_value : jsstring;
  c_defaultValue : option jsstring
}.

(** The browser, seen from the library. *)
Class Browser (page : Type) := {
  (** [fetch(url, options)]: the response, or the reason of the rejection *)
  fetch : request → page → result response * page;
  (** [Q("#" + target)[0]]; an invalid selector throws *)
  query_target : jsstring → page → result (option element);
  (** [window.location.href = url] *)
  navigate : jsstring → page → page;
  (** [elem.innerHTML = data], then every script of [elem] is replaced by
      a copy so that it runs *)
  load_html : element → jsstring → page → page;
  (** [elem.getAttribute("global-submit")] *)
  global_submit_of : element → page → option jsstring;
  (** the loop of [Q.trap_form] over the forms of the component *)
  trap_forms : jsstring → jsstring → option jsstring → page → result page;
  (** [JSON.parse(flash)] *)
  parse_flash : jsstring → result flash_details;
  (** [form.action] *)
  form_action : form → page → jsstring;
  (** [form.dataset.component_target], empty when absent *)
  form_component_target : form → page → jsstring;
  (** [form.querySelectorAll("input, textarea, select")] *)
  form_controls : form → page → list control;
  (** the submit buttons of the form *)
  form_buttons : form → page → list element;
  (** [buttons.forEach((btn) => (btn.disabled = b))] *)
  set_disabled : list element → bool → page → page;
  (** [new FormData(form)] *)
  form_data_of : form → page → list (jsstring * jsstring)
}.

(** [decodeURIComponent]: it throws a [URIError] for a malformed escape
    sequence, and copies every character other than the percent sign. *)
Class UriDecoder := {
  decodeURIComponent : jsstring → result jsstring;
  decode_plain s : PERCENT ∉ s → decodeURIComponent s = Ok s
}.

(** The window of the page. *)
Class Window (page : Type) := {
  (** [window.location.search] *)
  location_search : page → jsstring;
  (** [window.location.href] *)
  location_href : page → jsstring;
  (** [history.pushState({'page': page}, null, url)] *)
  pushState : jsstring → jsstring → page → result page;
  (** [document.cookie] *)
  document_cookie : page → jsstring
}.

(** ** Cookies

    [Q.get_cookie] builds a pattern from the name of the cookie.  A name
    made of letters, digits and underscores stands for itself in a
    pattern. *)

Definition literal (name : jsstring) : bool :=
  forallb (λ c, negb (in_class class_non_word c)) name.

(** The longest prefix of characters other than [stop], and what follows
    it. *)
Fixpoint span_until (stop : N) (s : jsstring) : jsstring * jsstring :=
  match s with
  | [] => ([], [])
  | c :: r =>
      if (c =? stop)%N then ([], s)
      else let '(run, rest) := span_until stop r in (c :: run, rest)
  end.

(** What follows the prefix [p] of [s], when [s] starts with [p]. *)
Fixpoint after_prefix (p s : jsstring) : option jsstring :=
  match p, s with
  | [], _ => Some s
  | x :: p', y :: s' => if (x =? y)%N then after_prefix p' s' else None
  | _ :: _, [] => None
  end.

(** One attempt of the pattern [name[^;]+] at the head of [text], for a
    literal [name]. *)
Definition match_cookie (name text : jsstring) : option jsstring :=
  match after_prefix name text with
  | Some (c :: rest) =>
      if (c =? SEMICOLON)%N then None
      else Some (name ++ (span_until SEMICOLON (c :: rest)).1)
  | _ => None
  end.

(** The first match of the pattern in [text], searched from the left. *)
Fixpoint find_cookie (name text : jsstring) : option jsstring :=
  match match_cookie name text with
  | Some m => Some m
  | None =>
      match text with
      | [] => None
      | _ :: r => find_cookie name r
      end
  end.

Class RegExpEngine := {
  (** [RegExp("" + name + "[^;]+").exec(text)]: the text matched, or
      [null]; a name that is not a pattern throws a [SyntaxError] *)
  exec_cookie : jsstring → jsstring → result (option jsstring);
  exec_cookie_literal name text :
    literal name = true → exec_cookie name text = Ok (find_cookie name text)
}.

(** The characters that the dot of a pattern does not match. *)
Definition line_terminator (c : N) : bool :=
  bool_decide (c ∈ [10; 13; 8232; 8233]%N).

(** [m.replace(/^[^=]+./, "")]: the run [[^=]+] is as long as it can be
    while a character that the dot matches follows it; without such a
    run nothing is replaced. *)
Definition strip_name (m : jsstring) : jsstring :=
  let run := length (span_until EQUALS m).1 in
  match List.find (λ n, match m !! n with
                        | Some c => negb (line_terminator c)
                        | None => false
                        end)
                  (reverse (seq 1 run)) with
  | Some n => drop (S n) m
  | None => m
  end.

(** ** The tags widget

    [Q.tags_input] replaces a text input by a list of tags.  The widget
    itself makes strings, in [Q.parse_list] and in the handler of the
    free text; the [options] argument and [Q.eval] may supply tags of
    other types: numbers, booleans, [null], objects. *)

(** The values that are no strings, with the conversions and comparisons
    of the runtime. *)
Class TagValues := {
  other : Type;
  (** [String(v)] *)
  other_text : other → jsstring;
  (** [v === v'], which [indexOf] compares with *)
  strict_equal : other → other → bool;
  (** [v == v'] *)
  loose_equal : other → other → bool;
  (** [v == s] for a string [s] *)
  equal_text : other → jsstring → bool
}.

Inductive tag `{TagValues} :=
  | tag_text (s : jsstring)
  | tag_other (v : other).
Arguments tag_text {_} s.
Arguments tag_other {_} v.

(** The [options] argument; a property that is absent is [None]. *)
Record raw_options `{TagValues} := RawOptions {
  raw_tags : option (list tag);
  raw_freetext : option bool;
  raw_transform : option (jsstring → jsstring);
  raw_labels : option (gmap jsstring jsstring);
  raw_placeholder : option jsstring;
  raw_autocomplete_list : option jsstring;
  (** [x.match(options.regex)] is not [null] *)
  raw_regex : option (jsstring → bool)
}.
Arguments RawOptions {_} _ _ _ _ _ _ _.

(** The options after the assignments [??=]. *)
Record tags_options := TagsOptions {
  opt_freetext : bool;
  opt_transform : jsstring → jsstring;
  opt_labels : gmap jsstring jsstring;
  opt_placeholder : jsstring;
  opt_autocomplete_list : option jsstring;
  opt_regex : option (jsstring → bool)
}.

(** The element given to [Q.tags_input]. *)
Record tags_element := TagsElement {
  (** ["value" in elem] *)
  te_has_value : bool;
  te_value : jsstring;
  (** [elem.dataset.options] *)
  te_options : option jsstring
}.

(** An item [<li>] of the list: [innerHTML], [dataset.value], the tag [x]
    that its handler [onclick] holds, and [dataset.selected]. *)
Record tag_item `{TagValues} := TagItem {
  li_html : jsstring;
  li_value : jsstring;
  li_tag : tag;
  li_selected : bool
}.
Arguments TagItem {_} _ _ _ _.

(** The widget: the arrays [tags] and [keys], the items of the list, the
    value of the hidden element, the value of the free text input when
    there is one, and the number of [input] events dispatched. *)
Record tags_widget `{TagValues} := TagsWidget {
  tw_options : tags_options;
  tw_tags : list tag;
  tw_keys : list tag;
  tw_items : list tag_item;
  tw_value : jsstring;
  tw_inp : option jsstring;
  tw_input_events : nat
}.
Arguments TagsWidget {_} _ _ _ _ _ _ _.

Inductive tags_log `{TagValues} :=
  | log_not_found (message : jsstring)
  | log_keys (keys : list tag).
Arguments log_not_found {_} message.
Arguments log_keys {_} keys.

(** What [Q.tags_input] asks of the page and of [Q.eval]. *)
Class TagsPage `{TagValues} := {
  (** [Q(selector)[0]] *)
  first_element : jsstring → option tags_element;
  (** [Q.eval(text)] for the text of an options object *)
  eval_options : jsstring → result raw_options;
  (** [Q.eval(text)] for the text of an array of tags *)
  eval_keys : jsstring → result (list tag);
  (** [JSON.stringify(keys)] *)
  stringify : list tag → jsstring
}.

(** [String(x)] *)
Definition tag_string `{TagValues} (x : tag) : jsstring :=
  match x with
  | tag_text s => s
  | tag_other v => other_text v
  end.

(** [x === y]: a string is strictly equal to the same string only. *)
Definition strictly_equal `{TagValues} (x y : tag) : bool :=
  match x, y with
  | tag_text s, tag_text t => bool_decide (s = t)
  | tag_other v, tag_other v' => strict_equal v v'
  | _, _ => false
  end.

(** [x == y] *)
Definition loosely_equal `{TagValues} (x y : tag) : bool :=
  match x, y with
  | tag_text s, tag_text t => bool_decide (s = t)
  | tag_other v, tag_other v' => loose_equal v v'
  | tag_other v, tag_text s | tag_text s, tag_other v => equal_text v s
  end.

(** [list.indexOf(x) >= 0] *)
Definition includes `{TagValues} (list : list tag) (x : tag) : bool :=
  existsb (λ y, strictly_equal y x) list.

(** What happens to the widget. *)
Inductive tags_event :=
  | click_item (i : nat)
  | change_text (text : jsstring).

(** The function stored in [Q.flash]: the default one, which only writes
    to the console, or the one that [Q.handle_flash] installs when the
    page has a [<flash-alerts>] element. *)
Inductive flash_function := flash_default | flash_dispatch.

Inductive listener := global_submit_listener.

(** A function passed to [setTimeout]. *)
Inductive timer_task :=
  | debounce_later (args : jsstring)
  | throttle_release.

Record world (page : Type) := World {
  w_page : page;
  w_globalDelegateActive : bool;
  w_translations : translation_table;
  w_flash : flash_function;
  w_click_listeners : list listener;
  w_banners : list flash_details;
  w_console : list console_entry;
  w_requests : list request;
  w_timers : gmap nat (timer_task * nat);
  w_next_timer : nat;
  w_invoked : list jsstring
}.
Arguments World {page}.
Arguments w_page {page}.
Arguments w_globalDelegateActive {page}.
Arguments w_translations {page}.
Arguments w_flash {page}.
Arguments w_click_listeners {page}.
Arguments w_banners {page}.
Arguments w_console {page}.
Arguments w_requests {page}.
Arguments w_timers {page}.
Arguments w_next_timer {page}.
Arguments w_invoked {page}.

Section WorldUpdates.
Context {page : Type}.
Implicit Type w : world page.

Definition with_page (f : page → page) w : world page :=
  World (f (w_page w)) (w_globalDelegateActive w) (w_translations w)
        (w_flash w) (w_click_listeners w) (w_banners w) (w_console w)
        (w_requests w) (w_timers w) (w_next_timer w) (w_invoked w).

Definition add_listener (l : listener) w : world page :=
  World (w_page w) true (w_translations w)
        (w_flash w) (w_click_listeners w ++ [l]) (w_banners w) (w_console w)
        (w_requests w) (w_timers w) (w_next_timer w) (w_invoked w).

Definition add_banner (d : flash_details) w : world page :=
  World (w_page w) (w_globalDelegateActive w) (w_translations w)
        (w_flash w) (w_click_listeners w) (w_banners w ++ [d]) (w_console w)
        (w_requests w) (w_timers w) (w_next_timer w) (w_invoked w).

Definition console (e : console_entry) w : world page :=
  World (w_page w) (w_globalDelegateActive w) (w_translations w)
        (w_flash w) (w_click_listeners w) (w_banners w) (w_console w ++ [e])
        (w_requests w) (w_timers w) (w_next_timer w) (w_invoked w).

Definition add_request (r : request) w : world page :=
  World (w_page w) (w_globalDelegateActive w) (w_translations w)
        (w_flash w) (w_click_listeners w) (w_banners w) (w_console w)
        (w_requests w ++ [r]) (w_timers w) (w_next_timer w) (w_invoked w).

Definition with_timers (f : gmap nat (timer_task * nat) → gmap nat (timer_task * nat))
    (next : nat) w : world page :=
  World (w_page w) (w_globalDelegateActive w) (w_translations w)
        (w_flash w) (w_click_listeners w) (w_banners w) (w_console w)
        (w_requests w) (f (w_timers w)) next (w_invoked w).

Definition invoke (args : jsstring) w : world page :=
  World (w_page w) (w_globalDelegateActive w) (w_translations w)
        (w_flash w) (w_click_listeners w) (w_banners w) (w_console w)
        (w_requests w) (w_timers w) (w_next_timer w) (w_invoked w ++ [args]).

(** [setTimeout(task, delay)] returns the identifier of the new timer. *)
Definition setTimeout (task : timer_task) (delay : nat) w : nat * world page :=
  let id := S (w_next_timer w) in
  (id, with_timers (insert id (task, delay)) id w).

(** [clearTimeout(id)]; nothing happens when [id] is [undefined] or
    [null]. *)
Definition clearTimeout (id : option nat) w : world page :=
  match id with
  | Some i => with_timers (delete i) (w_next_timer w) w
  | None => w
  end.
End WorldUpdates.

(** ** Calls and promises

    A call either returns or throws, and changes the world.  A promise
    chain is run to its settlement: its callbacks run in the order in
    which the chain is written. *)

Definition action (W A : Type) : Type := W → result A * W.

Definition ret {W A} (a : A) : action W A := λ w, (Ok a, w).

Definition throw {W A} (e : error) : action W A := λ w, (Throw e, w).

Definition bind {W A B} (m : action W A) (k : A → action W B) : action W B :=
  λ w, match m w with
       | (Ok a, w') => k a w'
       | (Throw e, w') => (Throw e, w')
       end.

(** A statement that cannot throw. *)
Definition effect {W} (f : W → W) : action W unit := λ w, (Ok tt, f w).

Notation "x <- m ;; k" := (bind m (λ x, k))
  (at level 100, m at next level, right associativity).
Notation "m ;;; k" := (bind m (λ _, k))
  (at level 100, right associativity).

Inductive outcome (A : Type) :=
  | Fulfilled (a : A)
  | Rejected (reason : error).
Arguments Fulfilled {A} a.
Arguments Rejected {A} reason.

(** [p.then(f)] *)
Definition then_ {W A B} (p : outcome A) (f : A → action W B)
  : W → outcome B * W :=
  λ w, match p with
       | Fulfilled a =>
           match f a w with
           | (Ok b, w') => (Fulfilled b, w')
           | (Throw e, w') => (Rejected e, w')
           end
       | Rejected e => (Rejected e, w)
       end.

(** [p.catch(h)] *)
Definition catch_ {W A} (p : outcome A) (h : error → action W A)
  : W → outcome A * W :=
  λ w, match p with
       | Fulfilled a => (Fulfilled a, w)
       | Rejected e =>
           match h e w with
           | (Ok a, w') => (Fulfilled a, w')
           | (Throw e', w') => (Rejected e', w')
           end
       end.

(** [p.finally(g)] *)
Definition finally_ {W A} (p : outcome A) (g : action W unit)
  : W → outcome A * W :=
  λ w, match g w with
       | (Ok _, w') => (p, w')
       | (Throw e, w') => (Rejected e, w')
       end.

Definition danger : option jsstring := Some (js "danger").
Definition info : option jsstring := Some (js "info").

(** [s || fallback] for a string [s] *)
Definition or_else (s fallback : jsstring) : jsstring :=
  match s with [] => fallback | _ :: _ => s end.

(** [if (s)] for a string or [null] *)
Definition truthy (s : option jsstring) : option jsstring :=
  match s with Some (c :: r) => Some (c :: r) | _ => None end.

Module Q.
Section Q.
Context `{Runtime} `{Browser page}.
Implicit Type w : world page.

(** *** [Q.parse_list] *)

(** The loop body, for the character [c] and the flag [eol]. *)
Definition parse_step (st : parse_state) (c : N) (eol : bool) : parse_state :=
  let '(ParseState a s q esc) := st in
  if q then
    if esc then ParseState a (s ++ [c]) q false
    else if (c =? BACKSLASH)%N then ParseState a s q true
    else if (c =? DQUOTE)%N then ParseState a s false esc
    else ParseState a (s ++ [c]) q esc
  else if (c =? DQUOTE)%N then ParseState a s true esc
  else if (c =? COMMA)%N || eol then ParseState (a ++ [trim s]) [] q esc
  else ParseState a (s ++ [c]) q esc.

(** [for (; i <= line.length; i++) { let c = line[i] || ",",
      eol = i === line.length; ... }] *)
Definition parse_loop (line : jsstring) : parse_state :=
  foldl (λ st i, parse_step st (default COMMA (line !! i))
                            (bool_decide (i = length line)))
        (ParseState [] [] false false)
        (seq 0 (S (length line))).

Definition parse_list (line : jsstring) : list jsstring :=
  if bool_decide (length line = 0) then [] else ps_a (parse_loop line).

(** *** [T.format] and [Q.flash] on the page *)

(** [T.format(text, args)] reads [T.translations]. *)
Definition T_format `{JsValue V} (text : jsstring)
    (args : option (gmap jsstring V)) : action (world page) jsstring :=
  λ w, (T.format (w_translations w) text args, w).

(** [Q.flash(detail)]: the default function writes to the console, the
    one installed by [Q.handle_flash] dispatches the event that adds a
    banner to [<flash-alerts>]. *)
Definition flash (detail : flash_details) w : world page :=
  match w_flash w with
  | flash_default =>
      console (console_log
                 (js "Tried to flash without <flash-alerts> element:") detail) w
  | flash_dispatch => add_banner detail w
  end.

(** *** [Q._maybeSetupGlobalDelegate] *)

Definition _maybeSetupGlobalDelegate w : world page :=
  if w_globalDelegateActive w then w
  else add_listener global_submit_listener w.

(** *** [Q.ajax] *)

Definition ajax (method url : jsstring) (data : option payload)
    (headers : option (gmap jsstring jsstring))
  : action (world page) (outcome (response * jsstring)) :=
  let options_headers :=
    match data with
    | Some (JsonObject _) =>
        Some ({[ js "Content-type" := js "application/json" ]}
                : gmap jsstring jsstring)
    | _ => None
    end in
  options_headers <-
    match headers with
    | None => ret options_headers
    | Some hs =>
        if decide (hs = ∅) then ret options_headers
        else match options_headers with
             | Some h0 => ret (Some (hs ∪ h0))
             | None =>
                 throw (TypeError (js "Cannot set properties of undefined"))
             end
    end ;;
  λ w,
    let req := Request method url options_headers data in
    let '(r, p) := fetch req (w_page w) in
    let w' := add_request req (with_page (λ _, p) w) in
    match r with
    | Ok res =>
        match res_text res with
        | Ok body => (Ok (Fulfilled (res, body)), w')
        | Throw e => (Ok (Rejected e), w')
        end
    | Throw e => (Ok (Rejected e), w')
    end.

(** *** [Q.trap_form] *)

Definition trap_form (action_url elem_id : jsstring)
    (globalSubmitId : option jsstring) : action (world page) unit :=
  λ w, match trap_forms action_url elem_id globalSubmitId (w_page w) with
       | Ok p =>
           let w' := with_page (λ _, p) w in
           (Ok tt, match truthy globalSubmitId with
                   | Some _ => _maybeSetupGlobalDelegate w'
                   | None => w'
                   end)
       | Throw e => (Throw e, w)
       end.

(** *** [Q.is_form_changed] *)

Definition control_changed (input : control) : bool :=
  if c_disabled input then false
  else if bool_decide (c_type input = js "checkbox")
          || bool_decide (c_type input = js "radio")
       then negb (eqb (c_checked input) (c_defaultChecked input))
       else negb (bool_decide (Some (c_value input) = c_defaultValue input)).

Definition is_form_changed (f : form) w : bool :=
  existsb control_changed (form_controls f (w_page w)).

(** *** [Q.load_and_trap] *)

(** The callback of [then]. *)
Definition component_loaded (url target : jsstring)
    (res : response * jsstring) : action (world page) unit :=
  if res_redirected res.1 then effect (with_page (navigate (res_url res.1)))
  else
    elem <- (λ w, (query_target target (w_page w), w)) ;;
    match elem with
    | None =>
        message <- T_format (js "Target element not found: <code>{id}</code>")
                     (Some {[ js "id" := js "#" ++ target ]}) ;;
        effect (flash (FlashDetails message danger))
    | Some elem =>
        effect (with_page (load_html elem res.2)) ;;;
        global_submit <- (λ w, (Ok (global_submit_of elem (w_page w)), w)) ;;
        trap_form url target global_submit ;;;
        match truthy (res_component_flash res.1) with
        | Some text =>
            match parse_flash text with
            | Ok detail => effect (flash detail)
            | Throw _ => effect (flash (FlashDetails text info))
            end
        | None => ret tt
        end
    end.

(** The callback of [catch]. *)
Definition component_failed (err : error) : action (world page) unit :=
  message <- T_format (V := Empty_set) (js "Ajax component error") None ;;
  effect (flash (FlashDetails message danger)) ;;;
  effect (console (console_error (js "Ajax component error:") err)).

(** [if (!target) { Q.flash(...) }] *)
Definition check_target (url target : jsstring) : action (world page) unit :=
  match target with
  | [] =>
      message <- T_format
                   (js "Target element not specified for <code>{url}</code>")
                   (Some {[ js "url" := url ]}) ;;
      effect (flash (FlashDetails message danger))
  | _ :: _ => ret tt
  end.

Definition load_and_trap (method url : jsstring)
    (form_data : option (list (jsstring * jsstring))) (target : jsstring)
  : action (world page) (outcome unit) :=
  let method := toLowerCase (or_else method (js "GET")) in
  check_target url target ;;;
  response <- ajax method url (FormData <$> form_data) None ;;
  λ w, let '(loaded, w1) := then_ response (component_loaded url target) w in
       let '(settled, w2) := catch_ loaded component_failed w1 in
       (Ok settled, w2).

(** *** [Q._ajaxSubmitForm] *)

(** The callback of [catch]. *)
Definition submission_failed (err : error) : action (world page) unit :=
  message <- T_format (V := Empty_set) (js "Submission error") None ;;
  effect (flash (FlashDetails message danger)) ;;;
  effect (console (console_error (js "Form submission failed:") err)).

Definition _ajaxSubmitForm (f : form) : action (world page) (outcome unit) :=
  λ w,
    let url := form_action f (w_page w) in
    let target := form_component_target f (w_page w) in
    if negb (is_form_changed f w)
    then (Ok (Rejected (Error (js "Form was not changed"))), w)
    else
      let buttons := form_buttons f (w_page w) in
      let w1 := with_page (set_disabled buttons true) w in
      let form_data := form_data_of f (w_page w1) in
      match load_and_trap (js "POST") url (Some form_data) target w1 with
      | (Ok loaded, w2) =>
          let '(caught, w3) := catch_ loaded submission_failed w2 in
          let '(settled, w4) :=
            finally_ caught (effect (with_page (set_disabled buttons false))) w3 in
          (Ok settled, w4)
      | (Throw e, w2) => (Throw e, w2)
      end.

(** *** [Q.score_password]

    The counters are integers below [2^53], which a Number holds exactly;
    they become Numbers where the code divides by them. *)

Definition score_password (text : jsstring) : number :=
  let '(score, counters) :=
    foldl (λ '(score, counters) c,
             let n := (default 0 (counters !! c) + 1)%N in
             (add score (div (number_of_Z 5) (number_of_Z (Z.of_N n))),
              <[c := n]> counters))
          (number_of_Z (-10), (∅ : gmap N N)) text in
  let score :=
    foldl (λ score re,
             add score (if regex_test re text then number_of_Z 10
                        else number_of_Z 0))
          score [class_digit; class_lower; class_upper; class_non_word] in
  Math.round (Math.max (number_of_Z 0) score).

(** *** [Q.debounce] *)

Definition debounce (wait : nat) : debounced := Debounced wait None.

(** [executedFunction(...args)], the function that [Q.debounce] returns *)
Definition executedFunction (d : debounced) (args : jsstring) w
  : debounced * world page :=
  let w1 := clearTimeout (d_timeout d) w in
  let '(id, w2) := setTimeout (debounce_later args) (d_wait d) w1 in
  (Debounced (d_wait d) (Some id), w2).

(** [later()], run by the timer *)
Definition later (d : debounced) (args : jsstring) w : world page :=
  invoke args (clearTimeout (d_timeout d) w).

(** *** [Q.throttle] *)

Definition throttle (delay : nat) : throttled := Throttled delay None None.

(** [throttledEventHandler(...event)], the function that [Q.throttle]
    returns *)
Definition throttledEventHandler (t : throttled) (event : jsstring) w
  : throttled * world page :=
  match t_throttleTimeout t with
  | None =>
      let w1 := invoke event w in
      let '(id, w2) := setTimeout throttle_release (t_delay t) w1 in
      (Throttled (t_delay t) (Some id) None, w2)
  | Some id => (Throttled (t_delay t) (Some id) (Some event), w)
  end.

(** The function that [throttledEventHandler] passes to [setTimeout]. *)
Definition throttle_timeout (t : throttled) w : throttled * world page :=
  match t_storedEvent t with
  | Some event =>
      throttledEventHandler (Throttled (t_delay t) None (Some event)) event w
  | None => (Throttled (t_delay t) None None, w)
  end.

(** *** [Q.get_query] *)

Context `{UriDecoder} `{Window page}.

(** [pair[0]] and [pair[1]] for [var pair = item.split("=")], as the
    strings that [decodeURIComponent] makes of its argument: a piece that
    is absent is [undefined], which reads "undefined". *)
Definition item_key (item : jsstring) : jsstring :=
  default undefined_text (split EQUALS item !! 0).

Definition item_value (item : jsstring) : jsstring :=
  default undefined_text (split EQUALS item !! 1).

(** The callback of [items.map]: the key is decoded before the value. *)
Definition get_query_item (vars : gmap jsstring jsstring) (item : jsstring)
  : result (gmap jsstring jsstring) :=
  and_then (decodeURIComponent (item_key item)) (λ key,
  and_then (decodeURIComponent (item_value item)) (λ value,
  Ok (assign key value vars))).

Definition get_query (source : option jsstring) w
  : result (gmap jsstring jsstring) :=
  let source :=
    match truthy source with
    | Some s => s
    | None => drop 1 (location_search (w_page w))
    end in
  foldl (λ vars item, and_then vars (λ vars, get_query_item vars item))
        (Ok ∅) (split AMPERSAND source).

(** *** [Q.get_cookie] *)

Context `{RegExpEngine}.

(** [cookie.toString()] is the text matched; without a match the result
    is [null]. *)
Definition get_cookie (name : jsstring) w : result (option jsstring) :=
  and_then (exec_cookie name (document_cookie (w_page w))) (λ cookie,
    match cookie with
    | None => Ok None
    | Some m =>
        and_then (decodeURIComponent (strip_name m)) (λ value,
        Ok (Some value))
    end).

(** *** [Q.tags_input] *)

Context `{TagValues} {tags_page : TagsPage}.

(** [options.labels[x] || x] as the text of an item: the label is read
    under the name [String(x)], from [options.labels] itself or from
    [Object.prototype], and an empty label counts as none. *)
Definition label (options : tags_options) (x : tag) : jsstring :=
  let name := tag_string x in
  match opt_labels options !! name with
  | Some [] => tag_string x
  | Some text => text
  | None => if inherits name then inherited_text name else tag_string x
  end.

(** [fill(elem, repl)] *)
Definition fill (options : tags_options) (tags keys : list tag)
  : list tag_item :=
  (λ x, TagItem (label options x) (tag_string x) x (includes keys x)) <$> tags.

(** [item.onclick] of the item at position [i] *)
Definition onclick (i : nat) (tw : tags_widget) : tags_widget :=
  match tw_items tw !! i with
  | None => tw
  | Some item =>
      let x := li_tag item in
      let keys :=
        if negb (li_selected item) then tw_keys tw ++ [x]
        else filter (λ y, loosely_equal x y = false) (tw_keys tw) in
      let item := TagItem (li_html item) (li_value item) x (includes keys x) in
      TagsWidget (tw_options tw) (tw_tags tw) keys (<[i := item]> (tw_items tw))
                 (stringify keys) (tw_inp tw) (S (tw_input_events tw))
  end.

(** The callback of [Q.parse_list(inp.value).map] *)
Definition add_typed (options : tags_options)
    (tk : list tag * list tag) (x : jsstring) : list tag * list tag :=
  let x := opt_transform options (trim x) in
  let '(tags, keys) := tk in
  let rejected :=
    match opt_regex options with
    | Some matches => negb (matches x)
    | None => false
    end in
  if rejected then (tags, keys)
  else
    let tags :=
      match x with
      | _ :: _ =>
          if includes tags (tag_text x) then tags else tags ++ [tag_text x]
      | [] => tags
      end in
    let keys :=
      match x with
      | _ :: _ =>
          if includes keys (tag_text x) then keys else keys ++ [tag_text x]
      | [] => keys
      end in
    (tags, keys).

(** [inp.onchange], when the input holds [text] *)
Definition onchange (text : jsstring) (tw : tags_widget) : tags_widget :=
  match tw_inp tw with
  | None => tw
  | Some _ =>
      let '(tags, keys) :=
        foldl (add_typed (tw_options tw)) (tw_tags tw, tw_keys tw)
              (parse_list text) in
      TagsWidget (tw_options tw) tags keys (fill (tw_options tw) tags keys)
                 (stringify keys) (Some []) (S (tw_input_events tw))
  end.

Definition handle_tags_event (tw : tags_widget) (ev : tags_event)
  : tags_widget :=
  match ev with
  | click_item i => onclick i tw
  | change_text text => onchange text tw
  end.

(** [keys.map(function (x) { if (tags.indexOf(x) < 0) tags.push(x); })] *)
Definition add_keys (tags keys : list tag) : list tag :=
  foldl (λ tags x, if includes tags x then tags else tags ++ [x])
        tags keys.

Definition tags_input (elem_arg : jsstring + tags_element)
    (options : option raw_options)
  : list tags_log * result (option tags_widget) :=
  match match elem_arg with
        | inl selector => first_element selector
        | inr elem => Some elem
        end with
  | None =>
      ([log_not_found
          (js "Q.tags_input: elem "
           ++ match elem_arg with inl selector => selector | inr _ => [] end
           ++ js " not found")],
       Ok None)
  | Some elem =>
      match match options with
            | Some options => Ok options
            | None =>
                eval_options
                  (default (js "{}") (truthy (te_options elem)))
            end with
      | Throw e => ([], Throw e)
      | Ok options =>
          let tags := default [] (raw_tags options) in
          let options :=
            TagsOptions (default true (raw_freetext options))
                        (default toLowerCase (raw_transform options))
                        (default ∅ (raw_labels options))
                        (default [] (raw_placeholder options))
                        (raw_autocomplete_list options)
                        (raw_regex options) in
          match
            if negb (te_has_value elem) then Ok []
            else if bool_decide (take 1 (te_value elem) = js "[")
                 then eval_keys (te_value elem)
                 else Ok (tag_text <$> parse_list (te_value elem))
          with
          | Throw e => ([], Throw e)
          | Ok keys =>
              let tags := add_keys tags keys in
              ([log_keys keys],
               Ok (Some (TagsWidget options tags keys (fill options tags keys)
                                    (te_value elem)
                                    (if opt_freetext options then Some []
                                     else None)
                                    0)))
          end
      end
  end.

(** [x.match(/[-+]?[\d]+/)] is not [null], the pattern of the inputs of
    class [type-list-integer]: at some place of [x] there is a digit, or
    a sign followed by a digit. *)
Definition integer_at (x : jsstring) : bool :=
  match x with
  | c :: r =>
      in_class class_digit c
      || ((c =? 45)%N || (c =? 43)%N)
         && match r with
            | d :: _ => in_class class_digit d
            | [] => false
            end
  | [] => false
  end.

Fixpoint integer_pattern (x : jsstring) : bool :=
  integer_at x
  || match x with
     | [] => false
     | _ :: r => integer_pattern r
     end.

(** *** [Q.get], [Q.post], [Q.put] and [Q.delete] *)

Definition get (url : jsstring) (headers : option (gmap jsstring jsstring))
  : action (world page) (outcome (response * jsstring)) :=
  ajax (js "GET") url None headers.

Definition post (url : jsstring) (data : option payload)
    (headers : option (gmap jsstring jsstring))
  : action (world page) (outcome (response * jsstring)) :=
  ajax (js "POST") url data headers.

Definition put (url : jsstring) (data : option payload)
    (headers : option (gmap jsstring jsstring))
  : action (world page) (outcome (response * jsstring)) :=
  ajax (js "PUT") url data headers.

Definition delete (url : jsstring) (headers : option (gmap jsstring jsstring))
  : action (world page) (outcome (response * jsstring)) :=
  ajax (js "DELETE") url None headers.

End Q.
End Q.

(** ** The component [auth] of [auth.js] *)

(** The fields of the component that its methods use.  The values of a
    form are strings, those of [errors] are [null] or a message. *)
Record auth := Auth {
  auth_page : jsstring;
  auth_next : option jsstring;
  auth_form : gmap jsstring jsstring;
  auth_errors : gmap jsstring (option jsstring);
  auth_user : option jsstring
}.

(** [s.lastIndexOf(c)] *)
Fixpoint lastIndexOf (c : N) (s : jsstring) : option nat :=
  match s with
  | [] => None
  | x :: r =>
      match lastIndexOf c r with
      | Some i => Some (S i)
      | None => if (x =? c)%N then Some 0 else None
      end
  end.

Module auth_methods.
Section auth_methods.
Context `{Window page}.
Implicit Type w : world page.

(** [auth.data]; [utils.getQuery] belongs to the page. *)
Definition data (getQuery : jsstring → option jsstring) w : auth :=
  let parts := split SLASH (location_href (w_page w)) in
  Auth (default undefined_text (parts !! (length parts - 1)))
       (getQuery (js "next")) ∅ ∅ None.

(** [href.substring(0, href.lastIndexOf('/')) + '/' + page]; a negative
    end of [substring] counts as [0]. *)
Definition go_url (href page_name : jsstring) : jsstring :=
  take (default 0 (lastIndexOf SLASH href)) href ++ SLASH :: page_name.

(** The form of a page, with its fields empty. *)
Definition form_of (page_name : jsstring) : gmap jsstring jsstring :=
  let fields (names : list string) : gmap jsstring jsstring :=
    list_to_map ((λ name, (js name, [])) <$> names) in
  if decide (page_name = js "register") then
    fields ["email"; "password"; "password2"; "first_name"; "last_name"]
  else if decide (page_name = js "login") then fields ["email"; "password"]
  else if decide (page_name = js "request_reset_password") then
    fields ["email"]
  else if decide (page_name = js "reset_password") then
    fields ["new_password"; "new_password2"]
  else if decide (page_name = js "change_password") then
    fields ["old_password"; "new_password"; "new_password2"]
  else if decide (page_name = js "change_email") then
    fields ["password"; "new_email"; "new_email2"]
  else if decide (page_name = js "edit_profile") then
    fields ["first_name"; "last_name"]
  else ∅.

(** [auth.methods.go]; the loop [for (var key in this.form)] visits
    every field once. *)
Definition go (page_name : jsstring) (no_history : bool) (this : auth)
  : action (world page) auth :=
  let url := λ w, go_url (location_href (w_page w)) page_name in
  (if no_history then ret tt
   else λ w, match pushState page_name (url w) (w_page w) with
             | Ok p => (Ok tt, with_page (λ _, p) w)
             | Throw e => (Throw e, w)
             end) ;;;
  let form := form_of page_name in
  let errors :=
    foldl (λ errors key, <[key := None]> errors) ∅ (map_to_list form).*1 in
  ret (Auth page_name (auth_next this) form errors (auth_user this)).
End auth_methods.
End auth_methods.


(** The scan of the characters of the line proper ([eol] is false). *)
Definition parse_scan (st : parse_state) (cs : jsstring) : parse_state :=
  foldl (λ st c, Q.parse_step st c false) st cs.

(** The scan of a whole line stops outside quotes. *)
Definition closed_quotes (line : jsstring) : Prop :=
  ps_q (parse_scan (ParseState [] [] false false) line) = false.

(** The fields of a line that is a part of a longer line: the empty part
    is one empty field. *)
Definition fields_of (line : jsstring) : list jsstring :=
  match line with
  | [] => [[]]
  | _ :: _ => Q.parse_list line
  end.

(** A field written between double quotes, with a backslash before every
    double quote and backslash of its own. *)
Definition escape (x : jsstring) : jsstring :=
  x ≫= λ c, if (c =? DQUOTE)%N || (c =? BACKSLASH)%N
            then [BACKSLASH; c] else [c].

Definition quote (x : jsstring) : jsstring := DQUOTE :: escape x ++ [DQUOTE].

(** The state of the loop when the fields [a0] had been pushed before. *)
Definition push_front (a0 : list jsstring) (st : parse_state) : parse_state :=
  ParseState (a0 ++ ps_a st) (ps_s st) (ps_q st) (ps_esc st).

(** A tag that [join] and [Q.parse_list] carry unchanged. *)
Definition is_tag (x : jsstring) : Prop :=
  x ≠ [] ∧ (COMMA ∉ x) ∧ (DQUOTE ∉ x) ∧ (BACKSLASH ∉ x)
  ∧ (∀ c, head x = Some c → is_space c = false)
  ∧ (∀ c, last x = Some c → is_space c = false).

(** A control in the state in which the page was loaded. *)
Definition checkable (input : control) : Prop :=
  c_type input = js "checkbox" ∨ c_type input = js "radio".

Definition at_default (input : control) : Prop :=
  (c_disabled input = false → Some (c_value input) = c_defaultValue input)
  ∧ (checkable input → c_checked input = c_defaultChecked input).

(** What a call that neither issues a request nor touches a timer nor
    replaces [Q.flash] or [T.translations] leaves as it was. *)
Definition quiet {page} (w w' : world page) : Prop :=
  w_requests w' = w_requests w
  ∧ w_timers w' = w_timers w
  ∧ w_next_timer w' = w_next_timer w
  ∧ w_flash w' = w_flash w
  ∧ w_translations w' = w_translations w
  ∧ (w_flash w = flash_default → w_banners w' = w_banners w).

Definition same_timers {page} (w w' : world page) : Prop :=
  w_timers w' = w_timers w ∧ w_next_timer w' = w_next_timer w.

(** The click listener of the global submit buttons is registered when
    [Q._globalDelegateActive] is set, and only then. *)
Definition delegate_once {page} (w : world page) : Prop :=
  w_click_listeners w
  = if w_globalDelegateActive w then [global_submit_listener] else [].

(** *** The tags widget *)

(** A tag that is a string. *)
Definition is_text `{TagValues} (x : tag) : Prop :=
  match x with
  | tag_text _ => True
  | tag_other _ => False
  end.

(** The list shows the tags, each once, with the selected state that
    [keys] gives them, and every key is a tag. *)
Definition tags_consistent `{TagValues} (tw : tags_widget) : Prop :=
  NoDup (tw_tags tw)
  ∧ tw_keys tw ⊆ tw_tags tw
  ∧ li_tag <$> tw_items tw = tw_tags tw
  ∧ Forall (λ item, (li_selected item = true ↔ li_tag item ∈ tw_keys tw)
                    ∧ li_value item = tag_string (li_tag item))
           (tw_items tw).

(** *** Query strings *)

(** A parameter of a query string: a name, with or without a value. *)
Definition write_parameter (p : jsstring * option jsstring) : jsstring :=
  match p.2 with
  | Some value => p.1 ++ EQUALS :: value
  | None => p.1
  end.

Definition query_of (ps : list (jsstring * option jsstring)) : jsstring :=
  join [AMPERSAND] (write_parameter <$> ps).

(** What [Q.get_query] reads for a parameter. *)
Definition read_parameter (p : jsstring * option jsstring)
  : jsstring * jsstring :=
  (p.1, default undefined_text p.2).

(** The query that [Q.get_query] reads: its argument, or the query of
    the address of the page without its question mark. *)
Definition query_read `{Window page} (source : option jsstring)
    (w : world page) : jsstring :=
  match truthy source with
  | Some s => s
  | None => drop 1 (location_search (w_page w))
  end.

(** Both parts of an item can be decoded. *)
Definition decodable `{UriDecoder} (item : jsstring) : Prop :=
  ∃ key value, decodeURIComponent (Q.item_key item) = Ok key
               ∧ decodeURIComponent (Q.item_value item) = Ok value.

(** The error of the first part of an item that cannot be decoded. *)
Definition undecodable `{UriDecoder} (item : jsstring) (e : error) : Prop :=
  decodeURIComponent (Q.item_key item) = Throw e
  ∨ (∃ key, decodeURIComponent (Q.item_key item) = Ok key)
    ∧ decodeURIComponent (Q.item_value item) = Throw e.

(** A name or value that needs no escape. *)
Definition unreserved (s : jsstring) : Prop :=
  (AMPERSAND ∉ s) ∧ (EQUALS ∉ s) ∧ (PERCENT ∉ s).

Definition plain_parameter (p : jsstring * option jsstring) : Prop :=
  unreserved p.1 ∧ p.1 ≠ js "__proto__"
  ∧ ∀ value, p.2 = Some value → unreserved value.

(** *** Cookies *)

(** At position [i] of [text] stands [name], followed by a character
    other than the semicolon. *)
Definition occurs_at (name text : jsstring) (i : nat) : Prop :=
  ∃ c rest, drop i text = name ++ c :: rest ∧ c ≠ SEMICOLON.

(** *** Timers *)

(** The identifiers of the pending timers are among those issued so
    far. *)
Definition timers_fresh {page} (w : world page) : Prop :=
  ∀ id, is_Some (w_timers w !! id) → id ≤ w_next_timer w.

(** The timer [id] is due: the browser takes it from the pending timers
    before it runs its task. *)
Definition expire {page} (id : nat) (w : world page) : world page :=
  with_timers (delete id) (w_next_timer w) w.

(** Calls of the debounced function, one after the other, while no timer
    is due. *)
Definition executed {page} (d : debounced) (w : world page)
    (calls : list jsstring) : debounced * world page :=
  foldl (λ dw args, Q.executedFunction dw.1 args dw.2) (d, w) calls.

(** Calls of the throttled function, one after the other, while no timer
    is due. *)
Definition handled {page} (t : throttled) (w : world page)
    (events : list jsstring) : throttled * world page :=
  foldl (λ tw event, Q.throttledEventHandler tw.1 event tw.2) (t, w) events.

(** *** The password score, in the words of the claim *)

(** The number of occurrences of [c] in [s]. *)
Definition occurrences (c : N) (s : jsstring) : N :=
  N.of_nat (length (filter (λ x, x = c) s)).

(** [k_i]: the number of occurrences of [text[i]] among the first [i + 1]
    characters of [text]. *)
Definition repetition (text : jsstring) (i : nat) : N :=
  occurrences (default 0%N (text !! i)) (take (S i) text).

(** The terms [5 / k_i], in the order of the positions: each one the
    binary64 quotient of the integers [5] and [k_i]. *)
Definition repetition_terms (text : jsstring) : list number :=
  (λ i, SFdiv 53 1024 (binary_normalize 53 1024 5 0 false)
          (binary_normalize 53 1024 (Z.of_N (repetition text i)) 0 false))
    <$> seq 0 (length text).

(** A character of the class occurs in the text. *)
Definition occurs (cls : char_class) (text : jsstring) : Prop :=
  ∃ c, c ∈ text ∧ in_class cls c = true.

(** The classes of which a character occurs in the text. *)
Definition classes_of (text : jsstring) : list char_class :=
  filter (λ cls, regex_test cls text = true)
         [class_digit; class_lower; class_upper; class_non_word].

(** [10] for each of the four classes that occurs in the text. *)
Definition class_bonuses (text : jsstring) : list number :=
  (λ _, binary_normalize 53 1024 10 0 false) <$> classes_of text.

(** The sum of the formula in binary64 arithmetic: [-10], the terms
    [5 / k_i] and the bonuses are added from left to right, and every sum
    is rounded to the nearest binary64 value. *)
Definition score_sum (text : jsstring) : number :=
  foldl (SFadd 53 1024)
        (foldl (SFadd 53 1024) (binary_normalize 53 1024 (-10) 0 false)
               (repetition_terms text))
        (class_bonuses text).

(** The sum of the formula in exact arithmetic, as a fraction. *)
Definition exact_sum (text : jsstring) : Z * Z :=
  foldl (λ '(num, den) i,
           let k := Z.of_N (repetition text i) in
           (num * k + 5 * den, den * k)%Z)
        (-10 + 10 * Z.of_nat (length (classes_of text)), 1)%Z
        (seq 0 (length text)).

(** The value of a finite Number, as a fraction. *)
Definition fraction_of (x : number) : option (Z * Z) :=
  match x with
  | S754_zero _ => Some (0, 1)%Z
  | S754_finite s m e =>
      Some (if (0 <=? e)%Z then (cond_Zopp s (Z.pos m) * 2 ^ e, 1)%Z
            else (cond_Zopp s (Z.pos m), 2 ^ (- e))%Z)
  | _ => None
  end.

(** [round(max(0, q))] for a fraction [q = num / den] with [0 < den]:
    [0] for a negative [q], and otherwise the integer nearest to [q], the
    larger one of two equally near. *)
Definition round_max (q : Z * Z) : Z :=
  let '(num, den) := q in
  if (num <? 0)%Z then 0%Z else ((2 * num + den) / (2 * den))%Z.

(** The integer that a Number holds, if it holds one. *)
Definition to_integer (x : number) : option Z :=
  match x with
  | S754_zero _ => Some 0%Z
  | S754_finite s m e =>
      if (0 <=? e)%Z then Some (cond_Zopp s (Z.pos m * 2 ^ e))%Z
      else if (Z.pos m mod 2 ^ (- e) =? 0)%Z
           then Some (cond_Zopp s (Z.pos m / 2 ^ (- e)))%Z
           else None
  | _ => None
  end.

(** A Number that is zero, or finite with magnitude at most [2^B], with a
    mantissa of at most 53 digits and an exponent of at least -1074. *)
Definition within (B : Z) (x : number) : Prop :=
  match x with
  | S754_zero _ => True
  | S754_finite _ m e =>
      (-1074 ≤ e)%Z ∧ (Z.pos m * 2 ^ (e + 1074) ≤ 2 ^ (B + 1074))%Z
      ∧ (Z.pos (digits2_pos m) ≤ 53)%Z
  | _ => False
  end.

Definition sign (x : number) : bool :=
  match x with
  | S754_zero s | S754_infinity s | S754_finite s _ _ => s
  | S754_nan => false
  end.

(** Two Numbers that are equal, or both zero. *)
Definition same_but_zero_sign (x y : number) : Prop :=
  x = y ∨ ∃ sx sy, x = S754_zero sx ∧ y = S754_zero sy.

(** ** Sample data *)

(** A runtime for the examples: lower case of ASCII letters, and a
    comparison that reads plain decimal literals only. *)
Definition ascii_lower (c : N) : N :=
  if ((65 <=? c) && (c <=? 90))%N then (c + 32)%N else c.

Definition decimal_value (s : jsstring) : option Z :=
  match s with
  | [] => None
  | _ :: _ =>
      if forallb (in_class class_digit) s
      then Some (foldl (λ n c, 10 * n + Z.of_N (c - 48))%Z 0%Z s)
      else None
  end.

(** The longest prefix of decimal digits. *)
Fixpoint digit_prefix (s : jsstring) : jsstring :=
  match s with
  | [] => []
  | c :: r => if in_class class_digit c then c :: digit_prefix r else []
  end.

(** [parseInt] on decimal texts: an optional sign and the digits that
    follow it. *)
Definition sample_parseInt (s : jsstring) : parsed :=
  let '(negative, body) :=
    match s with
    | 45%N :: r => (true, r)
    | 43%N :: r => (false, r)
    | _ => (false, s)
    end in
  match digit_prefix body with
  | [] => NaN
  | digits =>
      match digits_uint digits with
      | Some d =>
          let n := Z.of_N (N.of_uint d) in
          Finite (if negative then - n else n)%Z
      | None => NaN
      end
  end.

(** [String(k)] for an integer that prints in plain decimal notation. *)
Definition sample_number_key (k : parsed) : jsstring :=
  match k with
  | NaN => js "NaN"
  | Finite z =>
      if (z <? 0)%Z then 45%N :: index_text (Z.to_N (- z))
      else index_text (Z.to_N z)
  | Infinite negative =>
      if negative then js "-Infinity" else js "Infinity"
  end.

(** The text of an inherited property: of [Object.prototype] itself under
    [__proto__], of a built-in function otherwise. *)
Definition sample_inherited_text (k : jsstring) : jsstring :=
  if bool_decide (k = js "__proto__") then js "[object Object]"
  else if bool_decide (k = js "constructor")
       then js "function Object() { [native code] }"
       else js "function " ++ k ++ js "() { [native code] }".

#[export] Instance sample_runtime : Runtime.
Proof.
  refine {| toLowerCase s := ascii_lower <$> s;
            string_le i s := match decimal_value s with
                             | Some n => (i <=? n)%Z
                             | None => false
                             end;
            string_le_inf negative s :=
              match decimal_value s with
              | Some _ => negative
              | None => false
              end;
            inherited_text := sample_inherited_text;
            parseInt := sample_parseInt;
            number_key := sample_number_key |}.
  - intros i j s Hij. destruct (decimal_value s); [|done].
    intros Hj. apply Z.leb_le. apply Z.leb_le in Hj. lia.
  - intros n _. unfold sample_parseInt.
    assert (Hdigits : ∀ d, digits_uint (uint_digits d) = Some d)
      by (induction d; simpl; rewrite ?IHd; done).
    assert (Hprefix : ∀ d, digit_prefix (uint_digits d) = uint_digits d)
      by (induction d; simpl; rewrite ?IHd; done).
    assert (∃ c r, index_text n = c :: r ∧ (48 ≤ c ≤ 57)%N)
      as (c & r & Hn & Hc).
    { unfold index_text. destruct n as [|p]; simpl.
      - exists 48%N, []. split; [done|lia].
      - pose proof (DecimalPos.Unsigned.to_uint_nonnil p) as Hp.
        destruct (Pos.to_uint p); simpl; try done; eexists _, _;
          (split; [done|lia]). }
    assert (match index_text n with
            | 45%N :: r => (true, r)
            | 43%N :: r => (false, r)
            | _ => (false, index_text n)
            end = (false, index_text n)) as ->.
    { rewrite Hn. destruct c as [|p]; [lia|].
      do 6 (destruct p as [p|p|]; try lia; try done). }
    unfold index_text in Hn |- *. rewrite Hprefix. rewrite Hn at 1.
    rewrite <- Hn. rewrite Hdigits.
    by rewrite DecimalN.Unsigned.of_to.
  - intros n _. unfold sample_number_key.
    destruct (Z.ltb_spec (Z.of_N n) 0); [lia|]. by rewrite N2Z.id.
Defined.

(** A small page: the network is up or down, a set of buttons is
    disabled, and the component container cannot be selected. *)
Record sample_page := SamplePage {
  online : bool;
  disabled_buttons : gset nat
}.

Definition unchanged_control : control :=
  Control false (js "text") false false (js "Ann") (Some (js "Ann")).

Definition changed_control : control :=
  Control false (js "text") false false (js "Bob") (Some (js "Ann")).

Definition sample_response : response :=
  Response false (js "/component") (Ok (js "<p>loaded</p>")) None.

#[export] Instance sample_browser : Browser sample_page :=
  {| fetch _ p :=
       (if online p then Ok sample_response
        else Throw (TypeError (js "Failed to fetch")), p);
     query_target _ _ := Throw (HostError 12);
     navigate _ p := p;
     load_html _ _ p := p;
     global_submit_of _ _ := None;
     trap_forms _ _ _ p := Ok p;
     parse_flash _ := Throw (HostError 0);
     form_action _ _ := js "/submit";
     form_component_target _ _ := js "component_1";
     form_controls f _ :=
       match f with
       | 0 => [unchanged_control]
       | _ => [unchanged_control; changed_control]
       end;
     form_buttons _ _ := [7];
     set_disabled buttons b p :=
       SamplePage (online p)
                  (if b then disabled_buttons p ∪ list_to_set buttons
                   else disabled_buttons p ∖ list_to_set buttons);
     form_data_of _ _ := [(js "name", js "Bob")] |}.

(** A decoder for the examples: it accepts the strings without percent
    sign only. *)
#[export] Instance sample_decoder : UriDecoder.
Proof.
  refine {| decodeURIComponent s :=
              if bool_decide (PERCENT ∈ s)
              then Throw (Error (js "URI malformed")) else Ok s |}.
  intros s Hs. by rewrite bool_decide_false.
Defined.

#[export] Instance sample_window : Window sample_page :=
  {| location_search _ := js "?page=2&debug";
     location_href _ := js "http://localhost/auth/login";
     pushState _ _ p := Ok p;
     document_cookie _ := js "sid=abc; id=xyz" |}.

(** An engine for the examples: every name stands for itself. *)
#[export] Instance sample_engine : RegExpEngine :=
  {| exec_cookie name text := Ok (find_cookie name text);
     exec_cookie_literal _ _ _ := eq_refl |}.

(** Tags that are no strings: the integers, which are equal to the
    strings that are their decimal literals. *)
#[export] Instance sample_values : TagValues :=
  {| other := Z;
     other_text z := sample_number_key (Finite z);
     strict_equal := Z.eqb;
     loose_equal := Z.eqb;
     equal_text z s := bool_decide (decimal_value s = Some z) |}.

(** A page without the elements that a selector could find, where a text
    evaluates to an empty object, and to an empty array unless it is the
    array [[1, 2]]. *)
#[export] Instance sample_tags_page : TagsPage :=
  {| first_element _ := None;
     eval_options _ := Ok (RawOptions None None None None None None None);
     eval_keys text :=
       if bool_decide (text = js "[1, 2]")
       then Ok [tag_other 1%Z; tag_other 2%Z] else Ok [];
     stringify keys := join [COMMA] (tag_string <$> keys) |}.

(** A page whose component is loaded, or redirected when the page is
    [true]; the component answers with the flash message [saved]. *)
Definition component_browser : Browser bool :=
  {| fetch _ p :=
       (Ok (Response p (js "/login") (Ok (js "<p>loaded</p>"))
                     (Some (js "saved"))), p);
     query_target _ _ := Ok (Some 0);
     navigate _ p := p;
     load_html _ _ p := p;
     global_submit_of _ _ := None;
     trap_forms _ _ _ p := Ok p;
     parse_flash _ := Throw (HostError 0);
     form_action _ _ := js "/submit";
     form_component_target _ _ := js "component_1";
     form_controls _ _ := [];
     form_buttons _ _ := [];
     set_disabled _ _ p := p;
     form_data_of _ _ := [] |}.

(** The page after loading, with or without [<flash-alerts>]. *)
Definition sample_world (up : bool) (fl : flash_function) : world sample_page :=
  World (SamplePage up ∅) false ∅ fl [] [] [] [] ∅ 0 [].


Definition dog_forms : plural_forms :=
  PluralForms [(js "0", js "no cane"); (js "1", js "un cane");
               (js "2", js "{n} cani"); (js "10", js "tanti cani")] I.

Definition dog : translation_table := {[ js "dog" := dog_forms ]}.


Definition five : count := Count 5 I.

(* ===================================================================== *)
(** * Part II: properties                                                 *)
(* ===================================================================== *)

Example format_example :
  JsString.format (js "a{bc}d{}e{f") (∅ : gmap jsstring count)
  = js "aundefinedd{}e{f".
Proof. reflexivity. Qed.

(** ** Template interpolation *)

Lemma span_key_app (s : jsstring) :
  s = (span_key s).1 ++ (span_key s).2.
Proof.
  induction s as [|c r IH]; simpl; [done|].
  destruct (c =? RBRACE)%N; [done|].
  destruct (span_key r) as [k rest]; simpl in *. by f_equal.
Qed.

Lemma span_key_no_brace (s : jsstring) : RBRACE ∉ (span_key s).1.
Proof.
  induction s as [|c r IH]; simpl; [apply not_elem_of_nil|].
  destruct (c =? RBRACE)%N eqn:Hc; [apply not_elem_of_nil|].
  destruct (span_key r) as [k rest]; simpl in *.
  apply not_elem_of_cons. split; [|done].
  intros <-. by rewrite N.eqb_refl in Hc.
Qed.

Lemma span_key_stop (k rest : jsstring) :
  RBRACE ∉ k → span_key (k ++ RBRACE :: rest) = (k, RBRACE :: rest).
Proof.
  induction k as [|c k IH]; intros Hk; simpl.
  - done.
  - apply not_elem_of_cons in Hk as [Hc Hk].
    destruct (c =? RBRACE)%N eqn:E; [apply N.eqb_eq in E; congruence|].
    by rewrite IH.
Qed.

Lemma match_placeholder_Some (s k rest : jsstring) :
  match_placeholder s = Some (k, rest) ↔ placeholder_at s k rest.
Proof.
  unfold match_placeholder, placeholder_at. split.
  - destruct s as [|c r]; [done|].
    destruct (c =? LBRACE)%N eqn:Hc; [|done]. apply N.eqb_eq in Hc as ->.
    pose proof (span_key_app r) as Happ.
    pose proof (span_key_no_brace r) as Hno.
    destruct (span_key r) as [[|k1 k'] [|c' rest']]; try done.
    destruct (c' =? RBRACE)%N eqn:Hc'; [|done]. apply N.eqb_eq in Hc' as ->.
    intros [= <- <-]. simpl in *. by rewrite Happ at 1.
  - intros (-> & Hk & Hno). rewrite N.eqb_refl, span_key_stop by done.
    destruct k; [done|]. by rewrite N.eqb_refl.
Qed.

Lemma match_placeholder_None (s : jsstring) :
  match_placeholder s = None → ∀ k rest, ¬ placeholder_at s k rest.
Proof.
  intros Hnone k rest Hp. apply match_placeholder_Some in Hp. congruence.
Qed.

Lemma replace_placeholders_expands fn (s : jsstring) :
  expands fn s (replace_placeholders fn s).
Proof.
  funelim (replace_placeholders fn s); simp replace_placeholders.
  - constructor.
  - eapply expands_placeholder; [|done]. by apply match_placeholder_Some.
  - apply expands_char; [|done]. by apply match_placeholder_None.
Qed.

Lemma expands_functional fn (s o1 o2 : jsstring) :
  expands fn s o1 → expands fn s o2 → o1 = o2.
Proof.
  intros H1. revert o2.
  induction H1 as [|s k rest out Hp _ IH|c r out Hno _ IH]; intros o2 H2.
  - inversion H2 as [|? ? ? ? Hp'|]; [done|]. by destruct Hp'.
  - inversion H2 as [|? k' rest' out' Hp' Hrest|c r out' Hno' Hrest]; subst.
    + by destruct Hp.
    + apply match_placeholder_Some in Hp, Hp'. simplify_eq.
      f_equal. by apply IH.
    + by destruct (Hno' k rest).
  - inversion H2 as [|? k' rest' out' Hp' Hrest|? ? out' Hno' Hrest]; subst.
    + by destruct (Hno k' rest').
    + f_equal. by apply IH.
Qed.

Lemma replace_placeholders_id fn (s : jsstring) :
  ¬ has_placeholder s → replace_placeholders fn s = s.
Proof.
  funelim (replace_placeholders fn s); simp replace_placeholders; intros Hno.
  - done.
  - destruct Hno.
    destruct (proj1 (match_placeholder_Some _ _ _) Hm) as (Hs & Hk & Hb).
    exists [], k, rest. by rewrite Hs.
  - f_equal. apply H.
    intros (pre & k & rest & -> & Hk & Hb). apply Hno.
    by exists (c :: pre), k, rest.
Qed.

(** C3.  [s.format(args)] is [s] in which, reading from the left, every
    placeholder [{k}] (with [k] a non-empty run of characters other than
    the closing brace) is replaced by [args[k]] converted to a string:
    the text of the value when [k] is a property of [args] itself, the
    text of the inherited value when [args] inherits [k] from
    [Object.prototype], and "undefined" when [args] has no property [k];
    every other character is kept, and a string without placeholder is
    returned unchanged. *)
Theorem format_replaces_placeholders `{Runtime} `{JsValue V}
    (s : jsstring) (args : gmap jsstring V) :
  (∀ out, expands (interpolate args) s out ↔ out = JsString.format s args)
  ∧ (∀ k v, args !! k = Some v → interpolate args k = ToString v)
  ∧ (∀ k, args !! k = None → k ∈ object_prototype_names →
          interpolate args k = inherited_text k)
  ∧ (∀ k, args !! k = None → k ∉ object_prototype_names →
          interpolate args k = js "undefined")
  ∧ (¬ has_placeholder s → JsString.format s args = s).
Proof.
  unfold JsString.format. repeat split.
  - intros Hout. eapply expands_functional; [done|].
    apply replace_placeholders_expands.
  - intros ->. apply replace_placeholders_expands.
  - intros k v Hk. unfold interpolate. by rewrite Hk.
  - intros k Hk Hin. unfold interpolate, inherits.
    by rewrite Hk, bool_decide_true.
  - intros k Hk Hin. unfold interpolate, inherits.
    by rewrite Hk, bool_decide_false.
  - apply replace_placeholders_id.
Qed.

Lemma format_replaces_placeholders_witness :
  let args : gmap jsstring count := {[ js "n" := five ]} in
  expands (interpolate args) (js "{n} of {m}, {toString}")
          (js "5 of undefined, function toString() { [native code] }")
  ∧ interpolate args (js "n") = js "5"
  ∧ interpolate args (js "toString")
    = js "function toString() { [native code] }"
  ∧ interpolate args (js "m") = js "undefined"
  ∧ ¬ has_placeholder (js "no braces")
  ∧ JsString.format (js "no braces") args = js "no braces".
Proof.
  intros args.
  assert (Hno : ¬ has_placeholder (js "no braces")).
  { intros (pre & k & rest & Heq & _).
    assert (Hin : LBRACE ∈ js "no braces")
      by (rewrite Heq; apply elem_of_app; right; apply elem_of_cons; by left).
    revert Hin. by apply (bool_decide_unpack (LBRACE ∉ js "no braces")). }
  destruct (format_replaces_placeholders (js "{n} of {m}, {toString}") args)
    as (Hout & Hown & Hinherited & Habsent & _).
  destruct (format_replaces_placeholders (js "no braces") args)
    as (_ & _ & _ & _ & Hsame).
  split; [apply Hout; by vm_compute|].
  split; [exact (Hown (js "n") five eq_refl)|].
  split; [exact (Hinherited (js "toString") eq_refl
                   (bool_decide_unpack
                      (js "toString" ∈ object_prototype_names) I))|].
  split; [exact (Habsent (js "m") eq_refl
                   (bool_decide_unpack (js "m" ∉ object_prototype_names) I))|].
  split; [exact Hno|exact (Hsame Hno)].
Defined.

(** ** Pluralisation *)

Example T_format_dog :
  T.format dog (js "dog") (Some {[ js "n" := five ]}) = Ok (js "5 cani").
Proof. vm_compute. reflexivity. Qed.

Lemma digits_uint_digits d : digits_uint (uint_digits d) = Some d.
Proof. induction d; simpl; rewrite ?IHd; done. Qed.

Lemma index_text_inj (n m : N) : index_text n = index_text m → n = m.
Proof.
  unfold index_text. intros Heq. apply (f_equal digits_uint) in Heq.
  rewrite !digits_uint_digits in Heq. injection Heq as Heq.
  apply (f_equal N.of_uint) in Heq.
  by rewrite !DecimalN.Unsigned.of_to in Heq.
Qed.

Lemma array_index_Some (key : jsstring) (n : N) :
  array_index key = Some n ↔ (n < 2 ^ 32 - 1)%N ∧ index_text n = key.
Proof.
  unfold array_index. split.
  - destruct (digits_uint key) as [d|]; [|done].
    destruct (_ && _) eqn:E; [|done]. intros [= <-].
    apply andb_true_iff in E as [E1 E2]. apply N.ltb_lt in E1.
    by apply bool_decide_eq_true in E2.
  - intros [Hn <-]. unfold index_text.
    rewrite digits_uint_digits, DecimalN.Unsigned.of_to.
    apply N.ltb_lt in Hn. rewrite Hn. by rewrite bool_decide_true.
Qed.

Lemma own_property_is_Some (forms : plural_forms) (key : jsstring) :
  is_Some (T.own_property forms key) ↔ key ∈ (pf_properties forms).*1.
Proof.
  unfold T.own_property. rewrite <- not_eq_None_Some.
  rewrite <- not_elem_of_list_to_map.
  destruct (decide (key ∈ (pf_properties forms).*1)); naive_solver.
Qed.

Lemma index_keys_elem (forms : plural_forms) (k : N) :
  index_keyed forms →
  k ∈ merge_sort N.le (omap array_index (pf_properties forms).*1)
  ↔ is_Some (T.own_property forms (index_text k)).
Proof.
  intros Hkeys. rewrite merge_sort_Permutation, own_property_is_Some.
  rewrite list_elem_of_omap. split.
  - intros (key & Hin & [_ <-]%array_index_Some). done.
  - intros Hin. exists (index_text k). split; [done|].
    unfold index_keyed in Hkeys. rewrite Forall_forall in Hkeys.
    destruct (Hkeys _ Hin) as [n Hn]. rewrite Hn. f_equal.
    apply array_index_Some in Hn as [_ Hn]. by apply index_text_inj.
Qed.

Lemma index_keys_small (forms : plural_forms) (k : N) :
  k ∈ merge_sort N.le (omap array_index (pf_properties forms).*1) →
  (k < 2 ^ 53)%N.
Proof.
  rewrite merge_sort_Permutation, list_elem_of_omap.
  intros (key & _ & [Hk _]%array_index_Some). lia.
Qed.

Lemma for_in_keys_index (forms : plural_forms) :
  index_keyed forms →
  T.for_in_keys forms
  = index_text <$> merge_sort N.le (omap array_index (pf_properties forms).*1).
Proof.
  unfold index_keyed, T.for_in_keys. intros Hkeys.
  assert (filter (λ key, array_index key = None) (pf_properties forms).*1 = [])
    as ->; [|by rewrite app_nil_r].
  induction Hkeys as [|key keys [n Hn] _ IH]; [done|].
  rewrite filter_cons_False by (by rewrite Hn). done.
Qed.

Lemma select_key_spec `{Runtime} (le : parsed → bool) (keys : list N) (k0 : N) :
  (∀ i j, (i ≤ j)%Z → le (Finite j) = true → le (Finite i) = true) →
  Forall (λ k, (k < 2 ^ 53)%N) keys →
  StronglySorted N.le keys →
  ∃ k, T.select_key le (index_text <$> keys) (Finite (Z.of_N k0))
       = Finite (Z.of_N k)
       ∧ ((k ∈ keys ∧ le (Finite (Z.of_N k)) = true
           ∧ ∀ k', k' ∈ keys → le (Finite (Z.of_N k')) = true → (k' ≤ k)%N)
          ∨ ((∀ k', k' ∈ keys → le (Finite (Z.of_N k')) = false) ∧ k = k0)).
Proof.
  intros Hdown Hsmall Hsorted. revert k0 Hsmall.
  induction Hsorted as [|key keys Hs IH Hall]; intros k0 Hsmall.
  - exists k0. split; [done|]. right. split; [|done].
    intros k' Hk'. by apply elem_of_nil in Hk'.
  - apply Forall_cons in Hsmall as [Hkey Hsmall].
    rewrite Forall_forall in Hall.
    cbn [fmap list_fmap T.select_key]. rewrite parseInt_index by done.
    destruct (le (Finite (Z.of_N key))) eqn:Hle.
    + destruct (IH key Hsmall) as (k & Hk & [(Hin & Hk' & Hmax)|[Hnone Heq]]);
        exists k; (split; [done|]); left.
      * split; [by apply elem_of_cons; right|]. split; [done|].
        intros k' [->|Hin']%elem_of_cons Hq; [|by apply Hmax].
        by apply Hall.
      * subst k. split; [by apply elem_of_cons; left|]. split; [done|].
        intros k' [->|Hin']%elem_of_cons Hq; [done|].
        rewrite Hnone in Hq; done.
    + exists k0. split; [done|]. right. split; [|done].
      intros k' [->|Hin']%elem_of_cons; [done|].
      destruct (le (Finite (Z.of_N k'))) eqn:Hq; [|done].
      rewrite (Hdown (Z.of_N key) (Z.of_N k')) in Hle; [done| |done].
      apply N2Z.inj_le. by apply Hall.
Qed.

Lemma le_n_down `{JsValue V} (args : gmap jsstring V) (i j : Z) :
  (i ≤ j)%Z → T.le_n args (Finite j) = true → T.le_n args (Finite i) = true.
Proof.
  unfold T.le_n. destruct (args !! js "n") as [n|].
  - apply le_int_down.
  - intros Hij Hj. apply Z.leb_le. apply Z.leb_le in Hj. lia.
Qed.

(** The key that the loop of [T.format] leaves in [k], for an entry whose
    keys are array indices. *)
Lemma select_key_plural `{Runtime} `{JsValue V} (a : gmap jsstring V)
    (forms : plural_forms) :
  index_keyed forms →
  ∃ k, number_key (T.select_key (T.le_n a) (T.for_in_keys forms) (Finite 0))
       = index_text k
       ∧ plural_key (λ k, T.le_n a (Finite (Z.of_N k))) forms k.
Proof.
  intros Hkeys. rewrite for_in_keys_index by done.
  destruct (select_key_spec (T.le_n a)
              (merge_sort N.le (omap array_index (pf_properties forms).*1))
              0%N (le_n_down a))
    as (k & Hk & Hcases).
  { apply Forall_forall. intros k. apply index_keys_small. }
  { apply (StronglySorted_merge_sort N.le). }
  exists k. change (Finite 0) with (Finite (Z.of_N 0)). rewrite Hk.
  destruct Hcases as [(Hin & Hle & Hmax)|[Hnone ->]].
  - rewrite number_key_index by (by eapply index_keys_small).
    split; [done|]. left. split; [by apply index_keys_elem|].
    split; [done|]. intros k' Hk'. apply Hmax. by apply index_keys_elem.
  - rewrite number_key_index by done. split; [done|]. right.
    split; [|done]. intros k' Hk'. apply Hnone. by apply index_keys_elem.
Qed.





(** ** Tag lists *)

Example parse_list_quoted :
  Q.parse_list (js "a, " ++ DQUOTE :: js "b" ++ BACKSLASH :: js ",c"
                ++ BACKSLASH :: DQUOTE :: js "d" ++ DQUOTE :: js " ,e,")
  = [js "a"; js "b,c" ++ DQUOTE :: js "d"; js "e"; []].
Proof. vm_compute. reflexivity. Qed.

Lemma parse_loop_indices (pre line : jsstring) (st : parse_state) (n k : nat) :
  k = length pre → length (pre ++ line) ≤ n →
  foldl (λ st i, Q.parse_step st (default COMMA ((pre ++ line) !! i))
                              (bool_decide (i = n)))
        st (seq k (length line))
  = parse_scan st line.
Proof.
  revert pre st k. induction line as [|c line IH]; intros pre st k -> Hn; [done|].
  simpl. rewrite list_lookup_middle by done. simpl.
  rewrite bool_decide_false by (rewrite length_app in Hn; simpl in Hn; lia).
  rewrite (cons_middle c pre line), (assoc_L (++)).
  rewrite (cons_middle c pre line), (assoc_L (++)) in Hn.
  apply IH; [|done]. rewrite length_app. simpl. lia.
Qed.

Lemma parse_loop_scan (line : jsstring) :
  Q.parse_loop line
  = Q.parse_step (parse_scan (ParseState [] [] false false) line) COMMA true.
Proof.
  unfold Q.parse_loop. rewrite seq_S, foldl_app. simpl.
  rewrite lookup_ge_None_2 by lia. simpl.
  rewrite bool_decide_true by done. f_equal.
  apply (parse_loop_indices [] line); simpl; [done|lia].
Qed.

Lemma parse_scan_app (st : parse_state) (cs1 cs2 : jsstring) :
  parse_scan st (cs1 ++ cs2) = parse_scan (parse_scan st cs1) cs2.
Proof. apply foldl_app. Qed.

Lemma parse_scan_plain a s esc (x : jsstring) :
  COMMA ∉ x → DQUOTE ∉ x →
  parse_scan (ParseState a s false esc) x = ParseState a (s ++ x) false esc.
Proof.
  revert s. induction x as [|c x IH]; intros s Hc Hq; simpl.
  - by rewrite app_nil_r.
  - apply not_elem_of_cons in Hc as [Hc Hc'].
    apply not_elem_of_cons in Hq as [Hq Hq'].
    assert ((c =? COMMA)%N = false) as -> by (apply N.eqb_neq; congruence).
    assert ((c =? DQUOTE)%N = false) as -> by (apply N.eqb_neq; congruence).
    simpl. rewrite IH by done. by rewrite <- (assoc_L (++)).
Qed.

Lemma trim_start_id (x : jsstring) :
  (∀ c, head x = Some c → is_space c = false) → trim_start x = x.
Proof.
  destruct x as [|c r]; [done|]. intros Hc. simpl.
  by rewrite (Hc c eq_refl).
Qed.

Lemma trim_id (x : jsstring) : is_tag x → trim x = x.
Proof.
  intros (_ & _ & _ & _ & Hhead & Hlast). unfold trim, trim_end.
  rewrite (trim_start_id x) by done.
  rewrite (trim_start_id (reverse x)).
  - apply reverse_involutive.
  - intros c. rewrite head_reverse. apply Hlast.
Qed.

Lemma trim_space_tag (x : jsstring) : is_tag x → trim (SPACE :: x) = x.
Proof. intros Hx. rewrite <- (trim_id x) at 2 by done. done. Qed.

Lemma join_cons_cons sep (x y : jsstring) (xs : list jsstring) :
  join sep (x :: y :: xs) = x ++ sep ++ join sep (y :: xs).
Proof. done. Qed.

Lemma join_nonempty sep (x : jsstring) (xs : list jsstring) :
  x ≠ [] → join sep (x :: xs) ≠ [].
Proof. destruct x; [done|]. by destruct xs. Qed.

Lemma parse_scan_separator a s esc :
  parse_scan (ParseState a s false esc) (js ", ")
  = ParseState (a ++ [trim s]) [SPACE] false esc.
Proof. done. Qed.

Lemma parse_step_eol a s esc :
  Q.parse_step (ParseState a s false esc) COMMA true
  = ParseState (a ++ [trim s]) [] false esc.
Proof. done. Qed.

Lemma parse_scan_tags (xs : list jsstring) (x : jsstring) a (s0 : jsstring) :
  Forall is_tag (x :: xs) → s0 = [] ∨ s0 = [SPACE] →
  ps_a (Q.parse_step (parse_scan (ParseState a s0 false false)
                                 (join (js ", ") (x :: xs))) COMMA true)
  = a ++ x :: xs.
Proof.
  revert x a s0. induction xs as [|y xs IH]; intros x a s0 Hall Hs0.
  - apply Forall_cons in Hall as [Hx _]. simpl join.
    pose proof Hx as (Hne & Hc & Hq & Hrest).
    rewrite parse_scan_plain, parse_step_eol by done. simpl. do 2 f_equal.
    destruct Hs0 as [-> | ->]; [by apply trim_id|by apply trim_space_tag].
  - apply Forall_cons in Hall as [Hx Hall].
    rewrite join_cons_cons, !parse_scan_app.
    pose proof Hx as (Hne & Hc & Hq & Hrest).
    rewrite parse_scan_plain, parse_scan_separator by done.
    rewrite IH by auto.
    rewrite <- (assoc_L (++)). simpl. do 2 f_equal.
    destruct Hs0 as [-> | ->]; [by apply trim_id|by apply trim_space_tag].
Qed.

(** C8.  Parsing the tags joined with a comma and a space gives the tags
    back: for every array [xs] of strings, each non-empty, without comma,
    double quote and backslash, and without white space at either end,
    [Q.parse_list(xs.join(', '))] is [xs]. *)
Theorem parse_list_join (xs : list jsstring) :
  Forall is_tag xs → Q.parse_list (join (js ", ") xs) = xs.
Proof.
  intros Hall. unfold Q.parse_list. destruct xs as [|x xs]; [done|].
  rewrite bool_decide_false.
  - rewrite parse_loop_scan. by rewrite parse_scan_tags by auto.
  - apply Forall_cons in Hall as [(Hne & _) _].
    intros Hlen. apply nil_length_inv in Hlen.
    by apply (join_nonempty (js ", ") x xs).
Qed.

Lemma parse_list_join_witness :
  Forall is_tag [js "red"; js "dark blue"]
  ∧ Q.parse_list (join (js ", ") [js "red"; js "dark blue"])
    = [js "red"; js "dark blue"].
Proof.
  assert (Hall : Forall is_tag [js "red"; js "dark blue"]).
  { repeat apply Forall_cons_2; [| |apply Forall_nil_2].
    all: repeat split; try compute_done.
    all: intros c [= <-]; reflexivity. }
  split; [exact Hall|]. exact (parse_list_join _ Hall).
Defined.

Lemma parse_list_empty : Q.parse_list [] = [].
Proof. done. Qed.

(** When the scan of the line ends outside quotes, the end of the line
    pushes the last field: the result is not empty. *)
Lemma parse_list_closed_quotes (line : jsstring) :
  line ≠ [] →
  ps_q (parse_scan (ParseState [] [] false false) line) = false →
  ∃ fields last, Q.parse_list line = fields ++ [last].
Proof.
  intros Hne Hq. unfold Q.parse_list.
  rewrite bool_decide_false by (by destruct line).
  rewrite parse_loop_scan.
  destruct (parse_scan _ line) as [a s q esc]. simpl in Hq. subst q.
  rewrite parse_step_eol. by exists a, (trim s).
Qed.

(** When the scan of the line ends inside quotes, the end of the line
    pushes nothing: the field being read is lost. *)
Lemma parse_list_open_quotes (line : jsstring) :
  line ≠ [] →
  ps_q (parse_scan (ParseState [] [] false false) line) = true →
  Q.parse_list line = ps_a (parse_scan (ParseState [] [] false false) line).
Proof.
  intros Hne Hq. unfold Q.parse_list.
  rewrite bool_decide_false by (by destruct line).
  rewrite parse_loop_scan.
  destruct (parse_scan _ line) as [a s q esc]. simpl in Hq. subst q.
  unfold Q.parse_step. by repeat case_match.
Qed.

(** C2.  [Q.parse_list] on a line whose last double quote is not closed:
    the line consisting of a double quote followed by [abc] is not empty,
    yet no field is produced, because at the end of the line the loop is
    still in quoted mode and appends the closing comma to the field
    instead of pushing it.  After [a,] the same happens to the second
    field only. *)
Theorem parse_list_unclosed_quote :
  Q.parse_list (DQUOTE :: js "abc") = []
  ∧ Q.parse_list (js "a," ++ DQUOTE :: js "b") = [js "a"]
  ∧ Q.parse_list (js "abc") = [js "abc"].
Proof. by vm_compute. Qed.

(** ** The global submit delegate *)

Lemma maybeSetupGlobalDelegate_active {page} (w : world page) :
  w_globalDelegateActive (Q._maybeSetupGlobalDelegate w) = true.
Proof.
  unfold Q._maybeSetupGlobalDelegate.
  by destruct (w_globalDelegateActive w) eqn:E.
Qed.

Lemma maybeSetupGlobalDelegate_again {page} (w : world page) :
  w_globalDelegateActive w = true → Q._maybeSetupGlobalDelegate w = w.
Proof. intros E. unfold Q._maybeSetupGlobalDelegate. by rewrite E. Qed.

(** C5.  Calling [Q._maybeSetupGlobalDelegate] once or more has the
    effect of calling it once.  The first call, made while
    [Q._globalDelegateActive] is false, sets it to true and adds one click
    listener to [document.body], and changes nothing else; a call made
    while the flag is true changes nothing. *)
Theorem maybeSetupGlobalDelegate_once {page} (w : world page) (n : nat) :
  let w1 := Q._maybeSetupGlobalDelegate w in
  Nat.iter (S n) Q._maybeSetupGlobalDelegate w = w1
  ∧ (w_globalDelegateActive w = false →
       w1 = World (w_page w) true (w_translations w) (w_flash w)
                  (w_click_listeners w ++ [global_submit_listener])
                  (w_banners w) (w_console w) (w_requests w) (w_timers w)
                  (w_next_timer w) (w_invoked w))
  ∧ (w_globalDelegateActive w = true → w1 = w)
  ∧ Q._maybeSetupGlobalDelegate w1 = w1.
Proof.
  intros w1. repeat split.
  - induction n as [|n IH]; [done|].
    rewrite Nat.iter_succ_r. rewrite Nat.iter_succ_r in IH.
    change (Nat.iter (S n) Q._maybeSetupGlobalDelegate w1 = w1).
    clear IH. induction n as [|n IH]; simpl.
    + apply maybeSetupGlobalDelegate_again, maybeSetupGlobalDelegate_active.
    + simpl in IH. rewrite IH.
      apply maybeSetupGlobalDelegate_again, maybeSetupGlobalDelegate_active.
  - intros E. subst w1. unfold Q._maybeSetupGlobalDelegate. by rewrite E.
  - apply maybeSetupGlobalDelegate_again.
  - apply maybeSetupGlobalDelegate_again, maybeSetupGlobalDelegate_active.
Qed.

(** ** Forms *)

Lemma control_at_default (input : control) :
  at_default input → Q.control_changed input = false.
Proof.
  intros [Hvalue Hchecked]. unfold Q.control_changed.
  destruct (c_disabled input); [done|].
  destruct (bool_decide (c_type input = js "checkbox")) eqn:E1;
    [|destruct (bool_decide (c_type input = js "radio")) eqn:E2]; simpl.
  - apply bool_decide_eq_true in E1.
    rewrite Hchecked by (by left). by destruct (c_defaultChecked input).
  - apply bool_decide_eq_true in E2.
    rewrite Hchecked by (by right). by destruct (c_defaultChecked input).
  - by rewrite bool_decide_true by auto.
Qed.

(** C9.  A form all of whose controls are in their default state is not
    changed for [Q.is_form_changed]; and on every form on which
    [Q.is_form_changed] returns false, [Q._ajaxSubmitForm] returns a
    promise rejected with the error "Form was not changed" and leaves the
    page as it was: no request is issued and no button is touched. *)
Theorem ajaxSubmitForm_unchanged `{Runtime} `{Browser page}
    (f : form) (w : world page) :
  (Forall at_default (form_controls f (w_page w)) →
     Q.is_form_changed f w = false)
  ∧ (Q.is_form_changed f w = false →
     Q._ajaxSubmitForm f w
     = (Ok (Rejected (Error (js "Form was not changed"))), w)).
Proof.
  split.
  - intros Hall. unfold Q.is_form_changed.
    induction Hall as [|input inputs Hinput _ IH]; [done|].
    simpl. by rewrite control_at_default.
  - intros Hsame. unfold Q._ajaxSubmitForm. by rewrite Hsame.
Qed.

Lemma ajaxSubmitForm_unchanged_witness :
  Q._ajaxSubmitForm 0 (sample_world true flash_dispatch)
  = (Ok (Rejected (Error (js "Form was not changed"))),
     sample_world true flash_dispatch).
Proof.
  apply (ajaxSubmitForm_unchanged 0 (sample_world true flash_dispatch)).
  apply (ajaxSubmitForm_unchanged 0 (sample_world true flash_dispatch)).
  repeat constructor; simpl; try done.
Defined.

(** ** Requests and their failures *)

Ltac open_actions :=
  unfold Q.component_loaded, Q.component_failed, Q.submission_failed,
    Q.check_target, Q.trap_form, Q.T_format, Q.ajax, bind, ret, throw, effect,
    then_, catch_, finally_ in *.

Ltac split_quiet :=
  unfold quiet, Q.flash, Q._maybeSetupGlobalDelegate in *;
  repeat case_match; simplify_eq; simpl in *; try done;
  repeat match goal with H : _ = flash_default |- _ => rewrite H in * end;
  repeat split; try done; try congruence.

Lemma quiet_refl {page} (w : world page) : quiet w w.
Proof. by repeat split. Qed.

Lemma quiet_trans {page} (w1 w2 w3 : world page) :
  quiet w1 w2 → quiet w2 w3 → quiet w1 w3.
Proof.
  intros (? & ? & ? & Hf & ? & Hb) (? & ? & ? & ? & ? & Hb').
  repeat split; try congruence.
  intros E. rewrite Hb', Hb; [done..|congruence].
Qed.

Lemma flash_quiet {page} (d : flash_details) (w : world page) :
  quiet w (Q.flash d w).
Proof. unfold quiet, Q.flash. by destruct (w_flash w) eqn:E. Qed.

Lemma check_target_quiet `{Runtime} `{Browser page}
    (url target : jsstring) (w w' : world page) r :
  Q.check_target url target w = (r, w') → quiet w w'.
Proof.
  open_actions. destruct target; intros Hrun.
  - destruct (T.format _ _ _); simplify_eq;
      [apply flash_quiet|apply quiet_refl].
  - simplify_eq. apply quiet_refl.
Qed.

Lemma component_loaded_quiet `{Runtime} `{Browser page}
    (url target : jsstring) (res : response * jsstring) (w w' : world page) r :
  Q.component_loaded url target res w = (r, w') → quiet w w'.
Proof.
  open_actions. intros Hrun. split_quiet.
Qed.

Lemma ajax_request `{Runtime} `{Browser page} (method url : jsstring)
    (data : option payload) (w w' : world page) p :
  Q.ajax method url data None w = (Ok p, w') →
  w_requests w'
  = w_requests w
    ++ [Request method url
          match data with
          | Some (JsonObject _) =>
              Some {[ js "Content-type" := js "application/json" ]}
          | _ => None
          end data]
  ∧ same_timers w w' ∧ w_flash w' = w_flash w
  ∧ w_translations w' = w_translations w ∧ w_banners w' = w_banners w.
Proof.
  open_actions. intros Hrun.
  destruct (fetch _ _) as [r q]. unfold same_timers.
  by repeat case_match; simplify_eq.
Qed.






(** ** Timers *)

Lemma component_failed_quiet `{Runtime} `{Browser page}
    (err : error) (w w' : world page) r :
  Q.component_failed err w = (r, w') → quiet w w'.
Proof. open_actions. intros Hrun. split_quiet. Qed.

Lemma submission_failed_quiet `{Runtime} `{Browser page}
    (err : error) (w w' : world page) r :
  Q.submission_failed err w = (r, w') → quiet w w'.
Proof. open_actions. intros Hrun. split_quiet. Qed.

Lemma quiet_same_timers {page} (w w' : world page) :
  quiet w w' → same_timers w w'.
Proof. by intros (_ & ? & ? & _). Qed.

Lemma same_timers_trans {page} (w1 w2 w3 : world page) :
  same_timers w1 w2 → same_timers w2 w3 → same_timers w1 w3.
Proof. intros [? ?] [? ?]. split; congruence. Qed.

Lemma ajax_once `{Runtime} `{Browser page} (method url : jsstring)
    (data : option payload) (headers : option (gmap jsstring jsstring))
    (w w' : world page) r :
  Q.ajax method url data headers w = (r, w') →
  same_timers w w'
  ∧ match r with
    | Ok _ => ∃ req, w_requests w' = w_requests w ++ [req]
                     ∧ req_method req = method ∧ req_url req = url
                     ∧ req_body req = data
    | Throw _ => w' = w
    end.
Proof.
  open_actions. intros Hrun. unfold same_timers.
  repeat case_match; simplify_eq; simpl; (split; [done|]); try done.
  all: by eexists.
Qed.

Lemma load_and_trap_once `{Runtime} `{Browser page}
    (method url : jsstring) (form_data : option (list (jsstring * jsstring)))
    (target : jsstring) (w w' : world page) r :
  Q.load_and_trap method url form_data target w = (r, w') →
  same_timers w w' ∧ length (w_requests w') ≤ S (length (w_requests w)).
Proof.
  unfold Q.load_and_trap, bind. intros Hrun.
  destruct (Q.check_target url target w) as [r0 w0] eqn:E0.
  pose proof (check_target_quiet _ _ _ _ _ E0) as Q0.
  destruct r0; [|simplify_eq; split; [by apply quiet_same_timers|
                   destruct Q0 as [-> _]; lia]].
  destruct (Q.ajax _ url _ None w0) as [r1 w1] eqn:E1.
  pose proof (ajax_once _ _ _ _ _ _ _ E1) as [T1 R1].
  destruct r1 as [response|]; [|simplify_eq; split;
    [by eapply same_timers_trans; [apply quiet_same_timers|]|
     destruct Q0 as [-> _]; lia]].
  destruct R1 as (req & R1 & _).
  destruct (then_ response _ w1) as [loaded w2] eqn:E2.
  assert (Q2 : quiet w1 w2).
  { unfold then_ in E2. destruct response as [res|]; [|simplify_eq; apply quiet_refl].
    destruct (Q.component_loaded url target res w1) as [r2 w2'] eqn:E.
    apply component_loaded_quiet in E. by destruct r2; simplify_eq. }
  destruct (catch_ loaded _ w2) as [settled w3] eqn:E3.
  assert (Q3 : quiet w2 w3).
  { unfold catch_ in E3. destruct loaded; [simplify_eq; apply quiet_refl|].
    destruct (Q.component_failed reason w2) as [r3 w3'] eqn:E.
    apply component_failed_quiet in E. by destruct r3; simplify_eq. }
  simplify_eq. split.
  - eapply same_timers_trans; [by apply quiet_same_timers|].
    eapply same_timers_trans; [done|].
    eapply same_timers_trans; by apply quiet_same_timers.
  - destruct Q0 as [R0 _], Q2 as [R2 _], Q3 as [R3 _].
    rewrite R3, R2, R1, R0, length_app. simpl. lia.
Qed.

Lemma ajaxSubmitForm_once `{Runtime} `{Browser page}
    (f : form) (w w' : world page) r :
  Q._ajaxSubmitForm f w = (r, w') →
  same_timers w w' ∧ length (w_requests w') ≤ S (length (w_requests w)).
Proof.
  unfold Q._ajaxSubmitForm. intros Hrun.
  destruct (negb (Q.is_form_changed f w)); [simplify_eq; split; [done|lia]|].
  destruct (Q.load_and_trap _ _ _ _ _) as [r1 w1] eqn:E1.
  apply load_and_trap_once in E1 as [T1 R1]. simpl in T1, R1.
  destruct r1 as [loaded|]; [|by simplify_eq].
  destruct (catch_ loaded _ w1) as [caught w2] eqn:E2.
  assert (Q2 : quiet w1 w2).
  { unfold catch_ in E2. destruct loaded; [simplify_eq; apply quiet_refl|].
    destruct (Q.submission_failed reason w1) as [r2 w2'] eqn:E.
    apply submission_failed_quiet in E. by destruct r2; simplify_eq. }
  unfold finally_, effect in Hrun. simplify_eq. simpl.
  destruct Q2 as (R2 & T2 & N2 & _). unfold same_timers in *. simpl.
  rewrite R2, T2, N2. done.
Qed.

(** C7.  A call of [Q.ajax] that returns a promise has called [fetch]
    exactly once, with the method, the address and the data of the call;
    [Q.ajax], [Q.load_and_trap] and [Q._ajaxSubmitForm] set and clear no
    timer, and the latter two issue at most one request.  The functions
    returned by [Q.debounce] and [Q.throttle] do schedule and cancel
    deferred calls: a call of the debounced function clears the timer it
    has pending and sets a new one for the callback, and a call of the
    throttled function outside the delay runs the callback and sets a
    timer. *)
Theorem ajax_fetches_once `{Runtime} `{Browser page} :
  (∀ method url data headers (w w' : world page) p,
     Q.ajax method url data headers w = (Ok p, w') →
     same_timers w w'
     ∧ ∃ req, w_requests w' = w_requests w ++ [req]
              ∧ req_method req = method ∧ req_url req = url
              ∧ req_body req = data)
  ∧ (∀ method url form_data target (w w' : world page) r,
       Q.load_and_trap method url form_data target w = (r, w') →
       same_timers w w' ∧ length (w_requests w') ≤ S (length (w_requests w)))
  ∧ (∀ f (w w' : world page) r,
       Q._ajaxSubmitForm f w = (r, w') →
       same_timers w w' ∧ length (w_requests w') ≤ S (length (w_requests w)))
  ∧ (∀ d args (w : world page),
       let id := S (w_next_timer w) in
       Q.executedFunction d args w
       = (Debounced (d_wait d) (Some id),
          with_timers (λ timers, <[id := (debounce_later args, d_wait d)]>
                                   match d_timeout d with
                                   | Some pending => delete pending timers
                                   | None => timers
                                   end) id w))
  ∧ (∀ t event (w : world page),
       t_throttleTimeout t = None →
       let id := S (w_next_timer w) in
       Q.throttledEventHandler t event w
       = (Throttled (t_delay t) (Some id) None,
          with_timers (insert id (throttle_release, t_delay t)) id
                      (invoke event w))).
Proof.
  split; [|split; [|split; [|split]]].
  - intros method url data headers w w' p Hrun.
    by apply ajax_once in Hrun.
  - intros method url form_data target w w' r Hrun.
    by apply load_and_trap_once in Hrun.
  - intros f w w' r Hrun. by apply ajaxSubmitForm_once in Hrun.
  - intros d args w. unfold Q.executedFunction, setTimeout, clearTimeout.
    by destruct (d_timeout d).
  - intros t event w Hnone. unfold Q.throttledEventHandler. by rewrite Hnone.
Qed.

Lemma ajax_fetches_once_witness :
  ∃ req, w_requests
           (Q.ajax (js "GET") (js "/component") None None
                   (sample_world true flash_dispatch)).2
         = [req]
         ∧ req_method req = js "GET" ∧ req_url req = js "/component"
         ∧ req_body req = None.
Proof.
  destruct ajax_fetches_once as [Hajax _].
  destruct (Hajax (js "GET") (js "/component") None None
              (sample_world true flash_dispatch) _ _ eq_refl)
    as [_ Hreq].
  exact Hreq.
Defined.

(** The function returned by [Q.debounce] sets a timer at its first call;
    its second call cancels that timer and sets another one. *)
Lemma debounce_schedules_and_cancels :
  let w0 := sample_world true flash_default in
  let call1 := Q.executedFunction (Q.debounce 300) (js "a") w0 in
  let call2 := Q.executedFunction call1.1 (js "b") call1.2 in
  w_timers w0 = ∅
  ∧ w_timers call1.2 = {[ 1 := (debounce_later (js "a"), 300) ]}
  ∧ w_timers call2.2 = {[ 2 := (debounce_later (js "b"), 300) ]}.
Proof. by vm_compute. Qed.

(** ** Binary64 arithmetic: rounding does not cross a power of two *)

Section Floats.
Local Open Scope Z_scope.

Lemma iter_pos_nat {A} (f : A → A) (p : positive) (x : A) :
  SpecFloat.iter_pos f p x = Nat.iter (Pos.to_nat p) f x.
Proof.
  revert x. induction p as [p IH|p IH|]; intros x; cbn [SpecFloat.iter_pos].
  - rewrite !IH, Pos2Nat.inj_xI. cbn [Nat.mul].
    rewrite Nat.add_0_r, Nat.iter_succ_r, Nat.iter_add. done.
  - rewrite !IH, Pos2Nat.inj_xO. cbn [Nat.mul].
    by rewrite Nat.add_0_r, Nat.iter_add.
  - done.
Qed.

Lemma shr_1_m (mrs : shr_record) :
  0 ≤ shr_m mrs → shr_m (shr_1 mrs) = shr_m mrs / 2 ∧ 0 ≤ shr_m (shr_1 mrs).
Proof.
  destruct mrs as [m r s]. simpl. intros Hm.
  destruct m as [|p|p]; [done| |lia].
  destruct p as [p|p|]; simpl.
  - split; [|lia]. rewrite (Pos2Z.inj_xI p).
    apply (Z.div_unique _ 2 _ 1); lia.
  - split; [|lia]. rewrite (Pos2Z.inj_xO p).
    apply (Z.div_unique _ 2 _ 0); lia.
  - done.
Qed.

(** After [k] shifts of a record that starts exact, the bits shifted out
    are split into the round bit and the sticky bit. *)
Lemma shr_iter_exact (m : Z) (k : nat) :
  0 ≤ m →
  let mrs := Nat.iter k shr_1 (Build_shr_record m false false) in
  0 ≤ shr_m mrs
  ∧ ∃ low, 2 * m = shr_m mrs * 2 ^ (Z.of_nat k + 1)
                   + (if shr_r mrs then 2 ^ Z.of_nat k else 0) + low
           ∧ 0 ≤ low < 2 ^ Z.of_nat k
           ∧ (shr_s mrs = false ↔ low = 0).
Proof.
  intros Hm. induction k as [|k IH].
  - simpl. split; [done|]. exists 0. repeat split; lia.
  - rewrite Nat.iter_succ. cbv zeta in *.
    destruct IH as (Hpos & low & Heq & Hlow & Hs).
    destruct (Nat.iter k shr_1 _) as [m' r s]. simpl in *.
    assert (Hk : 2 ^ (Z.of_nat (S k)) = 2 * 2 ^ Z.of_nat k)
      by (rewrite Nat2Z.inj_succ, Z.pow_succ_r; lia).
    assert (Hk1 : 2 ^ (Z.of_nat k + 1) = 2 * 2 ^ Z.of_nat k)
      by (rewrite Z.pow_add_r; lia).
    assert (Hk2 : 2 ^ (Z.of_nat (S k) + 1) = 4 * 2 ^ Z.of_nat k)
      by (rewrite Z.pow_add_r, Hk; lia).
    assert (0 < 2 ^ Z.of_nat k) by (apply Z.pow_pos_nonneg; lia).
    rewrite Hk, Hk2. rewrite Hk1 in Heq.
    assert (Hiff : orb r s = false ↔ (if r then 2 ^ Z.of_nat k else 0) + low = 0).
    { destruct r, s; simpl; split; intros Hx; try done; try lia;
        try (by apply Hs).
      all: assert (true = false) by (apply Hs; lia); done. }
    destruct m' as [|p|p]; [| |lia].
    + simpl. split; [done|]. exists ((if r then 2 ^ Z.of_nat k else 0) + low).
      split; [destruct r; nia|]. split; [destruct r; lia|done].
    + destruct p as [p|p|]; simpl; (split; [lia|]);
        exists ((if r then 2 ^ Z.of_nat k else 0) + low).
      * rewrite (Pos2Z.inj_xI p) in Heq.
        split; [destruct r; nia|]. split; [destruct r; lia|done].
      * rewrite (Pos2Z.inj_xO p) in Heq.
        split; [destruct r; nia|]. split; [destruct r; lia|done].
      * split; [destruct r; nia|]. split; [destruct r; lia|done].
Qed.

Lemma shr_iter_m (k : nat) (mrs : shr_record) :
  0 ≤ shr_m mrs →
  shr_m (Nat.iter k shr_1 mrs) = shr_m mrs / 2 ^ Z.of_nat k
  ∧ 0 ≤ shr_m (Nat.iter k shr_1 mrs).
Proof.
  intros Hm. induction k as [|k [IH1 IH2]].
  - simpl. by rewrite Z.div_1_r.
  - rewrite Nat.iter_succ. destruct (shr_1_m _ IH2) as [-> Hpos].
    split; [|done]. rewrite IH1, Z.div_div by lia.
    by rewrite Nat2Z.inj_succ, Z.pow_succ_r, (Z.mul_comm 2) by lia.
Qed.

Lemma pow2_pos (a : Z) : 0 ≤ a → 0 < 2 ^ a.
Proof. intros. apply Z.pow_pos_nonneg; lia. Qed.

Lemma pow2_add (a b : Z) : 0 ≤ a → 0 ≤ b → 2 ^ (a + b) = 2 ^ a * 2 ^ b.
Proof. intros. by apply Z.pow_add_r. Qed.

Lemma pow2_le (a b : Z) : 0 ≤ a → 0 ≤ b → 2 ^ a ≤ 2 ^ b → a ≤ b.
Proof. intros ? ?. apply Z.pow_le_mono_r_iff; lia. Qed.

Lemma pow2_lt (a b : Z) : 0 ≤ a → 0 ≤ b → 2 ^ a < 2 ^ b → a < b.
Proof. intros ? ?. apply Z.pow_lt_mono_r_iff; lia. Qed.

Lemma pow2_mono (a b : Z) : 0 ≤ a ≤ b → 2 ^ a ≤ 2 ^ b.
Proof. intros. apply Z.pow_le_mono_r; lia. Qed.

(** The result of [shr]: the mantissa is divided, and when the shift
    starts from an exact record the location tells what was lost. *)
Lemma shr_spec (mrs : shr_record) (e n : Z) :
  0 ≤ shr_m mrs →
  let k := Z.max 0 n in
  (shr mrs e n).2 = e + k
  ∧ shr_m (shr mrs e n).1 = shr_m mrs / 2 ^ k
  ∧ 0 ≤ shr_m (shr mrs e n).1
  ∧ (k = 0 → (shr mrs e n).1 = mrs)
  ∧ (shr_r mrs = false → shr_s mrs = false →
     (shr_m mrs mod 2 ^ k = 0 → loc_of_shr_record (shr mrs e n).1 = loc_Exact)
     ∧ (2 * (shr_m mrs mod 2 ^ k) < 2 ^ k → shr_r (shr mrs e n).1 = false)).
Proof.
  intros Hm k. destruct n as [|p|p]; simpl in k; subst k.
  - simpl. rewrite Z.div_1_r, Z.add_0_r. repeat split; try done.
    all: intros _; destruct mrs as [m [] []]; simpl in *; done.
  - unfold shr. cbn [fst snd]. rewrite iter_pos_nat.
    destruct (shr_iter_m (Pos.to_nat p) mrs Hm) as [Hdiv Hpos].
    rewrite positive_nat_Z in Hdiv.
    split; [by rewrite Z.max_r by lia|]. rewrite Z.max_r by lia.
    split; [done|]. split; [done|]. split; [lia|].
    intros Hr Hs. destruct mrs as [m r s]. simpl in *. subst r s.
    destruct (shr_iter_exact m (Pos.to_nat p) Hm) as (_ & low & Heq & Hlow & Hsticky).
    rewrite positive_nat_Z in *.
    set (mrs' := Nat.iter (Pos.to_nat p) shr_1 _) in *.
    assert (HN : 0 < 2 ^ Z.pos p) by (apply pow2_pos; lia).
    assert (Hmod : 2 * (m mod 2 ^ Z.pos p)
                   = (if shr_r mrs' then 2 ^ Z.pos p else 0) + low).
    { rewrite <- Z.mul_mod_distr_l by lia.
      rewrite pow2_add in Heq by lia. change (2 ^ 1) with 2 in Heq.
      symmetry. apply Z.mod_unique_pos with (shr_m mrs').
      - destruct (shr_r mrs'); lia.
      - lia. }
    split.
    + intros Hzero. rewrite Hzero in Hmod.
      destruct mrs' as [m' r' s']. simpl in *.
      destruct r'; [lia|]. assert (s' = false) by (apply Hsticky; lia).
      by subst s'.
    + intros Hsmall. destruct (shr_r mrs'); [lia|done].
  - simpl. rewrite Z.div_1_r, Z.add_0_r. repeat split; try done.
    all: intros _; destruct mrs as [m [] []]; simpl in *; done.
Qed.

Lemma digits2_pos_log2 (p : positive) :
  Z.pos (digits2_pos p) = Z.log2 (Z.pos p) + 1.
Proof.
  induction p as [p IH|p IH|]; cbn [digits2_pos]; rewrite ?Pos2Z.inj_succ, ?IH.
  - rewrite (Pos2Z.inj_xI p), Z.log2_succ_double; lia.
  - rewrite (Pos2Z.inj_xO p), Z.log2_double; lia.
  - done.
Qed.

Lemma digits2_pos_bounds (p : positive) :
  2 ^ (Z.pos (digits2_pos p) - 1) ≤ Z.pos p < 2 ^ Z.pos (digits2_pos p).
Proof.
  rewrite digits2_pos_log2.
  replace (Z.log2 (Z.pos p) + 1 - 1) with (Z.log2 (Z.pos p)) by lia.
  replace (Z.log2 (Z.pos p) + 1) with (Z.succ (Z.log2 (Z.pos p))) by lia.
  apply Z.log2_spec. lia.
Qed.

Lemma Zdigits2_nonneg (m : Z) : 0 ≤ Zdigits2 m.
Proof. destruct m; simpl; lia. Qed.

Lemma Zdigits2_bounds (m : Z) :
  0 < m → 2 ^ (Zdigits2 m - 1) ≤ m < 2 ^ Zdigits2 m.
Proof. destruct m as [|p|p]; try lia. intros _. apply digits2_pos_bounds. Qed.

Lemma Zdigits2_le (m k : Z) : 0 ≤ k → 0 ≤ m < 2 ^ k → Zdigits2 m ≤ k.
Proof.
  intros Hk [Hm Hlt]. destruct m as [|p|p]; [done| |lia]. simpl.
  pose proof (digits2_pos_bounds p) as [Hlow _].
  assert (Z.pos (digits2_pos p) - 1 < k); [|lia].
  apply pow2_lt; lia.
Qed.

Lemma fexp_eq (x : Z) : fexp prec emax x = Z.max (x - 53) (-1074).
Proof. done. Qed.

Lemma loc_of_shr_record_of_loc (m : Z) (l : location) :
  loc_of_shr_record (shr_record_of_loc m l) = l.
Proof. by destruct l as [|[]]. Qed.

Lemma shr_m_of_loc (m : Z) (l : location) : shr_m (shr_record_of_loc m l) = m.
Proof. by destruct l as [|[]]. Qed.

Lemma round_nearest_even_bounds (m : Z) (l : location) :
  m ≤ round_nearest_even m l ≤ m + 1
  ∧ (l = loc_Exact ∨ l = loc_Inexact Lt → round_nearest_even m l = m).
Proof.
  destruct l as [|[]]; simpl; try (split; [lia|]); try (intros [?|?]; done).
  destruct (Z.even m); split; try lia; intros [?|?]; done.
Qed.

Lemma loc_no_round_bit (mrs : shr_record) :
  shr_r mrs = false →
  loc_of_shr_record mrs = loc_Exact ∨ loc_of_shr_record mrs = loc_Inexact Lt.
Proof. destruct mrs as [m [] []]; simpl; auto; done. Qed.

(** The first step of rounding: the mantissa keeps at most [prec]
    digits and the exponent is at least [emin]. *)
Lemma shr_fexp_spec (m e : Z) (l : location) :
  0 ≤ m →
  let n := Z.max 0 (fexp prec emax (Zdigits2 m + e) - e) in
  let res := shr_fexp prec emax m e l in
  res.2 = e + n
  ∧ shr_m res.1 = m / 2 ^ n
  ∧ 0 ≤ shr_m res.1
  ∧ Zdigits2 (shr_m res.1) ≤ 53
  ∧ -1074 ≤ res.2
  ∧ (n = 0 → loc_of_shr_record res.1 = l)
  ∧ (l = loc_Exact →
     (m mod 2 ^ n = 0 → loc_of_shr_record res.1 = loc_Exact)
     ∧ (2 * (m mod 2 ^ n) < 2 ^ n → shr_r res.1 = false)).
Proof.
  intros Hm n res. subst res. unfold shr_fexp.
  pose proof (shr_spec (shr_record_of_loc m l) e
                (fexp prec emax (Zdigits2 m + e) - e)) as Hshr.
  rewrite shr_m_of_loc in Hshr. specialize (Hshr Hm). fold n in Hshr.
  destruct Hshr as (He & Hdiv & Hpos & Hsame & Hexact).
  rewrite fexp_eq in *.
  assert (Hndef : n = Z.max 0 (Z.max (Zdigits2 m + e - 53) (-1074) - e)) by done.
  clearbody n.
  split; [done|]. split; [done|]. split; [done|].
  pose proof (Zdigits2_nonneg m) as Hd.
  assert (Hn : 0 ≤ n) by (clear -Hndef; lia).
  pose proof (pow2_pos n Hn) as HN.
  split; [|split; [rewrite He; clear -Hndef; lia|split]].
  - rewrite Hdiv. apply Zdigits2_le; [lia|]. split; [by apply Z.div_pos|].
    destruct (decide (m = 0)) as [->|Hne]; [by rewrite Z.div_0_l by lia|].
    pose proof (Zdigits2_bounds m) as [_ Hup]; [lia|].
    apply Z.div_lt_upper_bound; [done|].
    destruct (decide (n ≤ Zdigits2 m)) as [Hle|Hgt].
    + assert (Zdigits2 m ≤ n + 53) by lia.
      eapply Z.lt_le_trans; [exact Hup|].
      rewrite <- pow2_add by lia. apply pow2_mono. lia.
    + eapply Z.lt_le_trans; [exact Hup|].
      transitivity (2 ^ n * 1); [rewrite Z.mul_1_r; apply pow2_mono; lia|].
      apply Z.mul_le_mono_nonneg_l; [lia|]. pose proof (pow2_pos 53). lia.
  - intros Hn0. rewrite Hsame by done. apply loc_of_shr_record_of_loc.
  - intros ->. by apply Hexact.
Qed.

(** Rounding to nearest does not cross a power of two: a value that is at
    most [2^B], or above [2^B] by less than half a unit in the last place,
    is rounded to a Number that is at most [2^B]. *)
Lemma round_step_within (m e : Z) (l : location) (B : Z) :
  0 ≤ m → -1074 ≤ e →
  (m * 2 ^ (e + 1074) ≤ 2 ^ (B + 1074)
   ∧ (l ≠ loc_Exact → (m + 1) * 2 ^ (e + 1074) ≤ 2 ^ (B + 1074)))
  ∨ (l = loc_Exact ∧ -1021 ≤ B ∧ e ≤ B - 54
     ∧ 2 ^ (B + 1074) < m * 2 ^ (e + 1074) < 2 ^ (B + 1074) + 2 ^ (B + 1021)) →
  let res := shr_fexp prec emax m e l in
  let mr := round_nearest_even (shr_m res.1) (loc_of_shr_record res.1) in
  0 ≤ mr ∧ -1074 ≤ res.2 ∧ mr * 2 ^ (res.2 + 1074) ≤ 2 ^ (B + 1074).
Proof.
  intros Hm He Hcases res mr.
  pose proof (shr_fexp_spec m e l Hm) as (He1 & Hm1 & Hpos1 & _ & HE1 & Hsame1 & Hex1).
  fold res in He1, Hm1, Hpos1, HE1, Hsame1, Hex1.
  pose proof (round_nearest_even_bounds (shr_m res.1) (loc_of_shr_record res.1))
    as [Hmr Hmr_id]. fold mr in Hmr, Hmr_id.
  split; [lia|]. split; [done|].
  rewrite fexp_eq in *.
  set (d := Zdigits2 m) in *.
  set (n := Z.max 0 (Z.max (d + e - 53) (-1074) - e)) in *.
  assert (Hndef : n = Z.max 0 (Z.max (d + e - 53) (-1074) - e)) by done.
  assert (Hddef : d = Zdigits2 m) by done.
  clearbody n d. rewrite He1.
  assert (Hn : 0 ≤ n) by (clear -Hndef; lia).
  set (a := e + 1074) in *. assert (Ha : 0 ≤ a) by (subst a; lia).
  assert (HX : 0 < 2 ^ a) by (by apply pow2_pos).
  assert (HN : 0 < 2 ^ n) by (by apply pow2_pos).
  replace (e + n + 1074) with (a + n) by (subst a; lia).
  rewrite pow2_add by done.
  pose proof (Z.div_mod m (2 ^ n) ltac:(lia)) as Hdm.
  pose proof (Z.mod_pos_bound m (2 ^ n) HN) as Hrho.
  assert (Hl : l = loc_Exact ∨ l ≠ loc_Exact)
    by (destruct l; [by left|by right]).
  rewrite <- Hm1 in Hdm.
  set (m1 := shr_m res.1) in *. set (rho := m mod 2 ^ n) in *.
  set (X := 2 ^ a) in *. set (N := 2 ^ n) in *.
  destruct Hcases as [[H1 H2]|(-> & HB & HeB & Hlow & Hhigh)].
  - (* at most [2^B] *)
    destruct (decide (n = 0)) as [Hn0|Hn0].
    + assert (N = 1) by (subst N; by rewrite Hn0).
      assert (m1 = m) by nia.
      destruct Hl as [Hl|Hl].
      * rewrite Hmr_id; [nia|]. left. rewrite Hsame1; done.
      * specialize (H2 Hl). nia.
    + assert (Hmpos : 0 < m).
      { destruct (decide (m = 0)) as [->|]; [|lia].
        simpl in Hddef. clear -Hndef Hddef Hn0 He. lia. }
      pose proof (Zdigits2_bounds m Hmpos) as [Hdlow _]. rewrite <- Hddef in Hdlow.
      assert (Hd1 : 1 ≤ d)
        by (rewrite Hddef; destruct m; try lia; simpl; lia).
      assert (Hab : a + n ≤ B + 1074).
      { assert (d - 1 + a ≤ B + 1074).
        { assert (0 ≤ B + 1074).
          { destruct (decide (0 ≤ B + 1074)); [done|].
            rewrite (Z.pow_neg_r 2 (B + 1074)) in H1 by lia. nia. }
          apply pow2_le; [lia|lia|].
          rewrite pow2_add by lia. fold X.
          assert (0 < 2 ^ (d - 1)) by (apply pow2_pos; lia). nia. }
        subst a. clear -Hndef Hn0 H He. lia. }
      set (Z0 := 2 ^ (B + 1074 - (a + n))).
      assert (HY : 2 ^ (B + 1074) = Z0 * (X * N)).
      { subst Z0 X N. rewrite <- !pow2_add by lia. f_equal. lia. }
      assert (HZ0 : 0 < Z0) by (apply pow2_pos; lia).
      rewrite HY in *.
      assert (HXN : 0 < X * N) by nia.
      assert (Hm1Z : m1 ≤ Z0).
      { apply (Z.mul_le_mono_pos_r _ _ (X * N)); [done|]. nia. }
      destruct (decide (m1 < Z0)) as [Hlt|Hge].
      { apply Z.mul_le_mono_nonneg_r; lia. }
      assert (m1 = Z0) by lia. subst m1.
      assert (rho = 0).
      { assert (rho * X ≤ 0) by nia. nia. }
      assert (Hl' : l = loc_Exact).
      { destruct Hl as [Hl|Hl]; [done|]. specialize (H2 Hl). nia. }
      destruct (Hex1 Hl') as [Hexact _].
      rewrite Hmr_id; [nia|]. left. by apply Hexact.
  - (* above [2^B] by less than half a unit in the last place *)
    assert (Hb : 0 ≤ B + 1074) by lia.
    assert (HY0 : 0 < 2 ^ (B + 1074)) by (by apply pow2_pos).
    assert (Hmpos : 0 < m) by nia.
    pose proof (Zdigits2_bounds m Hmpos) as [Hdlow Hdup].
    rewrite <- Hddef in Hdlow, Hdup.
    assert (Hd1 : 1 ≤ d)
      by (rewrite Hddef; destruct m; try lia; simpl; lia).
    assert (HYX : 2 ^ (B + 1074) = 2 ^ (B + 1074 - a) * X).
    { subst X. rewrite <- pow2_add by (subst a; lia). f_equal. lia. }
    assert (HWX : 2 ^ (B + 1021) = 2 ^ (B + 1021 - a) * X).
    { subst X. rewrite <- pow2_add by (subst a; lia). f_equal. lia. }
    assert (Hdouble : 2 ^ (B + 1074 - a + 1) = 2 * 2 ^ (B + 1074 - a)).
    { rewrite pow2_add by (subst a; lia). change (2 ^ 1) with 2. lia. }
    assert (HWY : 2 ^ (B + 1021 - a) ≤ 2 ^ (B + 1074 - a))
      by (apply pow2_mono; subst a; lia).
    assert (0 < 2 ^ (B + 1021 - a)) by (apply pow2_pos; subst a; lia).
    assert (Hd : d = B + 1074 - a + 1).
    { assert (d - 1 < B + 1074 - a + 1).
      { apply pow2_lt; [lia|subst a; lia|]. rewrite Hdouble.
        eapply Z.le_lt_trans; [exact Hdlow|]. nia. }
      assert (B + 1074 - a < d); [|lia].
      apply pow2_lt; [subst a; lia|lia|].
      eapply Z.lt_trans; [|exact Hdup]. nia. }
    assert (Hnval : n = B + 1074 - a - 52).
    { subst a. clear -Hndef Hd HB HeB He. lia. }
    assert (HYN : 2 ^ (B + 1074 - a) = 2 ^ 52 * N).
    { subst N. rewrite <- pow2_add by lia. f_equal. lia. }
    assert (HWN : 2 * 2 ^ (B + 1021 - a) = N).
    { subst N. replace n with (1 + (B + 1021 - a)) by lia.
      rewrite pow2_add by (subst a; lia). done. }
    rewrite HYX, HWX, HYN in *.
    assert (Hm1v : m1 = 2 ^ 52) by nia.
    assert (Hrho2 : 2 * rho < N) by nia.
    destruct (Hex1 eq_refl) as [_ Hround].
    rewrite Hmr_id; [nia|]. apply loc_no_round_bit. by apply Hround.
Qed.

Lemma binary_round_aux_within (s : bool) (m e : Z) (l : location) (B : Z) :
  0 ≤ m → -1074 ≤ e → B ≤ 971 →
  (m * 2 ^ (e + 1074) ≤ 2 ^ (B + 1074)
   ∧ (l ≠ loc_Exact → (m + 1) * 2 ^ (e + 1074) ≤ 2 ^ (B + 1074)))
  ∨ (l = loc_Exact ∧ -1021 ≤ B ∧ e ≤ B - 54
     ∧ 2 ^ (B + 1074) < m * 2 ^ (e + 1074) < 2 ^ (B + 1074) + 2 ^ (B + 1021)) →
  within B (binary_round_aux prec emax s m e l)
  ∧ sign (binary_round_aux prec emax s m e l) = s.
Proof.
  intros Hm He HB Hcases.
  pose proof (round_step_within m e l B Hm He Hcases) as (Hmr & He1 & Hval).
  unfold binary_round_aux.
  destruct (shr_fexp prec emax m e l) as [mrs1 e1]. cbn [fst snd] in *.
  set (mr := round_nearest_even (shr_m mrs1) (loc_of_shr_record mrs1)) in *.
  pose proof (shr_fexp_spec mr e1 loc_Exact Hmr)
    as (He2 & Hm2 & Hpos2 & Hd2 & HE2 & _).
  destruct (shr_fexp prec emax mr e1 loc_Exact) as [mrs2 e2]. cbn [fst snd] in *.
  set (n := Z.max 0 (fexp prec emax (Zdigits2 mr + e1) - e1)) in *.
  assert (Hn : 0 ≤ n) by (subst n; lia). clearbody n.
  assert (Hval2 : shr_m mrs2 * 2 ^ (e2 + 1074) ≤ 2 ^ (B + 1074)).
  { rewrite He2, Hm2. replace (e1 + n + 1074) with (n + (e1 + 1074)) by lia.
    rewrite pow2_add by lia.
    pose proof (pow2_pos n Hn). pose proof (pow2_pos (e1 + 1074)).
    pose proof (Z.mul_div_le mr (2 ^ n)). nia. }
  destruct (shr_m mrs2) as [|p|p]; [done| |lia].
  assert (He2B : e2 ≤ B).
  { assert (0 ≤ B + 1074).
    { destruct (decide (0 ≤ B + 1074)); [done|].
      rewrite (Z.pow_neg_r 2 (B + 1074)) in Hval2 by lia.
      pose proof (pow2_pos (e2 + 1074)). nia. }
    assert (e2 + 1074 ≤ B + 1074); [|lia].
    apply pow2_le; [lia|lia|]. pose proof (pow2_pos (e2 + 1074)). nia. }
  replace (e2 <=? emax - prec) with true
    by (symmetry; apply Z.leb_le; unfold emax, prec; lia).
  done.
Qed.

Lemma iter_xO (p q : positive) :
  Z.pos (Pos.iter xO p q) = Z.pos p * 2 ^ Z.pos q.
Proof.
  induction q as [|q IH] using Pos.peano_ind.
  - simpl. lia.
  - rewrite Pos.iter_succ, Pos2Z.inj_succ, Z.pow_succ_r by lia.
    rewrite (Pos2Z.inj_xO (Pos.iter xO p q)), IH. lia.
Qed.

Lemma shl_align_spec (p : positive) (e e' : Z) :
  (shl_align p e e').2 = Z.min e e'
  ∧ Z.pos (shl_align p e e').1 = Z.pos p * 2 ^ (e - Z.min e e').
Proof.
  unfold shl_align. destruct (e' - e) as [|q|q] eqn:Hdiff; cbn [fst snd].
  - rewrite Z.min_l by lia. rewrite Z.sub_diag. split; [done|simpl; lia].
  - rewrite Z.min_l by lia. rewrite Z.sub_diag. split; [done|simpl; lia].
  - rewrite Z.min_r by lia. split; [done|].
    rewrite iter_xO. f_equal. f_equal. lia.
Qed.

Lemma binary_round_within (s : bool) (p : positive) (e B : Z) :
  -1074 ≤ e → B ≤ 971 →
  Z.pos p * 2 ^ (e + 1074) ≤ 2 ^ (B + 1074)
  ∨ (-1021 ≤ B ∧ e ≤ B - 54
     ∧ 2 ^ (B + 1074) < Z.pos p * 2 ^ (e + 1074)
       < 2 ^ (B + 1074) + 2 ^ (B + 1021)) →
  within B (binary_round prec emax s p e)
  ∧ sign (binary_round prec emax s p e) = s.
Proof.
  intros He HB Hcases. unfold binary_round.
  pose proof (shl_align_spec p e (fexp prec emax (Z.pos (digits2_pos p) + e)))
    as [Hez Hmz].
  destruct (shl_align p e _) as [mz ez]. cbn [fst snd] in *.
  rewrite fexp_eq in Hez, Hmz. rewrite <- Hez in Hmz.
  assert (Hez1 : -1074 ≤ ez ≤ e) by lia.
  assert (Hsame : Z.pos mz * 2 ^ (ez + 1074) = Z.pos p * 2 ^ (e + 1074)).
  { rewrite Hmz. rewrite <- Z.mul_assoc, <- pow2_add by lia.
    f_equal. f_equal. lia. }
  apply binary_round_aux_within; [lia|lia|done|]. rewrite Hsame.
  destruct Hcases as [H1|(? & ? & ?)]; [left|right].
  - split; [done|]. by intros [].
  - repeat split; try done; lia.
Qed.

Lemma within_mono (B B' : Z) (x : number) :
  B ≤ B' → within B x → within B' x.
Proof.
  intros HB. destruct x as [| | |s m e]; try done.
  intros (He & Hval & Hd). repeat split; try done.
  destruct (decide (0 ≤ B + 1074)).
  - etrans; [exact Hval|]. apply pow2_mono. lia.
  - rewrite (Z.pow_neg_r 2 (B + 1074)) in Hval by lia.
    pose proof (pow2_pos (e + 1074)). nia.
Qed.

Lemma within_exponent (B : Z) (s : bool) (m : positive) (e : Z) :
  within B (S754_finite s m e) → e ≤ B.
Proof.
  intros (He & Hval & _).
  assert (0 ≤ B + 1074).
  { destruct (decide (0 ≤ B + 1074)); [done|].
    rewrite (Z.pow_neg_r 2 (B + 1074)) in Hval by lia.
    pose proof (pow2_pos (e + 1074)). nia. }
  assert (e + 1074 ≤ B + 1074); [|lia].
  apply pow2_le; [lia|lia|]. pose proof (pow2_pos (e + 1074)). nia.
Qed.

(** Adding a small non-negative Number keeps the sum within [2^B]. *)
Lemma add_within (B C : Z) (x y : number) :
  -1021 ≤ B ≤ 971 → C ≤ B - 54 →
  within B x → within C y → sign y = false → within B (add x y).
Proof.
  intros HB HC Hx Hy Hsign.
  destruct x as [sx| | |sx mx ex], y as [sy| | |sy my ey]; try done.
  - by destruct sx, sy.
  - change (within B (S754_finite sy my ey)). apply (within_mono C); [lia|done].
  - simpl in Hsign. subst sy. unfold add, SFadd.
    pose proof (within_exponent _ _ _ _ Hx) as HexB.
    pose proof (within_exponent _ _ _ _ Hy) as HeyC.
    destruct Hx as (Hex & Hvx & _), Hy as (Hey & Hvy & _).
    set (ez := Z.min ex ey).
    pose proof (shl_align_spec mx ex ez) as [_ Hmx].
    pose proof (shl_align_spec my ey ez) as [_ Hmy].
    rewrite Z.min_r in Hmx, Hmy by (subst ez; lia).
    set (Mx := Z.pos (shl_align mx ex ez).1) in *.
    set (My := Z.pos (shl_align my ey ez).1) in *.
    assert (Hez : -1074 ≤ ez ≤ ey) by (subst ez; lia).
    assert (HVx : Mx * 2 ^ (ez + 1074) = Z.pos mx * 2 ^ (ex + 1074)).
    { rewrite Hmx, <- Z.mul_assoc, <- pow2_add by (subst ez; lia).
      f_equal. f_equal. lia. }
    assert (HVy : My * 2 ^ (ez + 1074) = Z.pos my * 2 ^ (ey + 1074)).
    { rewrite Hmy, <- Z.mul_assoc, <- pow2_add by (subst ez; lia).
      f_equal. f_equal. lia. }
    assert (HCB : 2 ^ (C + 1074) < 2 ^ (B + 1021)).
    { apply Z.pow_lt_mono_r; lia. }
    assert (HX : 0 < 2 ^ (ez + 1074)) by (apply pow2_pos; lia).
    assert (HMx : 0 < Mx) by (subst Mx; lia).
    assert (HMy : 0 < My) by (subst My; lia).
    clearbody Mx My.
    assert (HBW : 2 ^ (B + 1021) ≤ 2 ^ (B + 1074)) by (apply pow2_mono; lia).
    change (cond_Zopp false My) with My.
    destruct (cond_Zopp sx Mx + My) as [|p|p] eqn:HM;
      cbn [binary_normalize]; [done| |].
    + apply binary_round_within; [lia|lia|].
      assert (HV : Z.pos p * 2 ^ (ez + 1074)
                   = cond_Zopp sx (Mx * 2 ^ (ez + 1074)) + My * 2 ^ (ez + 1074))
        by (rewrite <- HM; destruct sx; simpl; lia).
      rewrite HV, HVx, HVy. clear HV HVx HVy Hmx Hmy HM.
      assert (0 < Z.pos mx * 2 ^ (ex + 1074))
        by (pose proof (pow2_pos (ex + 1074)); nia).
      assert (0 < Z.pos my * 2 ^ (ey + 1074))
        by (pose proof (pow2_pos (ey + 1074)); nia).
      destruct sx; simpl; [left; lia|].
      destruct (decide (Z.pos mx * 2 ^ (ex + 1074) + Z.pos my * 2 ^ (ey + 1074)
                        ≤ 2 ^ (B + 1074))); [by left|right].
      repeat split; lia.
    + apply binary_round_within; [lia|lia|].
      assert (HV : Z.pos p * 2 ^ (ez + 1074)
                   = - (cond_Zopp sx (Mx * 2 ^ (ez + 1074))
                        + My * 2 ^ (ez + 1074)))
        by (destruct sx; simpl in *; lia).
      rewrite HV, HVx, HVy. clear HV HVx HVy Hmx Hmy HM.
      assert (0 < Z.pos mx * 2 ^ (ex + 1074))
        by (pose proof (pow2_pos (ex + 1074)); nia).
      assert (0 < Z.pos my * 2 ^ (ey + 1074))
        by (pose proof (pow2_pos (ey + 1074)); nia).
      destruct sx; simpl; left; lia.
Qed.

(** A mantissa of [prec] digits is rounded to itself. *)
Lemma round_canonical (s : bool) (m : positive) (e : Z) :
  Z.pos (digits2_pos m) = 53 → -1074 ≤ e ≤ 971 →
  binary_round_aux prec emax s (Z.pos m) e loc_Exact = S754_finite s m e.
Proof.
  intros Hd He. unfold binary_round_aux, shr_fexp.
  cbn [shr_record_of_loc Zdigits2]. rewrite Hd.
  replace (fexp prec emax (53 + e) - e) with 0 by (rewrite fexp_eq; lia).
  cbn [shr shr_m loc_of_shr_record round_nearest_even Zdigits2 shr_record_of_loc].
  rewrite Hd.
  replace (fexp prec emax (53 + e) - e) with 0 by (rewrite fexp_eq; lia).
  cbn [shr shr_m].
  replace (e <=? emax - prec) with true
    by (symmetry; apply Z.leb_le; unfold emax, prec; lia).
  done.
Qed.

Lemma digits2_pos_unique (m : positive) (k : Z) :
  2 ^ (k - 1) ≤ Z.pos m < 2 ^ k → Z.pos (digits2_pos m) = k.
Proof.
  intros [Hlow Hup]. pose proof (digits2_pos_bounds m) as [Hdlow Hdup].
  assert (1 ≤ k).
  { destruct (decide (1 ≤ k)); [done|].
    destruct (decide (k = 0)) as [->|]; [simpl in Hup; lia|].
    rewrite Z.pow_neg_r in Hup by lia. lia. }
  assert (Z.pos (digits2_pos m) - 1 < k) by (apply pow2_lt; lia).
  assert (k - 1 < Z.pos (digits2_pos m)) by (apply pow2_lt; lia).
  lia.
Qed.

(** Integers below [2^53] are Numbers. *)
Lemma number_of_Z_small (k : Z) :
  0 < k < 2 ^ 53 →
  ∃ m e, number_of_Z k = S754_finite false m e
         ∧ Z.pos (digits2_pos m) = 53 ∧ -52 ≤ e ≤ 0
         ∧ Z.pos m = k * 2 ^ (- e).
Proof.
  intros [Hpos Hlt]. destruct k as [|p|p]; try lia.
  unfold number_of_Z, binary_normalize, binary_round.
  pose proof (shl_align_spec p 0 (fexp prec emax (Z.pos (digits2_pos p) + 0)))
    as [Hez Hmz].
  destruct (shl_align p 0 _) as [mz ez]. cbn [fst snd] in *.
  pose proof (digits2_pos_bounds p) as [Hdlow Hdup].
  assert (Hd : 1 ≤ Z.pos (digits2_pos p) ≤ 53).
  { split; [lia|]. apply (Zdigits2_le (Z.pos p)); lia. }
  rewrite fexp_eq in Hez, Hmz. rewrite <- Hez in Hmz.
  assert (Hezv : ez = Z.pos (digits2_pos p) - 53) by lia.
  replace (0 - ez) with (- ez) in Hmz by lia.
  assert (Hdz : Z.pos (digits2_pos mz) = 53).
  { apply digits2_pos_unique. rewrite Hmz.
    pose proof (pow2_pos (- ez)).
    assert (E1 : 2 ^ (53 - 1) = 2 ^ (Z.pos (digits2_pos p) - 1) * 2 ^ (- ez))
      by (rewrite <- pow2_add by lia; f_equal; lia).
    assert (E2 : 2 ^ 53 = 2 ^ Z.pos (digits2_pos p) * 2 ^ (- ez))
      by (rewrite <- pow2_add by lia; f_equal; lia).
    rewrite E1, E2.
    split; [apply Z.mul_le_mono_nonneg_r; lia|apply Z.mul_lt_mono_pos_r; lia]. }
  exists mz, ez. rewrite round_canonical by (done || lia).
  repeat split; try done; lia.
Qed.

Lemma div_eucl_div_mod (a b : Z) : Z.div_eucl a b = (a / b, a mod b).
Proof. unfold Z.div, Z.modulo. by destruct (Z.div_eucl a b). Qed.

(** [5 / k] for a count [k]: a Number between 0 and 8. *)
Lemma div_count_within (k : Z) :
  0 < k < 2 ^ 53 →
  within 3 (div (number_of_Z 5) (number_of_Z k))
  ∧ sign (div (number_of_Z 5) (number_of_Z k)) = false.
Proof.
  intros Hk. destruct (number_of_Z_small k Hk) as (mk & ek & -> & Hd & Hek & Hmk).
  change (number_of_Z 5) with (S754_finite false 5629499534213120 (-50)).
  unfold div, SFdiv, SFdiv_core_binary.
  change (Zdigits2 (Z.pos 5629499534213120)) with 53.
  cbn [Zdigits2]. rewrite Hd.
  replace (Z.min (fexp prec emax (53 + -50 - (53 + ek))) (-50 - ek))
    with (-103 - ek) by (rewrite fexp_eq; lia).
  replace (-50 - ek - (-103 - ek)) with 53 by lia.
  rewrite div_eucl_div_mod.
  change (Z.shiftl (Z.pos 5629499534213120) 53) with (5 * 2 ^ 103).
  change (xorb false false) with false.
  pose proof (digits2_pos_bounds mk) as [Hmlow _]. rewrite Hd in Hmlow.
  change (2 ^ (53 - 1)) with (2 ^ 52) in Hmlow.
  assert (Hq : 0 ≤ 5 * 2 ^ 103 / Z.pos mk ≤ 5 * 2 ^ 51).
  { split; [apply Z.div_pos; lia|].
    apply Z.div_le_upper_bound; [lia|].
    change (5 * 2 ^ 103) with (2 ^ 52 * (5 * 2 ^ 51)). nia. }
  apply binary_round_aux_within; [lia|lia|lia|]. left.
  assert (HX : 0 < 2 ^ (-103 - ek + 1074) ≤ 2 ^ 1023).
  { split; [apply pow2_pos; lia|apply pow2_mono; lia]. }
  assert ((5 * 2 ^ 103 / Z.pos mk + 1) * 2 ^ (-103 - ek + 1074)
          ≤ 2 ^ 54 * 2 ^ 1023).
  { apply Z.mul_le_mono_nonneg; lia. }
  change (2 ^ (3 + 1074)) with (2 ^ 54 * 2 ^ 1023).
  split; [nia|]. intros _. done.
Qed.

Lemma round_max_integer (B : Z) (x : number) :
  within B x →
  ∃ q, fraction_of x = Some q
       ∧ to_integer (Math.round (Math.max (number_of_Z 0) x))
         = Some (round_max q)
       ∧ 0 ≤ round_max q.
Proof.
  intros Hx. destruct x as [s| | |s m e]; try done.
  - exists (0, 1). by destruct s.
  - destruct Hx as (He & _ & Hd). eexists. split; [done|].
    destruct s.
    { assert (round_max (if 0 <=? e
                         then (cond_Zopp true (Z.pos m) * 2 ^ e, 1)
                         else (cond_Zopp true (Z.pos m), 2 ^ (- e))) = 0)
        as ->; [|done].
      destruct (0 <=? e) eqn:Hsign; unfold round_max; cbn [cond_Zopp].
      - apply Z.leb_le in Hsign. pose proof (pow2_pos e Hsign).
        by rewrite (proj2 (Z.ltb_lt (- Z.pos m * 2 ^ e) 0)) by nia.
      - by rewrite (proj2 (Z.ltb_lt (- Z.pos m) 0)) by lia. }
    change (Math.max (number_of_Z 0) (S754_finite false m e))
      with (S754_finite false m e).
    unfold Math.round, round_max. cbn [cond_Zopp].
    destruct (0 <=? e) eqn:Hsign.
    + apply Z.leb_le in Hsign. pose proof (pow2_pos e Hsign) as Hpow.
      rewrite (proj2 (Z.ltb_ge (Z.pos m * 2 ^ e) 0)) by nia.
      unfold to_integer. rewrite (proj2 (Z.leb_le 0 e)) by done.
      cbn [cond_Zopp].
      replace (2 * (Z.pos m * 2 ^ e) + 1) with (1 + Z.pos m * 2 ^ e * 2)
        by lia.
      change (2 * 1) with 2. rewrite Z.div_add by lia.
      change (1 / 2) with 0. split; [f_equal; lia|nia].
    + apply Z.leb_gt in Hsign.
      rewrite (proj2 (Z.ltb_ge (Z.pos m) 0)) by lia.
      set (n := (Z.pos m + 2 ^ (- e - 1)) / 2 ^ (- e)).
      pose proof (digits2_pos_bounds m) as [_ Hm].
      assert (Hm53 : Z.pos m < 2 ^ 53).
      { eapply Z.lt_le_trans; [exact Hm|]. apply pow2_mono. lia. }
      assert (Hh : 0 < 2 ^ (- e - 1)) by (apply pow2_pos; lia).
      assert (H2h : 2 ^ (- e) = 2 * 2 ^ (- e - 1)).
      { replace (- e) with (1 + (- e - 1)) at 1 by lia.
        by rewrite pow2_add by lia. }
      assert (Hq : (2 * Z.pos m + 2 ^ (- e)) / (2 * 2 ^ (- e)) = n).
      { subst n. rewrite H2h.
        replace (2 * Z.pos m + 2 * 2 ^ (- e - 1))
          with (2 * (Z.pos m + 2 ^ (- e - 1))) by lia.
        rewrite Z.div_mul_cancel_l by lia. done. }
      rewrite Hq.
      assert (Hn : 0 ≤ n < 2 ^ 53).
      { subst n. split; [apply Z.div_pos; lia|].
        apply Z.div_lt_upper_bound; [lia|]. rewrite H2h. nia. }
      split; [|lia].
      destruct (n =? 0) eqn:Hn0; [by apply Z.eqb_eq in Hn0 as ->|].
      apply Z.eqb_neq in Hn0.
      destruct (number_of_Z_small n) as (mz & ez & -> & _ & Hez & Hmz); [lia|].
      unfold to_integer.
      destruct (0 <=? ez) eqn:Hez0.
      * apply Z.leb_le in Hez0. assert (ez = 0) by lia. subst ez.
        simpl in *. f_equal. lia.
      * rewrite Hmz, Z.mod_mul, Z.div_mul
          by (pose proof (pow2_pos (- ez)); lia). done.
Qed.

Lemma foldl_add_within (ts : list number) (s : number) :
  within 60 s → Forall (λ t, within 4 t ∧ sign t = false) ts →
  within 60 (foldl add s ts).
Proof.
  intros Hs Hts. revert s Hs.
  induction Hts as [|t ts [Ht Hsign] _ IH]; intros s Hs; [done|].
  simpl. apply IH. by apply (add_within 60 4).
Qed.

Lemma occurrences_snoc (c c' : N) (s : jsstring) :
  occurrences c' (s ++ [c])
  = (occurrences c' s + if decide (c = c') then 1 else 0)%N.
Proof.
  unfold occurrences. rewrite filter_app, length_app.
  rewrite filter_cons, filter_nil.
  destruct (decide (c = c')); simpl; lia.
Qed.

Lemma occurrences_le (c : N) (s : jsstring) :
  (occurrences c s ≤ N.of_nat (length s))%N.
Proof.
  unfold occurrences. pose proof (length_filter (λ x, x = c) s). lia.
Qed.

Lemma repetition_snoc (pre rest : jsstring) (c : N) :
  repetition (pre ++ c :: rest) (length pre) = (occurrences c pre + 1)%N.
Proof.
  unfold repetition. rewrite list_lookup_middle by done. simpl default.
  rewrite (cons_middle c pre rest), (assoc_L (++)).
  rewrite take_app_length' by (rewrite length_app; simpl; lia).
  rewrite occurrences_snoc. by rewrite decide_True.
Qed.

Lemma repetition_bounds (text : jsstring) (i : nat) :
  (i < length text)%nat →
  (1 ≤ repetition text i ≤ N.of_nat (length text))%N.
Proof.
  intros Hi. destruct (lookup_lt_is_Some_2 text i Hi) as [c Hc].
  destruct (list_elem_of_split_length text i c Hc) as (pre & rest & -> & ->).
  rewrite repetition_snoc. split; [lia|].
  pose proof (occurrences_le c pre). rewrite length_app. simpl. lia.
Qed.

(** The loop over the characters adds the terms [5 / k_i] in order. *)
Lemma score_loop (pre rest : jsstring) (score : number) (counters : gmap N N) :
  (∀ c, default 0%N (counters !! c) = occurrences c pre) →
  (foldl (λ '(score, counters) c,
            let n := (default 0 (counters !! c) + 1)%N in
            (add score (div (number_of_Z 5) (number_of_Z (Z.of_N n))),
             <[c := n]> counters))
         (score, counters) rest).1
  = foldl add score
      ((λ i, div (number_of_Z 5)
                 (number_of_Z (Z.of_N (repetition (pre ++ rest) i))))
         <$> seq (length pre) (length rest)).
Proof.
  revert pre score counters.
  induction rest as [|c rest IH]; intros pre score counters Hcount; [done|].
  cbn [foldl length seq fmap list_fmap].
  rewrite repetition_snoc, <- Hcount.
  rewrite (cons_middle c pre rest), (assoc_L (++)).
  specialize (IH (pre ++ [c])). rewrite length_app in IH. simpl in IH.
  replace (length pre + 1)%nat with (S (length pre)) in IH by lia.
  apply IH. intros c'. rewrite occurrences_snoc. destruct (decide (c = c')) as [<-|Hne].
  - by rewrite lookup_insert_eq, Hcount.
  - rewrite lookup_insert_ne by done. rewrite Hcount. lia.
Qed.

Lemma same_but_zero_sign_refl (x : number) : same_but_zero_sign x x.
Proof. by left. Qed.

Lemma add_ten_same (x y : number) :
  same_but_zero_sign x y → add x (number_of_Z 10) = add y (number_of_Z 10).
Proof. intros [->|(sx & sy & -> & ->)]; done. Qed.

Lemma add_zero_same (x y : number) :
  same_but_zero_sign x y → same_but_zero_sign (add x (number_of_Z 0)) y.
Proof.
  intros [->|(sx & sy & -> & ->)].
  - destruct y as [[]| | |]; try (by left). right. by exists false, true.
  - right. destruct sx; by eexists _, _.
Qed.

(** The loop over the patterns adds 10 for each class that occurs. *)
Lemma bonus_loop (text : jsstring) (classes : list char_class) (x y : number) :
  same_but_zero_sign x y →
  same_but_zero_sign
    (foldl (λ score re,
              add score (if regex_test re text then number_of_Z 10
                         else number_of_Z 0)) x classes)
    (foldl add y ((λ _, number_of_Z 10)
                    <$> filter (λ cls, regex_test cls text = true) classes)).
Proof.
  revert x y. induction classes as [|cls classes IH]; intros x y Hxy; [done|].
  cbn [foldl]. rewrite filter_cons.
  destruct (regex_test cls text) eqn:Htest.
  - rewrite decide_True by done. cbn [fmap list_fmap foldl]. apply IH.
    rewrite (add_ten_same x y) by done. apply same_but_zero_sign_refl.
  - rewrite decide_False by done. apply IH. by apply add_zero_same.
Qed.

Lemma max_same (x y : number) :
  same_but_zero_sign x y →
  Math.max (number_of_Z 0) x = Math.max (number_of_Z 0) y.
Proof. intros [->|(sx & sy & -> & ->)]; [done|]. by destruct sx, sy. Qed.

Lemma regex_test_occurs (cls : char_class) (text : jsstring) :
  regex_test cls text = true ↔ occurs cls text.
Proof.
  unfold regex_test, occurs. rewrite existsb_exists.
  by setoid_rewrite list_elem_of_In.
Qed.

Lemma score_password_refines (text : jsstring) :
  Q.score_password text
  = Math.round (Math.max (number_of_Z 0) (score_sum text)).
Proof.
  unfold Q.score_password.
  pose proof (score_loop [] text (number_of_Z (-10)) ∅) as Hloop.
  destruct (foldl _ (number_of_Z (-10), ∅) text) as [score counters].
  cbn [fst] in Hloop. rewrite Hloop by done.
  f_equal. apply max_same. apply bonus_loop, same_but_zero_sign_refl.
Qed.

Lemma repetition_terms_within (text : jsstring) :
  Z.of_nat (length text) < 2 ^ 53 →
  Forall (λ t, within 4 t ∧ sign t = false) (repetition_terms text).
Proof.
  intros Hlen. unfold repetition_terms. apply Forall_fmap, Forall_forall.
  intros i Hi. apply elem_of_seq in Hi as [_ Hi]. simpl in Hi.
  pose proof (repetition_bounds text i Hi) as Hk.
  destruct (div_count_within (Z.of_N (repetition text i))) as [Hw Hs]; [lia|].
  split; [|done]. by apply (within_mono 3).
Qed.

Lemma class_bonuses_within (text : jsstring) :
  Forall (λ t, within 4 t ∧ sign t = false) (class_bonuses text).
Proof.
  unfold class_bonuses. apply Forall_fmap, Forall_forall. intros cls _.
  split; [|done]. repeat split; by vm_compute.
Qed.

Lemma score_sum_within (text : jsstring) :
  Z.of_nat (length text) < 2 ^ 53 → within 60 (score_sum text).
Proof.
  intros Hlen. unfold score_sum.
  apply (foldl_add_within (class_bonuses text));
    [|apply class_bonuses_within].
  apply (foldl_add_within (repetition_terms text));
    [|by apply repetition_terms_within].
  repeat split; by vm_compute.
Qed.
End Floats.

(** ** The password score *)

Example score_password_example :
  Q.score_password (js "Passw0rd!") = number_of_Z 73.
Proof. by vm_compute. Qed.

(** The sum is a binary64 sum: for this text the terms add up to
    78.49999999999999, whereas their exact sum is 78.5. *)
Example score_password_rounding :
  Q.score_password (js "afidcegicadebhgieihihagfce") = number_of_Z 78
  ∧ exact_sum (js "afidcegicadebhgieihihagfce") = (1171998720, 14929920)%Z
  ∧ round_max (exact_sum (js "afidcegicadebhgieihihagfce")) = 79%Z.
Proof. by vm_compute. Qed.

(** C1.  For every string [text] (a JavaScript string has fewer than
    [2^53] characters), [Q.score_password(text)] is [round(max(0, s))]
    where [s] is the binary64 sum, from left to right, of [-10], of the
    binary64 quotient [5 / k_i] for each position [i] in order, with [k_i]
    the number of occurrences of [text[i]] among the first [i + 1]
    characters, and of [10] for each of the classes digit, lower-case
    letter, upper-case letter and non-word character of which a character
    occurs in [text].  The result is a non-negative integer, and it is [0]
    for the empty string. *)
Theorem score_password_formula (text : jsstring) :
  (Z.of_nat (length text) < 2 ^ 53)%Z →
  (∃ s, fraction_of (score_sum text) = Some s
        ∧ to_integer (Q.score_password text) = Some (round_max s))
  ∧ (∀ cls, cls ∈ classes_of text ↔ occurs cls text)
  ∧ (∃ n : N, to_integer (Q.score_password text) = Some (Z.of_N n))
  ∧ Q.score_password [] = S754_zero false.
Proof.
  intros Hlen.
  destruct (round_max_integer 60 (score_sum text) (score_sum_within text Hlen))
    as (s & Hs & Hround & Hpos).
  rewrite <- score_password_refines in Hround.
  split; [by exists s|]. split.
  - intros cls. rewrite <- regex_test_occurs. unfold classes_of.
    rewrite list_elem_of_filter. split; [by intros [? _]|].
    intros Hcls. split; [done|]. destruct cls; set_solver.
  - split; [|by vm_compute].
    exists (Z.to_N (round_max s)). by rewrite Z2N.id.
Qed.

Lemma score_password_formula_witness :
  (Z.of_nat (length (js "Passw0rd!")) < 2 ^ 53)%Z
  ∧ (∃ s, fraction_of (score_sum (js "Passw0rd!")) = Some s
          ∧ to_integer (Q.score_password (js "Passw0rd!"))
            = Some (round_max s))
  ∧ ∃ n : N, to_integer (Q.score_password (js "Passw0rd!")) = Some (Z.of_N n).
Proof.
  assert (Hlen : (Z.of_nat (length (js "Passw0rd!")) < 2 ^ 53)%Z)
    by (by vm_compute).
  split; [exact Hlen|].
  destruct (score_password_formula (js "Passw0rd!") Hlen) as (Heq & _ & Hint & _).
  by split.
Defined.

(** In exact arithmetic the sum for this text is [-10 + 29.5 + 10], which
    rounds to 30; the binary64 sum is 29.499999999999996, and the score
    is 29. *)
Lemma score_password_exact_sum :
  exact_sum (js "abcbbabababaa") = (15292800, 518400)%Z
  ∧ round_max (exact_sum (js "abcbbabababaa")) = 30%Z
  ∧ fraction_of (score_sum (js "abcbbabababaa"))
    = Some (8303511812964351, 2 ^ 48)%Z
  ∧ to_integer (Q.score_password (js "abcbbabababaa")) = Some 29%Z.
Proof. by vm_compute. Qed.

(* ===================================================================== *)
(** * Part III: further properties of the library                         *)
(* ===================================================================== *)

(** ** Fields of a tag list *)

Lemma trim_start_head (s : jsstring) (c : N) :
  head (trim_start s) = Some c → is_space c = false.
Proof.
  induction s as [|x s IH]; simpl; [done|].
  destruct (is_space x) eqn:E; [done|]. simpl. by intros [= <-].
Qed.

Lemma trim_start_split (s : jsstring) :
  ∃ pre, s = pre ++ trim_start s.
Proof.
  induction s as [|x s [pre IH]]; simpl; [by exists []|].
  destruct (is_space x); [|by exists []].
  exists (x :: pre). simpl. by f_equal.
Qed.

Lemma trim_end_last (s : jsstring) (c : N) :
  last (trim_end s) = Some c → is_space c = false.
Proof. unfold trim_end. rewrite last_reverse. apply trim_start_head. Qed.

Lemma trim_end_split (s : jsstring) : ∃ post, s = trim_end s ++ post.
Proof.
  unfold trim_end. destruct (trim_start_split (reverse s)) as [pre Hpre].
  exists (reverse pre). rewrite <- reverse_app, <- Hpre.
  by rewrite reverse_involutive.
Qed.

Lemma trim_head (s : jsstring) (c : N) :
  head (trim s) = Some c → is_space c = false.
Proof.
  unfold trim. destruct (trim_end_split (trim_start s)) as [post Hpost].
  intros Hc. apply (trim_start_head s). rewrite Hpost.
  destruct (trim_end (trim_start s)); [done|]. done.
Qed.

Lemma trim_last (s : jsstring) (c : N) :
  last (trim s) = Some c → is_space c = false.
Proof. apply trim_end_last. Qed.

Lemma trim_fixed (x : jsstring) :
  (∀ c, head x = Some c → is_space c = false) →
  (∀ c, last x = Some c → is_space c = false) → trim x = x.
Proof.
  intros Hhead Hlast. unfold trim, trim_end.
  rewrite (trim_start_id x) by done.
  rewrite (trim_start_id (reverse x)).
  - apply reverse_involutive.
  - intros c. rewrite head_reverse. apply Hlast.
Qed.

Lemma trim_trim (s : jsstring) : trim (trim s) = trim s.
Proof. apply trim_fixed; [apply trim_head|apply trim_last]. Qed.

Lemma trim_nil : trim [] = [].
Proof. done. Qed.

(** Every field that the loop has pushed is the result of [trim]. *)
Lemma parse_step_trimmed (st : parse_state) (c : N) (eol : bool) :
  Forall (λ x, trim x = x) (ps_a st) →
  Forall (λ x, trim x = x) (ps_a (Q.parse_step st c eol)).
Proof.
  destruct st as [a s q esc]. unfold Q.parse_step. intros Ha.
  repeat case_match; simpl; try done.
  apply Forall_app. split; [done|].
  apply Forall_singleton, trim_trim.
Qed.

Lemma parse_scan_trimmed (st : parse_state) (cs : jsstring) :
  Forall (λ x, trim x = x) (ps_a st) →
  Forall (λ x, trim x = x) (ps_a (parse_scan st cs)).
Proof.
  revert st. induction cs as [|c cs IH]; intros st Ha; [done|].
  simpl. apply IH. by apply parse_step_trimmed.
Qed.

(** X1.  Every field that [Q.parse_list] returns is trimmed: whatever the
    line, and also when the field was written between quotes, a field
    neither begins nor ends with white space. *)
Theorem parse_list_fields_trimmed (line x : jsstring) :
  x ∈ Q.parse_list line →
  trim x = x
  ∧ (∀ c, head x = Some c → is_space c = false)
  ∧ (∀ c, last x = Some c → is_space c = false).
Proof.
  intros Hx.
  assert (Hall : Forall (λ x, trim x = x) (Q.parse_list line)).
  { unfold Q.parse_list. case_bool_decide; [done|].
    rewrite parse_loop_scan.
    apply parse_step_trimmed, parse_scan_trimmed. simpl. done. }
  rewrite Forall_forall in Hall. specialize (Hall x Hx).
  split; [done|]. rewrite <- Hall.
  split; [apply trim_head|apply trim_last].
Qed.

Lemma parse_list_fields_trimmed_witness :
  js "red" ∈ Q.parse_list (js " red , dark blue ")
  ∧ trim (js "red") = js "red".
Proof.
  assert (Hin : js "red" ∈ Q.parse_list (js " red , dark blue "))
    by (vm_compute; apply elem_of_cons; by left).
  split; [exact Hin|].
  apply (parse_list_fields_trimmed (js " red , dark blue ") (js "red") Hin).
Defined.


Lemma split_cons (sep : N) (s : jsstring) :
  ∃ piece pieces, split sep s = piece :: pieces.
Proof.
  destruct s as [|c r]; simpl; [by eexists _, _|].
  destruct (c =? sep)%N; [by eexists _, _|].
  destruct (split sep r); by eexists _, _.
Qed.

Lemma parse_scan_split (line : jsstring) a (s : jsstring) esc :
  DQUOTE ∉ line →
  ps_a (Q.parse_step (parse_scan (ParseState a s false esc) line) COMMA true)
  = a ++ (trim <$> match split COMMA line with
                   | piece :: pieces => (s ++ piece) :: pieces
                   | [] => [s]
                   end).
Proof.
  revert a s. induction line as [|c line IH]; intros a s Hq.
  - simpl. by rewrite app_nil_r.
  - apply not_elem_of_cons in Hq as [Hc Hq].
    assert ((c =? DQUOTE)%N = false) as Ec by (apply N.eqb_neq; congruence).
    simpl. rewrite Ec. destruct (c =? COMMA)%N eqn:E; simpl.
    + rewrite IH by done. rewrite app_nil_r, <- (assoc_L (++)). simpl.
      by destruct (split_cons COMMA line) as (p & ps & ->).
    + rewrite IH by done.
      destruct (split_cons COMMA line) as (p & ps & ->).
      by rewrite <- (assoc_L (++)).
Qed.

(** X2.  On a line that is not empty and has no double quote,
    [Q.parse_list] is [line.split(",")] with every piece trimmed: empty
    pieces are kept, and a backslash outside quotes is an ordinary
    character. *)
Theorem parse_list_split (line : jsstring) :
  line ≠ [] → DQUOTE ∉ line →
  Q.parse_list line = trim <$> split COMMA line.
Proof.
  intros Hne Hq. unfold Q.parse_list.
  rewrite bool_decide_false by (by destruct line).
  rewrite parse_loop_scan, parse_scan_split by done. simpl.
  by destruct (split_cons COMMA line) as (p & ps & ->).
Qed.

Lemma parse_list_split_witness :
  Q.parse_list (js "a, b,,c") = trim <$> split COMMA (js "a, b,,c").
Proof.
  apply (parse_list_split (js "a, b,,c")); [done|].
  by apply (bool_decide_unpack (DQUOTE ∉ js "a, b,,c")).
Defined.


Lemma parse_step_push_front a0 (st : parse_state) (c : N) (eol : bool) :
  Q.parse_step (push_front a0 st) c eol = push_front a0 (Q.parse_step st c eol).
Proof.
  destruct st as [a s q esc]. unfold push_front, Q.parse_step. simpl.
  repeat case_match; simpl; try done. by rewrite (assoc_L (++)).
Qed.

Lemma parse_scan_cons (st : parse_state) (c : N) (cs : jsstring) :
  parse_scan st (c :: cs) = parse_scan (Q.parse_step st c false) cs.
Proof. done. Qed.

Lemma parse_scan_push_front a0 (st : parse_state) (cs : jsstring) :
  parse_scan (push_front a0 st) cs = push_front a0 (parse_scan st cs).
Proof.
  revert st. induction cs as [|c cs IH]; intros st; [done|].
  rewrite !parse_scan_cons, parse_step_push_front. apply IH.
Qed.

(** Outside quotes no escape is pending. *)
Lemma parse_step_esc (st : parse_state) (c : N) (eol : bool) :
  (ps_q st = false → ps_esc st = false) →
  ps_q (Q.parse_step st c eol) = false → ps_esc (Q.parse_step st c eol) = false.
Proof.
  destruct st as [a s q esc]. unfold Q.parse_step. simpl.
  repeat case_match; simpl; intros Hst Hq; try done; by apply Hst.
Qed.

Lemma parse_scan_esc (st : parse_state) (cs : jsstring) :
  (ps_q st = false → ps_esc st = false) →
  ps_q (parse_scan st cs) = false → ps_esc (parse_scan st cs) = false.
Proof.
  revert st. induction cs as [|c cs IH]; intros st Hst; [done|].
  simpl. apply IH. by apply parse_step_esc.
Qed.

Lemma fields_of_scan (line : jsstring) :
  fields_of line
  = ps_a (Q.parse_step (parse_scan (ParseState [] [] false false) line) COMMA true).
Proof.
  destruct line as [|c line]; [done|].
  unfold fields_of, Q.parse_list. rewrite bool_decide_false by done.
  by rewrite parse_loop_scan.
Qed.

Lemma parse_step_comma a s esc :
  Q.parse_step (ParseState a s false esc) COMMA false
  = ParseState (a ++ [trim s]) [] false esc.
Proof. done. Qed.

(** X3.  A comma outside quotes separates two lines: when the quotes of
    [line1] are closed, the fields of [line1 + "," + line2] are the fields
    of [line1] followed by the fields of [line2], where an empty part
    counts as one empty field. *)
Theorem parse_list_comma (line1 line2 : jsstring) :
  closed_quotes line1 →
  Q.parse_list (line1 ++ COMMA :: line2) = fields_of line1 ++ fields_of line2.
Proof.
  unfold closed_quotes. intros Hq.
  unfold Q.parse_list. rewrite bool_decide_false
    by (rewrite length_app; simpl; lia).
  rewrite parse_loop_scan, !fields_of_scan, parse_scan_app, parse_scan_cons.
  pose proof (parse_scan_esc (ParseState [] [] false false) line1
                (λ _, eq_refl) Hq) as Hesc.
  destruct (parse_scan _ line1) as [a s q esc]. simpl in Hq, Hesc. subst q esc.
  rewrite parse_step_comma, parse_step_eol.
  assert (ParseState (a ++ [trim s]) [] false false
          = push_front (a ++ [trim s]) (ParseState [] [] false false)) as ->
    by (unfold push_front; simpl; by rewrite app_nil_r).
  rewrite parse_scan_push_front, parse_step_push_front.
  unfold push_front. simpl. by rewrite app_nil_r.
Qed.

Lemma parse_list_comma_witness :
  Q.parse_list ((DQUOTE :: js "a,b" ++ [DQUOTE]) ++ COMMA :: js "c")
  = fields_of (DQUOTE :: js "a,b" ++ [DQUOTE]) ++ fields_of (js "c").
Proof.
  apply (parse_list_comma (DQUOTE :: js "a,b" ++ [DQUOTE]) (js "c")).
  reflexivity.
Defined.


Lemma escape_cons (c : N) (x : jsstring) :
  escape (c :: x)
  = (if (c =? DQUOTE)%N || (c =? BACKSLASH)%N then [BACKSLASH; c] else [c])
    ++ escape x.
Proof. done. Qed.

Lemma parse_scan_escape a (s : jsstring) (x : jsstring) :
  parse_scan (ParseState a s true false) (escape x)
  = ParseState a (s ++ x) true false.
Proof.
  revert s. induction x as [|c x IH]; intros s.
  - simpl. by rewrite app_nil_r.
  - rewrite escape_cons, parse_scan_app, (cons_middle c s x), (assoc_L (++)).
    rewrite <- IH. f_equal.
    destruct (c =? DQUOTE)%N eqn:E1; [by apply N.eqb_eq in E1 as ->|].
    destruct (c =? BACKSLASH)%N eqn:E2; [by apply N.eqb_eq in E2 as ->|].
    simpl. by rewrite E1, E2.
Qed.

Lemma parse_scan_quote (x : jsstring) :
  parse_scan (ParseState [] [] false false) (quote x)
  = ParseState [] x false false.
Proof.
  unfold quote. simpl. rewrite parse_scan_app, parse_scan_escape. done.
Qed.

Lemma fields_of_quote (x : jsstring) : fields_of (quote x) = [trim x].
Proof. by rewrite fields_of_scan, parse_scan_quote. Qed.

Lemma join_quote_cons (x : jsstring) (xs : list jsstring) :
  ∃ c r, join [COMMA] (quote <$> x :: xs) = c :: r.
Proof. destruct xs; simpl; by eexists _, _. Qed.

Lemma fields_of_quoted (x : jsstring) (xs : list jsstring) :
  fields_of (join [COMMA] (quote <$> x :: xs)) = trim <$> x :: xs.
Proof.
  revert x. induction xs as [|y xs IH]; intros x.
  - apply fields_of_quote.
  - rewrite !fmap_cons, join_cons_cons.
    specialize (IH y). rewrite !fmap_cons in IH.
    change ([COMMA] ++ ?l) with (COMMA :: l).
    assert (fields_of (quote x ++ COMMA :: join [COMMA] (quote y :: (quote <$> xs)))
            = Q.parse_list (quote x ++ COMMA :: join [COMMA] (quote y :: (quote <$> xs))))
      as -> by done.
    rewrite parse_list_comma, fields_of_quote, IH; [done|].
    unfold closed_quotes. by rewrite parse_scan_quote.
Qed.

(** X4.  Every list of strings can be written as a line: when each string
    is put between double quotes, with a backslash before each of its
    double quotes and backslashes, and the results are joined with commas,
    [Q.parse_list] gives the strings back, trimmed. *)
Theorem parse_list_quoted_fields (xs : list jsstring) :
  xs ≠ [] → Q.parse_list (join [COMMA] (quote <$> xs)) = trim <$> xs.
Proof.
  destruct xs as [|x xs]; [done|]. intros _.
  rewrite <- fields_of_quoted.
  by destruct (join_quote_cons x xs) as (c & r & ->).
Qed.

Lemma parse_list_quoted_fields_witness :
  Q.parse_list (join [COMMA] (quote <$> [js " a,b "; DQUOTE :: js "x"]))
  = trim <$> [js " a,b "; DQUOTE :: js "x"].
Proof.
  apply (parse_list_quoted_fields [js " a,b "; DQUOTE :: js "x"]). done.
Defined.


(** ** When [T.format] throws *)

(** X5.  [T.format] throws exactly in two cases: [T.translations] has
    no entry for the text and the text names a property inherited from
    [Object.prototype]; or the table has an entry for the text, keyed by
    array indices, that has no key [0] and no key at most [n].  The error
    is the [TypeError] of calling [format] on [undefined].  In particular
    an empty entry always throws. *)
Theorem T_format_throws `{Runtime} `{JsValue V}
    (translations : translation_table) (text : jsstring)
    (args : option (gmap jsstring V)) (e : error) :
  (∀ forms, translations !! text = Some forms → index_keyed forms) →
  T.format translations text args = Throw e
  ↔ e = format_of_undefined
    ∧ ((translations !! text = None ∧ text ∈ object_prototype_names)
       ∨ ∃ forms, translations !! text = Some forms
                  ∧ T.own_property forms (index_text 0) = None
                  ∧ ∀ k, is_Some (T.own_property forms (index_text k)) →
                         T.le_n (default ∅ args) (Finite (Z.of_N k)) = false).
Proof.
  intros Hkeys. unfold T.format.
  destruct (translations !! text) as [forms|] eqn:Hforms.
  - destruct (select_key_plural (default ∅ args) forms (Hkeys _ eq_refl))
      as (k & -> & [(Hin & Hle & _)|[Hnone ->]]).
    + destruct Hin as [form Hform]. rewrite Hform.
      split; [done|]. intros (_ & [[? _]|(forms' & Heq & _ & Hall)]); [done|].
      simplify_eq. rewrite Hall in Hle; [done|]. by eexists.
    + destruct (T.own_property forms (index_text 0)) as [form|] eqn:Hzero.
      * split; [done|].
        intros (_ & [[? _]|(forms' & Heq & ? & _)]); [done|]. by simplify_eq.
      * split.
        -- intros [= <-]. split; [done|]. right. by exists forms.
        -- by intros [-> _].
  - unfold inherits. destruct (decide (text ∈ object_prototype_names)) as [Hin|Hin].
    + rewrite bool_decide_true by done. split.
      * intros [= <-]. split; [done|]. by left.
      * by intros [-> _].
    + rewrite bool_decide_false by done. split; [done|].
      intros (_ & [[_ ?]|(forms & ? & _)]); done.
Qed.

Lemma T_format_throws_witness :
  T.format {[ js "cat" := PluralForms [(js "2", js "{n} gatti")] I ]}
           (js "cat") (None : option (gmap jsstring count))
  = Throw format_of_undefined.
Proof.
  apply (T_format_throws {[ js "cat" := PluralForms [(js "2", js "{n} gatti")] I ]}
           (js "cat") (None : option (gmap jsstring count))).
  - intros forms [= <-]. repeat (constructor; [by eexists|]). constructor.
  - split; [done|]. right. eexists. split; [reflexivity|]. split; [done|].
    intros k [form Hk]. unfold T.own_property in Hk. simpl in Hk.
    apply lookup_insert_Some in Hk as [[Hk _]|[_ Hk]]; [|done].
    change (js "2") with (index_text 2) in Hk. apply index_text_inj in Hk.
    by subst k.
Defined.

(** ** Changed forms *)

Lemma control_changed_iff (c : control) :
  Q.control_changed c = true
  ↔ c_disabled c = false
    ∧ ((checkable c ∧ c_checked c ≠ c_defaultChecked c)
       ∨ (¬ checkable c ∧ c_defaultValue c ≠ Some (c_value c))).
Proof.
  unfold Q.control_changed, checkable.
  destruct (c_disabled c); [by split; [|intros [? _]]|].
  destruct (bool_decide (c_type c = js "checkbox")) eqn:E1;
    [|destruct (bool_decide (c_type c = js "radio")) eqn:E2]; simpl.
  - apply bool_decide_eq_true in E1.
    split.
    + intros Hne. split; [done|]. left. split; [by left|].
      by destruct (c_checked c), (c_defaultChecked c).
    + intros [_ [[_ Hne]|[Hno _]]]; [|by destruct Hno; left].
      by destruct (c_checked c), (c_defaultChecked c).
  - apply bool_decide_eq_true in E2.
    split.
    + intros Hne. split; [done|]. left. split; [by right|].
      by destruct (c_checked c), (c_defaultChecked c).
    + intros [_ [[_ Hne]|[Hno _]]]; [|by destruct Hno; right].
      by destruct (c_checked c), (c_defaultChecked c).
  - apply bool_decide_eq_false in E1, E2.
    rewrite negb_true_iff, bool_decide_eq_false. split.
    + intros Hne. split; [done|]. right. split; [by intros [?|?]|done].
    + intros [_ [[[?|?] _]|[_ Hne]]]; done.
Qed.

(** X6.  [Q.is_form_changed] returns true exactly when some control of the
    form is enabled and either is a checkbox or radio whose [checked]
    differs from [defaultChecked], or is another control whose [value]
    differs from [defaultValue].  A form with an enabled control that has
    no [defaultValue], such as a [select], is therefore always changed. *)
Theorem is_form_changed_iff `{Runtime} `{Browser page}
    (f : form) (w : world page) :
  (Q.is_form_changed f w = true
   ↔ ∃ c, c ∈ form_controls f (w_page w) ∧ c_disabled c = false
          ∧ ((checkable c ∧ c_checked c ≠ c_defaultChecked c)
             ∨ (¬ checkable c ∧ c_defaultValue c ≠ Some (c_value c))))
  ∧ (∀ c, c ∈ form_controls f (w_page w) → c_disabled c = false →
          ¬ checkable c → c_defaultValue c = None →
          Q.is_form_changed f w = true).
Proof.
  assert (Hiff : Q.is_form_changed f w = true
   ↔ ∃ c, c ∈ form_controls f (w_page w) ∧ c_disabled c = false
          ∧ ((checkable c ∧ c_checked c ≠ c_defaultChecked c)
             ∨ (¬ checkable c ∧ c_defaultValue c ≠ Some (c_value c)))).
  { unfold Q.is_form_changed. rewrite existsb_exists. split.
    - intros (c & Hin & Hc). exists c. split; [by apply list_elem_of_In|].
      by apply control_changed_iff.
    - intros (c & Hin & Hc). exists c. split; [by apply list_elem_of_In|].
      by apply control_changed_iff. }
  split; [done|].
  intros c Hin Hd Hno Hdef. apply Hiff. exists c. repeat split; try done.
  right. split; [done|]. by rewrite Hdef.
Qed.

(** ** Submitting a changed form *)

Lemma load_and_trap_request `{Runtime} `{Browser page}
    (method url : jsstring) (form_data : option (list (jsstring * jsstring)))
    (target : jsstring) (w w' : world page) p :
  Q.load_and_trap method url form_data target w = (Ok p, w') →
  w_requests w'
  = w_requests w
    ++ [Request (toLowerCase (or_else method (js "GET"))) url None
          (FormData <$> form_data)].
Proof.
  unfold Q.load_and_trap, bind. intros Hrun.
  destruct (Q.check_target url target w) as [r0 w0] eqn:E0.
  pose proof (check_target_quiet _ _ _ _ _ E0) as [R0 _].
  destruct r0; [|done].
  destruct (Q.ajax _ url _ None w0) as [r1 w1] eqn:E1.
  destruct r1 as [response|]; [|done].
  pose proof (ajax_request _ _ _ _ _ _ E1) as [R1 _].
  destruct (then_ response _ w1) as [loaded w2] eqn:E2.
  assert (Q2 : quiet w1 w2).
  { unfold then_ in E2. destruct response as [res|]; [|simplify_eq; apply quiet_refl].
    destruct (Q.component_loaded url target res w1) as [r2 w2'] eqn:E.
    apply component_loaded_quiet in E. by destruct r2; simplify_eq. }
  destruct (catch_ loaded _ w2) as [settled w3] eqn:E3.
  assert (Q3 : quiet w2 w3).
  { unfold catch_ in E3. destruct loaded; [simplify_eq; apply quiet_refl|].
    destruct (Q.component_failed reason w2) as [r3 w3'] eqn:E.
    apply component_failed_quiet in E. by destruct r3; simplify_eq. }
  simplify_eq. destruct Q2 as [R2 _], Q3 as [R3 _].
  rewrite R3, R2, R1, R0. by destruct form_data.
Qed.

(** X7.  When [Q._ajaxSubmitForm] returns a promise for a changed form, it
    has issued exactly one request, with the method [POST] in lower case,
    the address [form.action] and the [FormData] of the form read after
    its submit buttons were disabled; and the last thing it has done is
    to enable these buttons again, however the request ended. *)
Theorem ajaxSubmitForm_changed `{Runtime} `{Browser page}
    (f : form) (w w' : world page) (p : outcome unit) :
  Q.is_form_changed f w = true →
  Q._ajaxSubmitForm f w = (Ok p, w') →
  let buttons := form_buttons f (w_page w) in
  let disabled := set_disabled buttons true (w_page w) in
  (∃ w3, w' = with_page (set_disabled buttons false) w3)
  ∧ w_requests w'
    = w_requests w
      ++ [Request (toLowerCase (js "POST")) (form_action f (w_page w)) None
            (Some (FormData (form_data_of f disabled)))].
Proof.
  intros Hchanged Hrun buttons disabled. subst buttons disabled.
  unfold Q._ajaxSubmitForm in Hrun. rewrite Hchanged in Hrun.
  cbv beta zeta iota delta [negb] in Hrun.
  destruct (Q.load_and_trap _ _ _ _ _) as [r1 w1] eqn:E1.
  destruct r1 as [loaded|]; [|done].
  apply load_and_trap_request in E1. simpl in E1.
  destruct (catch_ loaded _ w1) as [caught w2] eqn:E2.
  assert (Q2 : quiet w1 w2).
  { unfold catch_ in E2. destruct loaded; [simplify_eq; apply quiet_refl|].
    destruct (Q.submission_failed reason w1) as [r2 w2'] eqn:E.
    apply submission_failed_quiet in E. by destruct r2; simplify_eq. }
  unfold finally_, effect in Hrun. simplify_eq.
  split; [by eexists|]. simpl. destruct Q2 as [-> _]. done.
Qed.

Lemma ajaxSubmitForm_changed_witness :
  w_requests (Q._ajaxSubmitForm 1 (sample_world true flash_dispatch)).2
  = [Request (js "post") (js "/submit") None
       (Some (FormData [(js "name", js "Bob")]))].
Proof.
  edestruct (ajaxSubmitForm_changed 1 (sample_world true flash_dispatch))
    as [_ Hrequests]; [reflexivity|reflexivity|].
  exact Hrequests.
Defined.


(** ** A redirected response *)

(** X8.  When the response of [Q.load_and_trap] is redirected, the window
    goes to the address of the response and nothing else happens: the
    target element is not looked up, no form is trapped, nothing is
    flashed or logged, and the promise is fulfilled. *)
Theorem load_and_trap_redirected `{Runtime} `{Browser page}
    (method url : jsstring) (form_data : option (list (jsstring * jsstring)))
    (target : jsstring) (w : world page) (res : response) (body : jsstring)
    (p' : page) :
  let req := Request (toLowerCase (or_else method (js "GET"))) url None
                     (FormData <$> form_data) in
  target ≠ [] →
  fetch req (w_page w) = (Ok res, p') →
  res_text res = Ok body →
  res_redirected res = true →
  Q.load_and_trap method url form_data target w
  = (Ok (Fulfilled tt),
     with_page (navigate (res_url res))
               (add_request req (with_page (λ _, p') w))).
Proof.
  intros req Htarget Hfetch Hbody Hred. subst req.
  unfold Q.load_and_trap, bind, Q.check_target, ret.
  destruct target as [|c target]; [done|].
  unfold Q.ajax, bind, ret.
  replace (match FormData <$> form_data with
           | Some (JsonObject _) =>
               Some ({[ js "Content-type" := js "application/json" ]}
                       : gmap jsstring jsstring)
           | _ => None
           end) with (None : option (gmap jsstring jsstring))
    by (by destruct form_data).
  rewrite Hfetch, Hbody.
  unfold then_, Q.component_loaded. simpl. rewrite Hred. done.
Qed.

Lemma load_and_trap_redirected_witness :
  Q.load_and_trap (H0 := component_browser) (js "GET") (js "/component")
                  None (js "component_1")
                  (World true false ∅ flash_dispatch [] [] [] [] ∅ 0 [])
  = (Ok (Fulfilled tt),
     World true false ∅ flash_dispatch [] [] []
           [Request (js "get") (js "/component") None None] ∅ 0 []).
Proof.
  exact (load_and_trap_redirected (H0 := component_browser)
           (js "GET") (js "/component") None (js "component_1")
           (World true false ∅ flash_dispatch [] [] [] [] ∅ 0 [])
           (Response true (js "/login") (Ok (js "<p>loaded</p>"))
                     (Some (js "saved")))
           (js "<p>loaded</p>") true
           ltac:(done) eq_refl eq_refl eq_refl).
Defined.


(** ** The flash message of a component *)




(** ** A component without target *)

(** X10.  [Q.load_and_trap] with an empty target flashes "Target element
    not specified" and still issues the request; when the selector [#]
    then throws, the response is dropped, "Ajax component error" is
    flashed as well, the error is written with [console.error], and the
    promise is fulfilled. *)
Theorem load_and_trap_without_target `{Runtime} `{Browser page}
    (method url : jsstring) (form_data : option (list (jsstring * jsstring)))
    (w : world page) (res : response) (body : jsstring) (p' : page)
    (e : error) (message1 message2 : jsstring) :
  let req := Request (toLowerCase (or_else method (js "GET"))) url None
                     (FormData <$> form_data) in
  T.format (w_translations w)
           (js "Target element not specified for <code>{url}</code>")
           (Some {[ js "url" := url ]}) = Ok message1 →
  T.format (w_translations w) (js "Ajax component error")
           (None : option (gmap jsstring Empty_set)) = Ok message2 →
  fetch req (w_page w) = (Ok res, p') →
  res_text res = Ok body →
  res_redirected res = false →
  query_target [] p' = Throw e →
  Q.load_and_trap method url form_data [] w
  = (Ok (Fulfilled tt),
     console (console_error (js "Ajax component error:") e)
       (Q.flash (FlashDetails message2 danger)
          (add_request req
             (with_page (λ _, p')
                (Q.flash (FlashDetails message1 danger) w))))).
Proof.
  intros req Hm1 Hm2 Hfetch Hbody Hred Hquery. subst req.
  unfold Q.load_and_trap, Q.check_target, Q.T_format, effect, bind.
  rewrite Hm1.
  unfold Q.ajax, bind, ret.
  replace (match FormData <$> form_data with
           | Some (JsonObject _) =>
               Some ({[ js "Content-type" := js "application/json" ]}
                       : gmap jsstring jsstring)
           | _ => None
           end) with (None : option (gmap jsstring jsstring))
    by (by destruct form_data).
  assert (Hpage : w_page (Q.flash (FlashDetails message1 danger) w) = w_page w)
    by (unfold Q.flash; by destruct (w_flash w)).
  assert (Htr : w_translations (Q.flash (FlashDetails message1 danger) w)
                = w_translations w)
    by (unfold Q.flash; by destruct (w_flash w)).
  rewrite Hpage, Hfetch, Hbody.
  unfold then_, Q.component_loaded, bind. simpl. rewrite Hred.
  simpl. rewrite Hquery. simpl.
  unfold Q.component_failed, Q.T_format, bind, effect. simpl.
  rewrite Htr, Hm2. done.
Qed.

Lemma load_and_trap_without_target_witness :
  ∃ w', Q.load_and_trap (js "POST") (js "/submit") None []
                        (sample_world true flash_dispatch)
        = (Ok (Fulfilled tt), w')
        ∧ w_banners w'
          = [FlashDetails
               (js "Target element not specified for <code>/submit</code>")
               danger;
             FlashDetails (js "Ajax component error") danger]
        ∧ length (w_requests w') = 1.
Proof.
  eexists. split.
  - eapply (load_and_trap_without_target (js "POST") (js "/submit") None
              (sample_world true flash_dispatch)); reflexivity.
  - split; reflexivity.
Defined.


(** ** Custom headers *)

(** X11.  Custom headers can only be sent with a JSON body.  With at
    least one header, [Q.get] and [Q.delete], and [Q.ajax] with no data or
    a [FormData], throw a [TypeError] before any request is made, because
    the headers of the options are undefined.  With an object as data,
    the request carries the given headers and, unless one of them has
    that name, [Content-type: application/json]. *)
Theorem ajax_custom_headers `{Runtime} `{Browser page}
    (url : jsstring) (headers : gmap jsstring jsstring) (w : world page) :
  headers ≠ ∅ →
  let failure := Throw (TypeError (js "Cannot set properties of undefined")) in
  Q.get url (Some headers) w = (failure, w)
  ∧ Q.delete url (Some headers) w = (failure, w)
  ∧ (∀ method data, (∀ text, data ≠ Some (JsonObject text)) →
       Q.ajax method url data (Some headers) w = (failure, w))
  ∧ (∀ method text r w',
       Q.ajax method url (Some (JsonObject text)) (Some headers) w = (r, w') →
       ∃ sent, w_requests w'
               = w_requests w
                 ++ [Request method url (Some sent) (Some (JsonObject text))]
               ∧ ∀ name,
                   sent !! name
                   = match headers !! name with
                     | Some value => Some value
                     | None =>
                         if decide (name = js "Content-type")
                         then Some (js "application/json") else None
                     end).
Proof.
  intros Hne failure. subst failure.
  assert (Hplain : ∀ method data, (∀ text, data ≠ Some (JsonObject text)) →
            Q.ajax method url data (Some headers) w
            = (Throw (TypeError (js "Cannot set properties of undefined")), w)).
  { intros method data Hdata. unfold Q.ajax, bind, throw.
    rewrite decide_False by done.
    destruct data as [[fields|text]|]; [done| |done]. by destruct (Hdata text). }
  split; [by apply Hplain|]. split; [by apply Hplain|]. split; [done|].
  intros method text r w'. unfold Q.ajax, bind, ret.
  rewrite decide_False by done.
  destruct (fetch _ _) as [r' q]. intros Hrun.
  exists (headers ∪ {[ js "Content-type" := js "application/json" ]}).
  split.
  - by repeat case_match; simplify_eq.
  - intros name. rewrite lookup_union.
    destruct (headers !! name) as [value|]; simpl.
    + by destruct (_ !! name).
    + destruct (decide (name = js "Content-type")) as [->|Hname].
      * by rewrite lookup_singleton_eq.
      * by rewrite lookup_singleton_ne.
Qed.

Lemma ajax_custom_headers_witness :
  Q.get (js "/api") (Some {[ js "X-Token" := js "1" ]})
        (sample_world true flash_dispatch)
  = (Throw (TypeError (js "Cannot set properties of undefined")),
     sample_world true flash_dispatch).
Proof.
  destruct (ajax_custom_headers (js "/api") {[ js "X-Token" := js "1" ]}
              (sample_world true flash_dispatch)) as [Hget _];
    [apply insert_non_empty|exact Hget].
Defined.


(** ** The global submit delegate, over the calls that reach it *)

Section Delegate.
Context `{Runtime} `{Browser page}.
Implicit Type w : world page.

Lemma maybeSetupGlobalDelegate_delegate w :
  delegate_once w → delegate_once (Q._maybeSetupGlobalDelegate w).
Proof.
  unfold delegate_once, Q._maybeSetupGlobalDelegate.
  destruct (w_globalDelegateActive w) eqn:E; intros Hw.
  - by rewrite E.
  - simpl. by rewrite Hw.
Qed.

Lemma flash_delegate (detail : flash_details) w :
  delegate_once w → delegate_once (Q.flash detail w).
Proof. unfold delegate_once, Q.flash. by destruct (w_flash w). Qed.

Lemma trap_form_delegate (action_url elem_id : jsstring)
    (globalSubmitId : option jsstring) w w' r :
  Q.trap_form action_url elem_id globalSubmitId w = (r, w') →
  delegate_once w → delegate_once w'.
Proof.
  unfold Q.trap_form. intros Hrun Hw.
  destruct (trap_forms _ _ _ _) as [p|e]; [|by simplify_eq].
  destruct (truthy globalSubmitId); simplify_eq; [|done].
  by apply maybeSetupGlobalDelegate_delegate.
Qed.

Lemma check_target_delegate (url target : jsstring) w w' r :
  Q.check_target url target w = (r, w') → delegate_once w → delegate_once w'.
Proof.
  open_actions. intros Hrun Hw. destruct target; [|by simplify_eq].
  destruct (T.format _ _ _); simplify_eq; [|done]. by apply flash_delegate.
Qed.

Lemma ajax_delegate (method url : jsstring) (data : option payload)
    (headers : option (gmap jsstring jsstring)) w w' r :
  Q.ajax method url data headers w = (r, w') →
  delegate_once w → delegate_once w'.
Proof.
  open_actions. intros Hrun Hw.
  repeat case_match; simplify_eq; done.
Qed.

Lemma component_loaded_delegate (url target : jsstring)
    (res : response * jsstring) w w' r :
  Q.component_loaded url target res w = (r, w') →
  delegate_once w → delegate_once w'.
Proof.
  unfold Q.component_loaded, bind, effect, ret, Q.T_format. intros Hrun Hw.
  destruct (res_redirected res.1); [by simplify_eq|].
  destruct (query_target target (w_page w)) as [[elem|]|e]; [| |by simplify_eq].
  - destruct (Q.trap_form url target _ _) as [r1 w1] eqn:E1.
    apply trap_form_delegate in E1; [|done].
    destruct r1; [|by simplify_eq].
    destruct (truthy _); [|by simplify_eq].
    destruct (parse_flash _); simplify_eq; by apply flash_delegate.
  - destruct (T.format _ _ _); simplify_eq; [|done]. by apply flash_delegate.
Qed.

Lemma component_failed_delegate (err : error) w w' r :
  Q.component_failed err w = (r, w') → delegate_once w → delegate_once w'.
Proof.
  open_actions. intros Hrun Hw.
  destruct (T.format _ _ _); simplify_eq; [|done].
  by apply (flash_delegate _ w).
Qed.

Lemma submission_failed_delegate (err : error) w w' r :
  Q.submission_failed err w = (r, w') → delegate_once w → delegate_once w'.
Proof.
  open_actions. intros Hrun Hw.
  destruct (T.format _ _ _); simplify_eq; [|done].
  by apply (flash_delegate _ w).
Qed.

Lemma load_and_trap_delegate (method url : jsstring)
    (form_data : option (list (jsstring * jsstring))) (target : jsstring)
    w w' r :
  Q.load_and_trap method url form_data target w = (r, w') →
  delegate_once w → delegate_once w'.
Proof.
  unfold Q.load_and_trap, bind. intros Hrun Hw.
  destruct (Q.check_target url target w) as [r0 w0] eqn:E0.
  apply check_target_delegate in E0; [|done].
  destruct r0; [|by simplify_eq].
  destruct (Q.ajax _ url _ None w0) as [r1 w1] eqn:E1.
  apply ajax_delegate in E1; [|done].
  destruct r1 as [response|]; [|by simplify_eq].
  destruct (then_ response _ w1) as [loaded w2] eqn:E2.
  assert (D2 : delegate_once w2).
  { unfold then_ in E2. destruct response as [res|]; [|by simplify_eq].
    destruct (Q.component_loaded url target res w1) as [r2 w2'] eqn:E.
    apply component_loaded_delegate in E; [|done]. by destruct r2; simplify_eq. }
  destruct (catch_ loaded _ w2) as [settled w3] eqn:E3.
  assert (D3 : delegate_once w3).
  { unfold catch_ in E3. destruct loaded; [by simplify_eq|].
    destruct (Q.component_failed reason w2) as [r3 w3'] eqn:E.
    apply component_failed_delegate in E; [|done]. by destruct r3; simplify_eq. }
  by simplify_eq.
Qed.

Lemma ajaxSubmitForm_delegate (f : form) w w' r :
  Q._ajaxSubmitForm f w = (r, w') → delegate_once w → delegate_once w'.
Proof.
  unfold Q._ajaxSubmitForm. intros Hrun Hw.
  destruct (negb (Q.is_form_changed f w)); [by simplify_eq|].
  destruct (Q.load_and_trap _ _ _ _ _) as [r1 w1] eqn:E1.
  apply load_and_trap_delegate in E1; [|done].
  destruct r1 as [loaded|]; [|by simplify_eq].
  destruct (catch_ loaded _ w1) as [caught w2] eqn:E2.
  assert (D2 : delegate_once w2).
  { unfold catch_ in E2. destruct loaded; [by simplify_eq|].
    destruct (Q.submission_failed reason w1) as [r2 w2'] eqn:E.
    apply submission_failed_delegate in E; [|done]. by destruct r2; simplify_eq. }
  unfold finally_, effect in Hrun. by simplify_eq.
Qed.
End Delegate.

(** X12.  The click listener of the global submit buttons is registered at
    most once: [Q.trap_form], [Q.load_and_trap] and [Q._ajaxSubmitForm]
    keep the listeners of [document.body] in step with
    [Q._globalDelegateActive], so that there is one listener when the flag
    is set and none otherwise, whatever the calls and their outcomes. *)
Theorem delegate_registered_once `{Runtime} `{Browser page} :
  (∀ action_url elem_id globalSubmitId (w w' : world page) r,
     Q.trap_form action_url elem_id globalSubmitId w = (r, w') →
     delegate_once w → delegate_once w')
  ∧ (∀ method url form_data target (w w' : world page) r,
       Q.load_and_trap method url form_data target w = (r, w') →
       delegate_once w → delegate_once w')
  ∧ (∀ f (w w' : world page) r,
       Q._ajaxSubmitForm f w = (r, w') →
       delegate_once w → delegate_once w')
  ∧ (∀ w : world page, delegate_once w → length (w_click_listeners w) ≤ 1).
Proof.
  split; [|split; [|split]].
  - intros *. apply trap_form_delegate.
  - intros *. apply load_and_trap_delegate.
  - intros *. apply ajaxSubmitForm_delegate.
  - intros w Hw. rewrite Hw. destruct (w_globalDelegateActive w); simpl; lia.
Qed.

(** ** Debounced and throttled functions *)

Lemma executed_snoc {page} (d : debounced) (w : world page)
    (calls : list jsstring) (args : jsstring) :
  executed d w (calls ++ [args])
  = Q.executedFunction (executed d w calls).1 args (executed d w calls).2.
Proof. unfold executed. by rewrite foldl_app. Qed.

Lemma debounce_calls {page} (wait : nat) (w : world page)
    (calls : list jsstring) (final : jsstring) :
  timers_fresh w →
  let id := w_next_timer w + S (length calls) in
  executed (Q.debounce wait) w (calls ++ [final])
  = (Debounced wait (Some id),
     with_timers (insert id (debounce_later final, wait)) id w).
Proof.
  intros Hfresh. revert final. induction calls as [|args calls IH] using rev_ind;
    intros final id; subst id.
  - simpl. unfold executed, Q.debounce, Q.executedFunction. simpl.
    unfold setTimeout, with_timers. simpl.
    replace (w_next_timer w + 1) with (S (w_next_timer w)) by lia. done.
  - rewrite executed_snoc, IH. simpl.
    unfold Q.executedFunction, clearTimeout, setTimeout, with_timers. simpl.
    rewrite length_app. simpl.
    replace (w_next_timer w + S (length calls + 1))
      with (S (w_next_timer w + S (length calls))) by lia.
    do 3 f_equal.
    rewrite delete_insert_id; [done|].
    destruct (w_timers w !! _) eqn:E; [|done].
    assert (w_next_timer w + S (length calls) ≤ w_next_timer w)
      by (apply Hfresh; by eexists). lia.
Qed.

(** X13.  After any number of calls of a debounced function, made while no
    timer is due, exactly one timer of the function is pending, it
    carries the arguments of the last call, and the callback has not run;
    when this timer is due the callback runs once, with the arguments of
    the last call, and no timer of the function is left. *)
Theorem debounce_last_call_wins {page} (wait : nat) (w : world page)
    (calls : list jsstring) (final : jsstring) :
  timers_fresh w →
  let run := executed (Q.debounce wait) w (calls ++ [final]) in
  let id := w_next_timer w + S (length calls) in
  run = (Debounced wait (Some id),
         with_timers (insert id (debounce_later final, wait)) id w)
  ∧ w_timers w !! id = None
  ∧ w_invoked run.2 = w_invoked w
  ∧ let fired := Q.later run.1 final (expire id run.2) in
    w_invoked fired = w_invoked w ++ [final] ∧ w_timers fired = w_timers w.
Proof.
  intros Hfresh run id. subst run id.
  assert (Hnone : w_timers w !! (w_next_timer w + S (length calls)) = None).
  { destruct (w_timers w !! _) eqn:E; [|done].
    assert (w_next_timer w + S (length calls) ≤ w_next_timer w)
      by (apply Hfresh; by eexists). lia. }
  rewrite debounce_calls by done.
  split; [done|]. split; [done|]. split; [done|]. simpl.
  split; [done|].
  rewrite delete_insert_id by done. by apply delete_id.
Qed.

Lemma debounce_last_call_wins_witness :
  executed (Q.debounce 300) (sample_world true flash_default)
           [js "a"; js "b"; js "c"]
  = (Debounced 300 (Some 3),
     with_timers (insert 3 (debounce_later (js "c"), 300)) 3
                 (sample_world true flash_default)).
Proof.
  apply (debounce_last_call_wins 300 (sample_world true flash_default)
           [js "a"; js "b"] (js "c")).
  intros id [task Htask]. simpl in Htask. by rewrite lookup_empty in Htask.
Defined.


Lemma handled_cons {page} (t : throttled) (w : world page)
    (event : jsstring) (events : list jsstring) :
  handled t w (event :: events)
  = handled (Q.throttledEventHandler t event w).1
            (Q.throttledEventHandler t event w).2 events.
Proof.
  unfold handled. simpl. by destruct (Q.throttledEventHandler t event w).
Qed.

Lemma handled_waiting {page} (delay id : nat) (stored : option jsstring)
    (w : world page) (events : list jsstring) :
  handled (Throttled delay (Some id) stored) w events
  = (Throttled delay (Some id)
       (match last events with Some event => Some event | None => stored end),
     w).
Proof.
  revert stored. induction events as [|event events IH]; intros stored; [done|].
  rewrite handled_cons. unfold Q.throttledEventHandler.
  cbn [t_throttleTimeout t_delay fst snd]. rewrite IH.
  destruct events as [|event' events']; [done|].
  change (last (event :: event' :: events')) with (last (event' :: events')).
  by destruct (last (event' :: events')) eqn:E;
    [|apply last_None in E].
Qed.

(** X14.  Of the calls of a throttled function made while its timer is
    pending, the first runs the callback at once and the others only
    store their event; when the timer is due, the callback runs with the
    last event stored, if any, and a new delay starts.  The events in
    between never reach the callback. *)
Theorem throttle_first_and_last {page} (delay : nat) (w : world page)
    (first : jsstring) (rest : list jsstring) :
  let run := handled (Q.throttle delay) w (first :: rest) in
  let id := S (w_next_timer w) in
  run = (Throttled delay (Some id) (last rest),
         with_timers (insert id (throttle_release, delay)) id (invoke first w))
  ∧ let fired := Q.throttle_timeout run.1 (expire id run.2) in
    w_invoked fired.2 = w_invoked w ++ first :: option_list (last rest)
    ∧ t_throttleTimeout fired.1 = (λ _, S id) <$> last rest
    ∧ t_storedEvent fired.1 = None.
Proof.
  intros run id.
  assert (Hrun : run = (Throttled delay (Some id) (last rest),
         with_timers (insert id (throttle_release, delay)) id (invoke first w))).
  { subst run. rewrite handled_cons.
    unfold Q.throttle, Q.throttledEventHandler, setTimeout.
    cbn [t_throttleTimeout t_delay fst snd].
    rewrite handled_waiting. by destruct (last rest). }
  split; [done|]. rewrite Hrun. simpl.
  unfold Q.throttle_timeout. simpl.
  destruct (last rest) as [event|]; simpl; repeat split; try done.
  by rewrite <- (assoc_L (++)).
Qed.

(** ** Query strings *)

Lemma split_plain (sep : N) (s : jsstring) : sep ∉ s → split sep s = [s].
Proof.
  induction s as [|c s IH]; [done|]. intros [Hc Hs]%not_elem_of_cons.
  simpl. rewrite IH by done.
  by assert ((c =? sep)%N = false) as -> by (apply N.eqb_neq; congruence).
Qed.

Lemma split_app (sep : N) (k r : jsstring) :
  sep ∉ k → split sep (k ++ sep :: r) = k :: split sep r.
Proof.
  induction k as [|c k IH]; intros Hk; simpl.
  - by rewrite N.eqb_refl.
  - apply not_elem_of_cons in Hk as [Hc Hk]. rewrite IH by done.
    by assert ((c =? sep)%N = false) as -> by (apply N.eqb_neq; congruence).
Qed.

Lemma split_join (sep : N) (xs : list jsstring) :
  xs ≠ [] → Forall (λ x, sep ∉ x) xs → split sep (join [sep] xs) = xs.
Proof.
  intros Hne Hall. induction Hall as [|x xs Hx Hall IH]; [done|].
  destruct xs as [|y xs]; [by apply split_plain|].
  rewrite join_cons_cons. change ([sep] ++ ?l) with (sep :: l).
  rewrite split_app by done. by rewrite IH.
Qed.

Section Query.
Context `{UriDecoder} `{Window page}.
Implicit Type w : world page.

Lemma undefined_plain : PERCENT ∉ undefined_text.
Proof. by apply (bool_decide_unpack (PERCENT ∉ undefined_text)). Qed.

Lemma get_query_item_plain (vars : gmap jsstring jsstring)
    (p : jsstring * option jsstring) :
  plain_parameter p →
  Q.get_query_item vars (write_parameter p)
  = Ok (<[(read_parameter p).1 := (read_parameter p).2]> vars).
Proof.
  destruct p as [name [value|]]; intros ((Ha & He & Hp) & Hproto & Hvalue);
    simpl in *.
  - destruct (Hvalue value eq_refl) as (Ha' & He' & Hp').
    unfold Q.get_query_item, Q.item_key, Q.item_value, write_parameter. simpl.
    rewrite split_app, split_plain by done. simpl.
    rewrite !decode_plain by done. simpl.
    unfold assign. by rewrite decide_False.
  - unfold Q.get_query_item, Q.item_key, Q.item_value, write_parameter. simpl.
    rewrite split_plain by done. simpl.
    rewrite !decode_plain by (done || apply undefined_plain). simpl.
    unfold assign. by rewrite decide_False.
Qed.

Lemma get_query_items_plain (vars : gmap jsstring jsstring)
    (ps : list (jsstring * option jsstring)) :
  Forall plain_parameter ps →
  foldl (λ vars item, and_then vars (λ vars, Q.get_query_item vars item))
        (Ok vars) (write_parameter <$> ps)
  = Ok (foldl (λ vars kv, <[kv.1 := kv.2]> vars) vars (read_parameter <$> ps)).
Proof.
  intros Hall. revert vars. induction Hall as [|p ps Hp _ IH]; intros vars;
    [done|].
  simpl. rewrite get_query_item_plain by done. apply IH.
Qed.

Lemma foldl_insert_reverse (kvs : list (jsstring * jsstring)) :
  foldl (λ vars kv, <[kv.1 := kv.2]> vars) (∅ : gmap jsstring jsstring) kvs
  = list_to_map (reverse kvs).
Proof.
  induction kvs as [|[k v] kvs IH] using rev_ind; [done|].
  rewrite foldl_app, reverse_app. simpl. by rewrite IH.
Qed.

Lemma write_parameter_plain (p : jsstring * option jsstring) :
  plain_parameter p → AMPERSAND ∉ write_parameter p.
Proof.
  destruct p as [name [value|]]; intros ((Ha & _) & _ & Hvalue);
    unfold write_parameter; simpl in *; [|done].
  destruct (Hvalue value eq_refl) as (Ha' & _).
  rewrite elem_of_app, elem_of_cons. intros [?|[?|?]]; done.
Qed.

Lemma get_query_item_ok (vars : gmap jsstring jsstring) (item : jsstring) :
  decodable item → ∃ vars', Q.get_query_item vars item = Ok vars'.
Proof.
  intros (key & value & Hk & Hv). unfold Q.get_query_item.
  rewrite Hk, Hv. by eexists.
Qed.

Lemma get_query_item_throw (vars : gmap jsstring jsstring) (item : jsstring)
    (e : error) :
  Q.get_query_item vars item = Throw e ↔ undecodable item e.
Proof.
  unfold Q.get_query_item, undecodable.
  destruct (decodeURIComponent (Q.item_key item)) as [key|e1]; simpl.
  - destruct (decodeURIComponent (Q.item_value item)) as [value|e2]; simpl.
    + split; [done|]. by intros [?|[_ ?]].
    + split.
      * intros [= ->]. right. split; [by eexists|done].
      * by intros [?|[_ [= ->]]].
  - split.
    + intros [= ->]. by left.
    + by intros [[= ->]|[[key ?] _]].
Qed.

Lemma get_query_item_decodable (vars vars' : gmap jsstring jsstring)
    (item : jsstring) :
  Q.get_query_item vars item = Ok vars' → decodable item.
Proof.
  unfold Q.get_query_item, decodable.
  destruct (decodeURIComponent (Q.item_key item)) as [key|e1]; [|done].
  destruct (decodeURIComponent (Q.item_value item)) as [value|e2]; [|done].
  by eexists _, _.
Qed.

Lemma get_query_items_thrown (e : error) (items : list jsstring) :
  foldl (λ vars item, and_then vars (λ vars, Q.get_query_item vars item))
        (Throw e) items = Throw e.
Proof. by induction items. Qed.

End Query.

(** X15.  [Q.get_query] reads back a query string: for parameters written
    [name=value] or [name] alone and joined with [&], whose names and
    values need no escape, the object returned has for each name the
    value of its last occurrence, and the string "undefined" when that
    occurrence has no value.  The empty query gives the object with the
    one property [""], whose value is "undefined". *)
Theorem get_query_reads_back `{UriDecoder} `{Window page}
    (source : option jsstring) (w : world page) :
  (∀ ps, ps ≠ [] → Forall plain_parameter ps →
         query_read source w = query_of ps →
         Q.get_query source w
         = Ok (list_to_map (read_parameter <$> reverse ps)))
  ∧ (query_read source w = [] →
     Q.get_query source w = Ok {[ [] := js "undefined" ]}).
Proof.
  assert (Hplain : ∀ ps, ps ≠ [] → Forall plain_parameter ps →
            query_read source w = query_of ps →
            Q.get_query source w
            = Ok (list_to_map (read_parameter <$> reverse ps))).
  { intros ps Hne Hall Hq. unfold Q.get_query. fold (query_read source w).
    rewrite Hq. unfold query_of. rewrite split_join.
    - rewrite get_query_items_plain by done.
      by rewrite foldl_insert_reverse, fmap_reverse.
    - by destruct ps.
    - apply Forall_fmap. eapply Forall_impl; [done|].
      intros p. apply write_parameter_plain. }
  split; [done|]. intros Hq.
  rewrite (Hplain [([], None)]); [done|done| |done].
  apply Forall_singleton. repeat split; try done.
  all: apply not_elem_of_nil.
Qed.

Lemma get_query_reads_back_witness :
  Q.get_query None (sample_world true flash_default)
  = Ok (list_to_map [(js "debug", js "undefined"); (js "page", js "2")]).
Proof.
  apply (proj1 (get_query_reads_back None (sample_world true flash_default))
           [(js "page", Some (js "2")); (js "debug", None)]);
    [done| |reflexivity].
  repeat apply Forall_cons_2; [| |apply Forall_nil_2].
  - split; [|split; [done|]].
    + repeat split; by apply (bool_decide_unpack _).
    + intros value [= <-]. repeat split; by apply (bool_decide_unpack _).
  - split; [|split; [done|]].
    + repeat split; by apply (bool_decide_unpack _).
    + intros value [=].
Defined.

(** X16.  [Q.get_query] throws exactly when a name or a value cannot be
    decoded; the error is that of the first such part, names before
    values and items from left to right, and nothing is returned of the
    items read before. *)
Theorem get_query_throws `{UriDecoder} `{Window page}
    (source : option jsstring) (w : world page) (e : error) :
  Q.get_query source w = Throw e
  ↔ ∃ before item after,
      split AMPERSAND (query_read source w) = before ++ item :: after
      ∧ Forall decodable before ∧ undecodable item e.
Proof.
  unfold Q.get_query. fold (query_read source w).
  generalize (split AMPERSAND (query_read source w)) as items.
  generalize (∅ : gmap jsstring jsstring) as vars.
  intros vars items.
  revert vars. induction items as [|item items IH]; intros vars.
  - split; [done|]. intros (before & it & after & Heq & _). by destruct before.
  - simpl. destruct (Q.get_query_item vars item) as [vars'|e'] eqn:E.
    + rewrite IH. split.
      * intros (before & it & after & -> & Hall & Hit).
        exists (item :: before), it, after. split; [done|]. split; [|done].
        apply Forall_cons. split; [|done]. by eapply get_query_item_decodable.
      * intros (before & it & after & Heq & Hall & Hit).
        destruct before as [|b before]; simplify_eq/=.
        -- apply get_query_item_throw with (vars := vars) in Hit. congruence.
        -- apply Forall_cons in Hall as [_ Hall]. by eexists _, _, _.
    + rewrite get_query_items_thrown. split.
      * intros [= ->]. exists [], item, items. split; [done|].
        split; [done|]. by eapply get_query_item_throw.
      * intros (before & it & after & Heq & Hall & Hit).
        destruct before as [|b before]; simplify_eq/=.
        -- apply get_query_item_throw with (vars := vars) in Hit. congruence.
        -- apply Forall_cons in Hall as [Hb _].
           destruct (get_query_item_ok vars b Hb) as [? ?]. congruence.
Qed.

(** ** Cookies *)

Lemma after_prefix_app (p s : jsstring) : after_prefix p (p ++ s) = Some s.
Proof.
  induction p as [|x p IH]; simpl; [by destruct s|]. by rewrite N.eqb_refl.
Qed.

Lemma after_prefix_head (p s : jsstring) (x c : N) :
  head p = Some x → x ≠ c → after_prefix p (c :: s) = None.
Proof.
  destruct p as [|y p]; [done|]. intros [= ->] Hne. simpl.
  by assert ((x =? c)%N = false) as -> by (by apply N.eqb_neq).
Qed.

Lemma span_until_stop (stop : N) (run rest : jsstring) :
  stop ∉ run → (rest = [] ∨ head rest = Some stop) →
  span_until stop (run ++ rest) = (run, rest).
Proof.
  intros Hrun Hrest. induction run as [|c run IH]; simpl.
  - destruct Hrest as [->|Hrest]; [done|].
    destruct rest as [|c rest]; [done|]. simplify_eq/=. by rewrite N.eqb_refl.
  - apply not_elem_of_cons in Hrun as [Hc Hrun]. rewrite IH by done.
    by assert ((c =? stop)%N = false) as -> by (apply N.eqb_neq; congruence).
Qed.

Lemma after_prefix_Some (p s r : jsstring) :
  after_prefix p s = Some r ↔ s = p ++ r.
Proof.
  split; [|intros ->; apply after_prefix_app].
  revert s. induction p as [|x p IH]; intros s; simpl; [by intros [= ->]|].
  destruct s as [|y s]; [done|].
  destruct (x =? y)%N eqn:E; [|done]. apply N.eqb_eq in E as ->.
  intros Hs. f_equal. by apply IH.
Qed.

Lemma match_cookie_None (name text : jsstring) :
  match_cookie name text = None ↔ ¬ occurs_at name text 0.
Proof.
  unfold match_cookie, occurs_at. rewrite drop_0.
  destruct (after_prefix name text) as [[|c rest]|] eqn:E.
  - apply after_prefix_Some in E as ->. split; [|done].
    intros _ (c & rest & Heq & _). apply app_inv_head in Heq. done.
  - apply after_prefix_Some in E as ->.
    destruct (c =? SEMICOLON)%N eqn:Hc.
    + apply N.eqb_eq in Hc as ->. split; [|done].
      intros _ (c & rest' & Heq & Hc). apply app_inv_head in Heq.
      by simplify_eq.
    + apply N.eqb_neq in Hc. split; [done|]. intros Hno. destruct Hno.
      by exists c, rest.
  - split; [|done]. intros _ (c & rest & Heq & _).
    apply after_prefix_Some in Heq. congruence.
Qed.

Lemma occurs_at_tail (name text : jsstring) (c : N) (i : nat) :
  occurs_at name (c :: text) (S i) ↔ occurs_at name text i.
Proof. done. Qed.

Lemma find_cookie_skip (name pre text : jsstring) :
  (∀ i, i < length pre → ¬ occurs_at name (pre ++ text) i) →
  find_cookie name (pre ++ text) = find_cookie name text.
Proof.
  induction pre as [|c pre IH]; intros Hfirst; [done|].
  cbn [app find_cookie].
  rewrite (proj2 (match_cookie_None name (c :: pre ++ text)))
    by (apply (Hfirst 0); simpl; lia).
  apply IH. intros i Hi. rewrite <- (occurs_at_tail name _ c).
  apply (Hfirst (S i)). simpl. lia.
Qed.

Lemma find_cookie_here (name tail rest : jsstring) :
  tail ≠ [] → (SEMICOLON ∉ tail) →
  (rest = [] ∨ head rest = Some SEMICOLON) →
  find_cookie name (name ++ tail ++ rest) = Some (name ++ tail).
Proof.
  intros Hne Htail Hrest.
  assert (Hm : match_cookie name (name ++ tail ++ rest)
               = Some (name ++ tail)).
  { unfold match_cookie. rewrite after_prefix_app.
    pose proof (span_until_stop SEMICOLON tail rest Htail Hrest) as Hs.
    destruct tail as [|c tail]; [done|].
    apply not_elem_of_cons in Htail as [Hc _].
    cbn [app] in *.
    assert ((c =? SEMICOLON)%N = false) as ->
      by (apply N.eqb_neq; congruence).
    by rewrite Hs. }
  destruct (name ++ tail ++ rest) eqn:E; simpl; by rewrite Hm.
Qed.

Lemma find_cookie_None (name text : jsstring) :
  find_cookie name text = None ↔ ∀ i, ¬ occurs_at name text i.
Proof.
  induction text as [|c text IH].
  - simpl. destruct (match_cookie name []) eqn:E.
    + split; [done|]. intros Hno.
      by rewrite (proj2 (match_cookie_None name []) (Hno 0)) in E.
    + split; [|done].
      intros _ i (c & rest & Heq & _). rewrite drop_nil in Heq.
      by destruct name.
  - cbn [find_cookie]. destruct (match_cookie name (c :: text)) eqn:E.
    + split; [done|]. intros Hno.
      by rewrite (proj2 (match_cookie_None name (c :: text)) (Hno 0)) in E.
    + rewrite IH. apply match_cookie_None in E. split.
      * intros Hno [|i]; [done|]. rewrite occurs_at_tail. apply Hno.
      * intros Hno i. rewrite <- (occurs_at_tail name text c). apply Hno.
Qed.

Lemma literal_no_equals (name : jsstring) :
  literal name = true → EQUALS ∉ name.
Proof.
  unfold literal. rewrite forallb_forall. intros Hall Hin.
  apply list_elem_of_In, Hall in Hin. done.
Qed.

Lemma strip_name_value (name value : jsstring) :
  name ≠ [] → (EQUALS ∉ name) →
  strip_name (name ++ EQUALS :: value) = value.
Proof.
  intros Hne Hname. unfold strip_name.
  rewrite (span_until_stop EQUALS name (EQUALS :: value)) by auto.
  simpl fst. destruct (length name) as [|n] eqn:Hlen;
    [by apply nil_length_inv in Hlen|].
  rewrite seq_S, reverse_snoc. simpl List.find.
  replace (1 + n) with (length name) by lia.
  rewrite list_lookup_middle by done. simpl.
  rewrite <- Hlen.
  change (name ++ EQUALS :: value) with (name ++ [EQUALS] ++ value).
  rewrite (assoc_L (++)). apply drop_app_length'.
  rewrite length_app. simpl. lia.
Qed.

(** X17.  For a non-empty name of letters, digits and underscores,
    [Q.get_cookie] looks for the first place of [document.cookie] where
    the name is followed by a character other than the semicolon,
    whatever stands before that place: for the name [id] this may be
    inside the cookie [sid].  From there to the next semicolon (or the
    end) it drops everything up to the first equals sign and returns the
    rest, decoded; a value that cannot be decoded throws.  It returns
    [null] exactly when there is no such place. *)
Theorem get_cookie_reads `{UriDecoder} `{Window page} `{RegExpEngine}
    (name : jsstring) (w : world page) :
  literal name = true → name ≠ [] →
  (∀ pre more value rest,
     document_cookie (w_page w)
     = pre ++ name ++ (more ++ EQUALS :: value) ++ rest →
     (∀ i, i < length pre → ¬ occurs_at name (document_cookie (w_page w)) i) →
     (EQUALS ∉ more) → (SEMICOLON ∉ more) → (SEMICOLON ∉ value) →
     (rest = [] ∨ head rest = Some SEMICOLON) →
     Q.get_cookie name w
     = and_then (decodeURIComponent value) (λ decoded, Ok (Some decoded)))
  ∧ (Q.get_cookie name w = Ok None
     ↔ ∀ i, ¬ occurs_at name (document_cookie (w_page w)) i).
Proof.
  intros Hlit Hne. unfold Q.get_cookie.
  rewrite exec_cookie_literal by done. split.
  - intros pre more value rest Hcookie Hpre Hmore Hmore' Hvalue Hrest.
    rewrite Hcookie in Hpre |- *.
    rewrite find_cookie_skip, find_cookie_here; try done.
    + simpl. rewrite (assoc_L (++) name more).
      rewrite strip_name_value; [done|by destruct name|].
      apply not_elem_of_app. split; [by apply literal_no_equals|done].
    + by destruct more.
    + rewrite not_elem_of_app, not_elem_of_cons. by repeat split.
  - rewrite <- find_cookie_None.
    destruct (find_cookie name (document_cookie (w_page w))) as [m|];
      [|done].
    simpl. split; [|done]. by destruct (decodeURIComponent (strip_name m)).
Qed.

Lemma get_cookie_reads_witness :
  Q.get_cookie (js "id") (sample_world true flash_default)
  = Ok (Some (js "abc")).
Proof.
  destruct (get_cookie_reads (js "id") (sample_world true flash_default))
    as [Hreads _]; [reflexivity|done|].
  apply (Hreads (js "s") [] (js "abc") (js "; id=xyz"));
    [reflexivity| | | | |by right].
  - intros [|i] Hi (c & rest & Heq & _); [done|]. simpl in Hi. lia.
  - apply not_elem_of_nil.
  - apply not_elem_of_nil.
  - by apply (bool_decide_unpack _).
Defined.


(** ** The component [auth] *)

Lemma split_at (sep : N) (s t : jsstring) :
  split sep (s ++ sep :: t) = split sep s ++ split sep t.
Proof.
  induction s as [|c s IH]; simpl.
  - by rewrite N.eqb_refl.
  - rewrite IH. destruct (c =? sep)%N; [done|].
    by destruct (split_cons sep s) as (p & ps & ->).
Qed.

Lemma split_last (sep : N) (s t : jsstring) :
  sep ∉ t → last (split sep (s ++ sep :: t)) = Some t.
Proof.
  intros Ht. rewrite split_at, (split_plain sep t) by done.
  by rewrite last_snoc.
Qed.

Section Auth.
Context `{Window page}.
Implicit Type w : world page.

Lemma lookup_foldl_insert_null (keys : list jsstring)
    (errors : gmap jsstring (option jsstring)) (key : jsstring) :
  foldl (λ errors key, <[key := None]> errors) errors keys !! key
  = if decide (key ∈ keys) then Some None else errors !! key.
Proof.
  revert errors. induction keys as [|k keys IH]; intros errors; [done|].
  simpl. rewrite IH. destruct (decide (key ∈ keys)) as [Hin|Hout].
  - rewrite decide_True; [done|]. by apply elem_of_cons; right.
  - destruct (decide (key = k)) as [->|Hne].
    + rewrite lookup_insert_eq. rewrite decide_True; [done|].
      by apply elem_of_cons; left.
    + rewrite lookup_insert_ne by done. rewrite decide_False; [done|].
      by intros [?|?]%elem_of_cons.
Qed.

Lemma errors_of_form (form : gmap jsstring jsstring) :
  foldl (λ errors key, <[key := None]> errors) ∅ (map_to_list form).*1
  = (λ _, None : option jsstring) <$> form.
Proof.
  apply map_eq. intros key. rewrite lookup_foldl_insert_null, lookup_fmap.
  destruct (form !! key) as [value|] eqn:E; simpl.
  - rewrite decide_True; [done|]. apply list_elem_of_fmap.
    exists (key, value). split; [done|]. by apply elem_of_map_to_list.
  - rewrite decide_False; [done|].
    intros ([k v] & -> & Hin)%list_elem_of_fmap.
    apply elem_of_map_to_list in Hin. simpl in E. congruence.
Qed.

End Auth.

(** X18.  After [go(page, no_history)] the component shows the page: its
    [page] is the argument, its [form] is the form of that page with all
    fields empty (no field for a page that has no form), and [errors] has
    the value [null] for exactly the fields of the form; [next] and [user]
    are kept, and with [no_history] the window is left as it was. *)
Theorem go_resets_errors `{Window page} (page_name : jsstring)
    (no_history : bool) (this this' : auth) (w w' : world page) :
  auth_methods.go page_name no_history this w = (Ok this', w') →
  auth_page this' = page_name
  ∧ auth_form this' = auth_methods.form_of page_name
  ∧ auth_errors this' = (λ _, None) <$> auth_form this'
  ∧ (∀ value, value ∈ map_to_list (auth_form this') → value.2 = [])
  ∧ auth_next this' = auth_next this ∧ auth_user this' = auth_user this
  ∧ (no_history = true → w' = w).
Proof.
  unfold auth_methods.go, bind, ret. intros Hrun.
  assert (Hthis : this' = Auth page_name (auth_next this)
            (auth_methods.form_of page_name)
            ((λ _, None) <$> auth_methods.form_of page_name)
            (auth_user this)
          ∧ (no_history = true → w' = w)).
  { rewrite errors_of_form in Hrun. destruct no_history.
    - by simplify_eq.
    - destruct (pushState _ _ _); by simplify_eq. }
  destruct Hthis as [-> Hw]. simpl. repeat split; try done.
  intros [key value] Hin. apply elem_of_map_to_list in Hin. simpl.
  unfold auth_methods.form_of in Hin.
  repeat case_decide; cbn [list_to_map fmap list_fmap foldr uncurry] in Hin;
    repeat (apply lookup_insert_Some in Hin as [[_ <-]|[_ Hin]]; [done|]);
    done.
Qed.

Lemma go_resets_errors_witness :
  auth_errors
    (Auth (js "login") None
          (auth_methods.form_of (js "login"))
          ((λ _, None) <$> auth_methods.form_of (js "login")) None)
  = (λ _, None) <$> auth_methods.form_of (js "login").
Proof.
  apply (go_resets_errors (js "login") true (Auth [] None ∅ ∅ None)
           (Auth (js "login") None (auth_methods.form_of (js "login"))
                 ((λ _, None) <$> auth_methods.form_of (js "login")) None)
           (sample_world true flash_default)
           (sample_world true flash_default)).
  unfold auth_methods.go, bind, ret. by rewrite errors_of_form.
Defined.

(** X19.  The address that [go(page)] pushes to the history is the address
    of the window up to its last slash, followed by the page; when the
    page has no slash and the window is at that address, [data()] reads
    the same page back from it. *)
Theorem go_then_data `{Window page} (page_name : jsstring)
    (this this' : auth) (w w' : world page)
    (getQuery : jsstring → option jsstring) :
  (SLASH ∉ page_name) →
  auth_methods.go page_name false this w = (Ok this', w') →
  pushState page_name
            (auth_methods.go_url (location_href (w_page w)) page_name)
            (w_page w) = Ok (w_page w')
  ∧ (location_href (w_page w')
     = auth_methods.go_url (location_href (w_page w)) page_name →
     auth_page (auth_methods.data getQuery w') = auth_page this').
Proof.
  intros Hname. unfold auth_methods.go, bind, ret. intros Hrun.
  destruct (pushState _ _ _) as [p|e] eqn:Hpush; [|done]. simplify_eq/=.
  split; [done|]. intros Hhref. unfold auth_methods.data. simpl.
  rewrite Hhref. unfold auth_methods.go_url.
  by rewrite Nat.sub_1_r, <- last_lookup, split_last.
Qed.

Lemma go_then_data_witness :
  auth_methods.go_url (js "http://localhost/auth/login") (js "register")
  = js "http://localhost/auth/register"
  ∧ pushState (js "register")
              (auth_methods.go_url
                 (location_href (w_page (sample_world true flash_default)))
                 (js "register"))
              (w_page (sample_world true flash_default))
    = Ok (w_page (sample_world true flash_default)).
Proof.
  split; [reflexivity|].
  eapply (go_then_data (js "register") (Auth [] None ∅ ∅ None) _
            (sample_world true flash_default)
            (sample_world true flash_default) (λ _, None)).
  - by apply (bool_decide_unpack _).
  - unfold auth_methods.go, bind, ret. simpl. reflexivity.
Defined.

(** ** The tags widget *)

Section Tags.
Context `{Runtime} `{TagValues} {tags_page : TagsPage}.

Lemma strictly_equal_text (y : tag) (s : jsstring) :
  strictly_equal y (tag_text s) = true ↔ y = tag_text s.
Proof.
  destruct y as [t|v]; simpl; [|done].
  rewrite bool_decide_eq_true. split; [by intros ->|by intros [= ->]].
Qed.

Lemma includes_text (tags : list tag) (x : tag) :
  is_text x → includes tags x = true ↔ x ∈ tags.
Proof.
  destruct x as [s|v]; [intros _|done].
  unfold includes. rewrite existsb_exists. split.
  - intros (y & Hy & ->%strictly_equal_text). by apply list_elem_of_In.
  - intros Hin. exists (tag_text s). split; [by apply list_elem_of_In|].
    by apply strictly_equal_text.
Qed.

Lemma loosely_equal_text (x y : tag) :
  is_text x → is_text y → loosely_equal x y = false ↔ y ≠ x.
Proof.
  destruct x as [s|v], y as [t|v']; try done. intros _ _. simpl.
  rewrite bool_decide_eq_false. split; intros Hne; congruence.
Qed.

Lemma is_text_decide (x y : tag) : is_text x → y = x ∨ y ≠ x.
Proof.
  destruct x as [s|v]; [intros _|done]. destruct y as [t|v]; [|by right].
  destruct (decide (t = s)) as [->|Hne]; [by left|right; congruence].
Qed.

Lemma push_new_NoDup (tags : list tag) (x : tag) :
  is_text x → NoDup tags →
  NoDup (if includes tags x then tags else tags ++ [x]).
Proof.
  intros Hx Hnd. destruct (includes tags x) eqn:E; [done|].
  apply NoDup_app. split; [done|]. split; [|apply NoDup_singleton].
  intros y Hy ->%list_elem_of_singleton.
  apply includes_text in Hy; [congruence|done].
Qed.

Lemma push_new_elem (tags : list tag) (x y : tag) :
  is_text x →
  y ∈ (if includes tags x then tags else tags ++ [x]) ↔ y ∈ tags ∨ y = x.
Proof.
  intros Hx. destruct (includes tags x) eqn:E.
  - apply includes_text in E; [|done]. split; [by left|]. by intros [?| ->].
  - rewrite elem_of_app, list_elem_of_singleton. done.
Qed.

Lemma push_new_prefix (tags : list tag) (x : tag) :
  tags `prefix_of` (if includes tags x then tags else tags ++ [x]).
Proof. destruct (includes tags x); [done|]. by apply prefix_app_r. Qed.

Lemma push_new_text (tags : list tag) (x : tag) :
  is_text x → Forall is_text tags →
  Forall is_text (if includes tags x then tags else tags ++ [x]).
Proof.
  intros Hx Htags. destruct (includes tags x); [done|].
  apply Forall_app. split; [done|]. by apply Forall_singleton.
Qed.

Lemma add_keys_spec (tags keys : list tag) :
  Forall is_text keys → Forall is_text tags → NoDup tags →
  NoDup (Q.add_keys tags keys)
  ∧ (∀ x, x ∈ Q.add_keys tags keys ↔ x ∈ tags ∨ x ∈ keys)
  ∧ tags `prefix_of` Q.add_keys tags keys
  ∧ Forall is_text (Q.add_keys tags keys).
Proof.
  unfold Q.add_keys. intros Hkeys. revert tags.
  induction Hkeys as [|k keys Hk _ IH]; intros tags Htags Hnd; simpl.
  - split; [done|]. split; [|done]. intros x. split; [by left|].
    by intros [?|?%elem_of_nil].
  - destruct (IH _ (push_new_text tags k Hk Htags)
                 (push_new_NoDup tags k Hk Hnd)) as (Hnd' & Hin & Hpre & Htext).
    split; [done|]. split; [|split; [|done]].
    + intros x. rewrite Hin, push_new_elem, elem_of_cons by done. tauto.
    + etrans; [apply (push_new_prefix tags k)|done].
Qed.

Lemma fill_tags (options : tags_options) (tags keys : list tag) :
  li_tag <$> Q.fill options tags keys = tags.
Proof.
  unfold Q.fill. rewrite <- list_fmap_compose.
  rewrite <- (list_fmap_id tags) at 2. by apply list_fmap_ext.
Qed.

Lemma fill_selected (options : tags_options) (tags keys : list tag) :
  Forall is_text tags →
  Forall (λ item, (li_selected item = true ↔ li_tag item ∈ keys)
                  ∧ li_value item = tag_string (li_tag item))
         (Q.fill options tags keys).
Proof.
  intros Htags. unfold Q.fill. apply Forall_fmap.
  eapply Forall_impl; [exact Htags|]. intros x Hx. simpl.
  split; [by apply includes_text|done].
Qed.

Lemma add_typed_spec (options : tags_options) (tags keys : list tag)
    (x : jsstring) :
  NoDup tags → keys ⊆ tags → Forall is_text tags →
  let tk := Q.add_typed options (tags, keys) x in
  NoDup tk.1 ∧ tk.2 ⊆ tk.1 ∧ Forall is_text tk.1
  ∧ tags `prefix_of` tk.1 ∧ keys `prefix_of` tk.2
  ∧ (NoDup keys → NoDup tk.2).
Proof.
  intros Hnd Hsub Htags. unfold Q.add_typed.
  destruct (match opt_regex options with
            | Some matches => negb (matches (opt_transform options (trim x)))
            | None => false
            end); [done|].
  destruct (opt_transform options (trim x)) as [|c r]; [done|].
  cbv zeta. cbn [fst snd]. split; [by apply push_new_NoDup|].
  split; [|split].
  - intros y Hy. apply push_new_elem in Hy; [|done].
    apply push_new_elem; [done|].
    destruct Hy as [Hy| ->]; [left; by apply Hsub|by right].
  - by apply push_new_text.
  - split; [apply push_new_prefix|]. split; [apply push_new_prefix|].
    by apply push_new_NoDup.
Qed.

Lemma add_typed_all (options : tags_options) (xs : list jsstring)
    (tags keys : list tag) :
  NoDup tags → keys ⊆ tags → Forall is_text tags →
  let tk := foldl (Q.add_typed options) (tags, keys) xs in
  NoDup tk.1 ∧ tk.2 ⊆ tk.1 ∧ Forall is_text tk.1
  ∧ tags `prefix_of` tk.1 ∧ keys `prefix_of` tk.2
  ∧ (NoDup keys → NoDup tk.2).
Proof.
  revert tags keys. induction xs as [|x xs IH]; intros tags keys Hnd Hsub Ht.
  - simpl. by repeat split.
  - cbn [foldl].
    destruct (add_typed_spec options tags keys x Hnd Hsub Ht)
      as (Hnd1 & Hsub1 & Ht1 & Hp1 & Hk1 & Hndk1).
    destruct (Q.add_typed options (tags, keys) x) as [tags1 keys1].
    simpl in *.
    destruct (IH tags1 keys1 Hnd1 Hsub1 Ht1)
      as (Hnd2 & Hsub2 & Ht2 & Hp2 & Hk2 & Hndk2).
    cbv zeta. split; [done|]. split; [done|]. split; [done|].
    split; [by etrans|]. split; [by etrans|]. auto.
Qed.

Lemma onchange_consistent (text : jsstring) (tw : tags_widget) :
  tags_consistent tw → Forall is_text (tw_tags tw) →
  tags_consistent (Q.onchange text tw)
  ∧ Forall is_text (tw_tags (Q.onchange text tw)).
Proof.
  intros (Hnd & Hsub & Hvalues & Hsel) Htext. unfold Q.onchange.
  destruct (tw_inp tw); [|done].
  destruct (add_typed_all (tw_options tw) (Q.parse_list text)
              (tw_tags tw) (tw_keys tw) Hnd Hsub Htext)
    as (Hnd' & Hsub' & Htext' & _).
  destruct (foldl _ _ _) as [tags keys]. simpl in *.
  split; [|done]. split; [done|]. split; [done|].
  split; [apply fill_tags|by apply fill_selected].
Qed.

(** The keys after a click on an item with the tag [x]: [x] has been
    added or removed, and the other keys are as before. *)
Lemma click_keys (x : tag) (selected : bool) (keys : list tag) :
  is_text x → Forall is_text keys → (selected = true ↔ x ∈ keys) →
  let keys' := if negb selected then keys ++ [x]
               else filter (λ y, loosely_equal x y = false) keys in
  (x ∈ keys' ↔ selected = false)
  ∧ (∀ y, y ≠ x → y ∈ keys' ↔ y ∈ keys)
  ∧ (NoDup keys → NoDup keys').
Proof.
  intros Hx Hkeys Hsel. rewrite Forall_forall in Hkeys.
  destruct selected; cbn [negb].
  - split; [|split].
    + rewrite list_elem_of_filter. split; [|done].
      intros [Hne _]. apply loosely_equal_text in Hne; done.
    + intros y Hy. rewrite list_elem_of_filter. split; [tauto|].
      intros Hin. split; [|done]. apply loosely_equal_text; auto.
    + apply NoDup_filter.
  - split; [|split].
    + split; [done|]. intros _. apply elem_of_app. right.
      by apply list_elem_of_singleton.
    + intros y Hy. rewrite elem_of_app, list_elem_of_singleton. tauto.
    + intros Hnd. apply NoDup_app. split; [done|].
      split; [|apply NoDup_singleton].
      intros y Hy ->%list_elem_of_singleton. apply Hsel in Hy. done.
Qed.

Lemma item_is_text (tw : tags_widget) (i : nat) (item : tag_item) :
  li_tag <$> tw_items tw = tw_tags tw → Forall is_text (tw_tags tw) →
  tw_items tw !! i = Some item → is_text (li_tag item).
Proof.
  intros Hvalues Htext Hi. rewrite Forall_forall in Htext. apply Htext.
  rewrite <- Hvalues. apply list_elem_of_fmap. exists item. split; [done|].
  by eapply list_elem_of_lookup_2.
Qed.

Lemma keys_are_text (tw : tags_widget) :
  tw_keys tw ⊆ tw_tags tw → Forall is_text (tw_tags tw) →
  Forall is_text (tw_keys tw).
Proof.
  intros Hsub Htext. rewrite Forall_forall in Htext. apply Forall_forall.
  intros y Hy. by apply Htext, Hsub.
Qed.

Lemma onclick_consistent (i : nat) (tw : tags_widget) :
  tags_consistent tw → Forall is_text (tw_tags tw) →
  tags_consistent (Q.onclick i tw).
Proof.
  intros (Hnd & Hsub & Hvalues & Hsel) Htext. unfold Q.onclick.
  destruct (tw_items tw !! i) as [item|] eqn:Hi; [|done].
  rewrite Forall_lookup in Hsel.
  pose proof (item_is_text tw i item Hvalues Htext Hi) as Hx.
  destruct (click_keys (li_tag item) (li_selected item) (tw_keys tw) Hx
              (keys_are_text tw Hsub Htext) (proj1 (Hsel i item Hi)))
    as (Hnew & Hother & _).
  set (x := li_tag item) in *.
  set (keys := if negb (li_selected item) then tw_keys tw ++ [x]
               else filter (λ y, loosely_equal x y = false) (tw_keys tw)) in *.
  assert (Hxi : (li_tag <$> tw_items tw) !! i = Some x)
    by (by rewrite list_lookup_fmap, Hi).
  assert (Hkeys : Forall is_text keys).
  { apply Forall_forall. intros y Hy.
    destruct (is_text_decide x y Hx) as [->|Hne]; [done|].
    apply Hother in Hy; [|done].
    pose proof (keys_are_text tw Hsub Htext) as Hk.
    rewrite Forall_forall in Hk. by apply Hk. }
  unfold tags_consistent. cbn [tw_tags tw_keys tw_items].
  split; [done|]. split; [|split].
  - intros y Hy. destruct (is_text_decide x y Hx) as [->|Hne].
    + rewrite <- Hvalues. by eapply list_elem_of_lookup_2.
    + apply Hsub. by apply Hother.
  - rewrite list_fmap_insert. cbn [li_tag]. by rewrite list_insert_id.
  - apply Forall_lookup. intros j item' Hj.
    destruct (decide (i = j)) as [->|Hij].
    + rewrite list_lookup_insert_eq in Hj
        by (by eapply lookup_lt_Some).
      simplify_eq. cbn [li_selected li_tag li_value].
      split; [by apply includes_text|]. by apply (Hsel j item Hi).
    + rewrite list_lookup_insert_ne in Hj by done.
      destruct (Hsel j item' Hj) as [Hs Hv]. split; [|done].
      rewrite Hs. symmetry. apply Hother.
      intros Heq. apply Hij. symmetry.
      apply (NoDup_lookup (li_tag <$> tw_items tw) j i (li_tag item')).
      * by rewrite Hvalues.
      * by rewrite list_lookup_fmap, Hj.
      * by rewrite Heq.
Qed.

Lemma handle_tags_event_keys (tw : tags_widget) (ev : tags_event) :
  tags_consistent tw → Forall is_text (tw_tags tw) → NoDup (tw_keys tw) →
  NoDup (tw_keys (Q.handle_tags_event tw ev)).
Proof.
  intros (Hnd & Hsub & Hvalues & Hsel) Htext Hkeys.
  destruct ev as [i|text]; simpl.
  - unfold Q.onclick. destruct (tw_items tw !! i) as [item|] eqn:Hi; [|done].
    cbn [tw_keys]. rewrite Forall_lookup in Hsel.
    apply (click_keys (li_tag item) (li_selected item) (tw_keys tw));
      [by eapply item_is_text|by apply keys_are_text|
       apply (Hsel i item Hi)|done].
  - unfold Q.onchange. destruct (tw_inp tw); [|done].
    destruct (add_typed_all (tw_options tw) (Q.parse_list text)
                (tw_tags tw) (tw_keys tw) Hnd Hsub Htext)
      as (_ & _ & _ & _ & _ & Hk).
    destruct (foldl _ _ _) as [tags keys]. by apply Hk.
Qed.

Lemma handle_tags_event_consistent (tw : tags_widget) (ev : tags_event) :
  tags_consistent tw → Forall is_text (tw_tags tw) →
  tags_consistent (Q.handle_tags_event tw ev)
  ∧ Forall is_text (tw_tags (Q.handle_tags_event tw ev)).
Proof.
  intros Hc Htext. destruct ev as [i|text]; [|by apply onchange_consistent].
  split; [by apply onclick_consistent|].
  simpl. unfold Q.onclick. by destruct (tw_items tw !! i).
Qed.

Lemma handle_tags_event_tags (tw : tags_widget) (ev : tags_event) :
  tags_consistent tw → Forall is_text (tw_tags tw) →
  tw_tags tw `prefix_of` tw_tags (Q.handle_tags_event tw ev).
Proof.
  intros (Hnd & Hsub & _) Htext. destruct ev as [i|text]; simpl.
  - unfold Q.onclick. by destruct (tw_items tw !! i).
  - unfold Q.onchange. destruct (tw_inp tw); [|done].
    destruct (add_typed_all (tw_options tw) (Q.parse_list text)
                (tw_tags tw) (tw_keys tw) Hnd Hsub Htext)
      as (_ & _ & _ & Hp & _).
    by destruct (foldl _ _ _) as [tags keys].
Qed.

Lemma handle_tags_event_value (tw : tags_widget) (ev : tags_event) :
  let tw' := Q.handle_tags_event tw ev in
  tw' = tw ∨ tw_value tw' = stringify (tw_keys tw').
Proof.
  destruct ev as [i|text]; simpl.
  - unfold Q.onclick. destruct (tw_items tw !! i); [by right|by left].
  - unfold Q.onchange. destruct (tw_inp tw); [|by left].
    destruct (foldl _ _ _) as [tags keys]. by right.
Qed.

Lemma tags_input_setup (elem_arg : jsstring + tags_element)
    (options : option raw_options) (log : list tags_log) (tw : tags_widget) :
  Q.tags_input elem_arg options = (log, Ok (Some tw)) →
  (∀ o, options = Some o ∨ (∃ text, eval_options text = Ok o) →
        NoDup (default [] (raw_tags o))
        ∧ Forall is_text (default [] (raw_tags o))) →
  Forall is_text (tw_keys tw) →
  tags_consistent tw ∧ Forall is_text (tw_tags tw).
Proof.
  unfold Q.tags_input. intros Hrun Hnd.
  destruct (match elem_arg with
            | inl selector => first_element selector
            | inr elem => Some elem
            end) as [elem|]; [|done].
  destruct (match options with
            | Some options => Ok options
            | None => eval_options (default (js "{}") (truthy (te_options elem)))
            end) as [o|] eqn:Ho; [|done].
  assert (Hnd0 : NoDup (default [] (raw_tags o))
                 ∧ Forall is_text (default [] (raw_tags o))).
  { apply Hnd. destruct options; [left; congruence|right; by eexists]. }
  destruct (if negb (te_has_value elem) then Ok []
            else if bool_decide (take 1 (te_value elem) = js "[")
                 then eval_keys (te_value elem)
                 else Ok (tag_text <$> Q.parse_list (te_value elem)))
    as [keys|]; [|done].
  simplify_eq. cbn [tw_keys tw_tags]. intros Hkeys.
  destruct Hnd0 as [Hnd0 Ht0].
  destruct (add_keys_spec (default [] (raw_tags o)) keys Hkeys Ht0 Hnd0)
    as (Hnd' & Hin & _ & Htext).
  split; [|done]. unfold tags_consistent. cbn [tw_tags tw_keys tw_items].
  split; [done|]. split; [|split; [apply fill_tags|by apply fill_selected]].
  intros x Hx. apply Hin. by right.
Qed.
End Tags.

(** X20.  The tags widget stays consistent as long as all tags are
    strings.  When the tags given in the options are strings without
    duplicates and the keys read from the element are strings, then after
    [Q.tags_input] and any clicks on items and changes of the free text:
    the tags are strings without duplicates, every key is a tag, the list
    shows one item for each tag, and an item is shown selected exactly
    when its tag is a key.  Tags are never removed or reordered, keys
    that had no duplicates get none, and once the keys have changed the
    hidden element holds their JSON text. *)
Theorem tags_widget_consistent `{Runtime} `{TagValues} {tags_page : TagsPage}
    (elem_arg : jsstring + tags_element) (options : option raw_options)
    (log : list tags_log) (tw : tags_widget) (events : list tags_event) :
  Q.tags_input elem_arg options = (log, Ok (Some tw)) →
  (∀ o, options = Some o ∨ (∃ text, eval_options text = Ok o) →
        NoDup (default [] (raw_tags o))
        ∧ Forall is_text (default [] (raw_tags o))) →
  Forall is_text (tw_keys tw) →
  let tw' := foldl Q.handle_tags_event tw events in
  tags_consistent tw'
  ∧ Forall is_text (tw_tags tw')
  ∧ tw_tags tw `prefix_of` tw_tags tw'
  ∧ (NoDup (tw_keys tw) → NoDup (tw_keys tw'))
  ∧ (tw_keys tw' ≠ tw_keys tw → tw_value tw' = stringify (tw_keys tw')).
Proof.
  intros Hrun Hnd Hkeys.
  destruct (tags_input_setup elem_arg options log tw Hrun Hnd Hkeys)
    as [Hc Htext].
  clear Hrun Hnd Hkeys.
  induction events as [|ev events IH] using rev_ind.
  - simpl. split; [done|]. split; [done|]. split; [done|]. split; [done|].
    intros Hne. by destruct Hne.
  - rewrite foldl_app. cbn [foldl]. destruct IH as (Hc' & Ht' & Hp & Hk & Hv).
    destruct (handle_tags_event_consistent _ ev Hc' Ht') as [Hc'' Ht''].
    split; [done|]. split; [done|]. split; [|split].
    + etrans; [done|]. by apply handle_tags_event_tags.
    + intros Hkeys. apply handle_tags_event_keys; auto.
    + destruct (handle_tags_event_value (foldl Q.handle_tags_event tw events) ev)
        as [-> | Hvalue]; done.
Qed.

Lemma tags_widget_consistent_witness :
  ∃ tw, Q.tags_input (inr (TagsElement true (js "red, blue") None)) None
        = ([log_keys [tag_text (js "red"); tag_text (js "blue")]],
           Ok (Some tw))
        ∧ tags_consistent
            (foldl Q.handle_tags_event tw
                   [click_item 0; change_text (js "Green, red")]).
Proof.
  eexists. split; [reflexivity|].
  eapply (tags_widget_consistent
            (inr (TagsElement true (js "red, blue") None)) None);
    [reflexivity| |by repeat constructor].
  intros o [[=]|[text [= <-]]]. simpl. split; [apply NoDup_nil_2|done].
Defined.

(** With keys that are numbers the widget does not stay consistent: for
    the element value [[1, 2]], typing [1] adds the string ['1'] to the
    tags [1] and [2]; a click on the item of the number [1] then removes
    from the keys all that are loosely equal to it, so also the string
    ['1'], whose item stays selected. *)
Example tags_input_number_keys :
  ∃ tw,
    Q.tags_input (inr (TagsElement true (js "[1, 2]") None)) None
    = ([log_keys [tag_other 1%Z; tag_other 2%Z]], Ok (Some tw))
    ∧ let tw' := foldl Q.handle_tags_event tw
                       [change_text (js "1"); click_item 0] in
      tw_tags tw' = [tag_other 1%Z; tag_other 2%Z; tag_text (js "1")]
      ∧ tw_keys tw' = [tag_other 2%Z]
      ∧ li_selected <$> tw_items tw' = [false; true; true].
Proof. eexists. split; [reflexivity|]. by vm_compute. Qed.

(** X21.  Clicking an item of a consistent widget whose tags are strings
    twice selects the same tags as before and shows the same items: the
    first click adds or removes the tag of the item, the second undoes
    it. *)
Theorem tags_click_twice `{TagValues} {tags_page : TagsPage}
    (tw : tags_widget) (i : nat) :
  tags_consistent tw → Forall is_text (tw_tags tw) →
  let tw' := Q.onclick i (Q.onclick i tw) in
  (∀ x, x ∈ tw_keys tw' ↔ x ∈ tw_keys tw)
  ∧ tw_items tw' = tw_items tw ∧ tw_tags tw' = tw_tags tw.
Proof.
  intros (Hnd & Hsub & Hvalues & Hsel) Htext.
  destruct (tw_items tw !! i) as [item|] eqn:Hi;
    [|unfold Q.onclick; by rewrite Hi, Hi].
  rewrite Forall_lookup in Hsel. destruct (Hsel i item Hi) as [Hitem _].
  assert (Hlt : i < length (tw_items tw)) by (by eapply lookup_lt_Some).
  pose proof (item_is_text tw i item Hvalues Htext Hi) as Hx.
  pose proof (keys_are_text tw Hsub Htext) as Hkeys.
  destruct (click_keys (li_tag item) (li_selected item) (tw_keys tw)
              Hx Hkeys Hitem) as (Hnew & Hother & _).
  unfold Q.onclick at 2. rewrite Hi. unfold Q.onclick.
  cbn [tw_items tw_keys tw_tags tw_options tw_inp tw_input_events].
  rewrite list_lookup_insert_eq by done.
  cbn [li_value li_selected li_html li_tag].
  destruct item as [html value x selected].
  cbn [li_value li_selected li_html li_tag] in *.
  rewrite list_insert_insert_eq.
  set (keys := if negb selected then tw_keys tw ++ [x]
               else filter (λ y, loosely_equal x y = false) (tw_keys tw)) in *.
  assert (Hkeys' : Forall is_text keys).
  { apply Forall_forall. intros y Hy.
    destruct (is_text_decide x y Hx) as [->|Hne]; [done|].
    apply Hother in Hy; [|done].
    rewrite Forall_forall in Hkeys. by apply Hkeys. }
  assert (Hsel' : includes keys x = negb selected).
  { destruct selected; cbn [negb].
    - apply not_true_is_false. rewrite includes_text by done.
      rewrite Hnew. done.
    - apply includes_text; [done|]. by apply Hnew. }
  rewrite Hsel'.
  destruct (click_keys x (negb selected) keys Hx Hkeys')
    as (Hnew' & Hother' & _).
  { rewrite Hnew. by destruct selected. }
  split; [|split; [|done]].
  - intros y. destruct (is_text_decide x y Hx) as [->|Hne].
    + rewrite Hnew', <- Hitem. by destruct selected.
    + by rewrite Hother', Hother.
  - assert (includes
              (if negb (negb selected) then keys ++ [x]
               else filter (λ y, loosely_equal x y = false) keys) x
            = selected) as ->.
    { destruct selected; cbn [negb] in *.
      - apply includes_text; [done|]. by apply Hnew'.
      - apply not_true_is_false. rewrite includes_text by done.
        rewrite Hnew'. done. }
    by apply list_insert_id.
Qed.

Lemma tags_click_twice_witness :
  let tw := TagsWidget (TagsOptions true id ∅ [] None None)
                       [tag_text (js "red"); tag_text (js "blue")]
                       [tag_text (js "red")]
                       [TagItem (js "red") (js "red") (tag_text (js "red")) true;
                        TagItem (js "blue") (js "blue") (tag_text (js "blue"))
                                false]
                       (js "red") (Some []) 0 in
  tw_items (Q.onclick 1 (Q.onclick 1 tw)) = tw_items tw.
Proof.
  intros tw.
  apply (tags_click_twice tw 1); [|by repeat constructor].
  split; [|split; [|split; [reflexivity|]]].
  - apply NoDup_cons. split; [|apply NoDup_singleton].
    by intros [= ?]%list_elem_of_singleton.
  - intros x Hx. apply list_elem_of_singleton in Hx as ->.
    apply elem_of_cons. by left.
  - apply Forall_cons. split.
    { split; [|done]. split; [|done]. intros _. apply elem_of_cons. by left. }
    apply Forall_cons. split; [|apply Forall_nil_2].
    split; [|done]. split; [done|].
    by intros [= ?]%list_elem_of_singleton.
Defined.


(** X22.  The pattern that [init] gives to the inputs of class
    [type-list-integer] is not anchored: it accepts a text exactly when
    the text contains a digit, so also texts that are not integers. *)
Theorem integer_pattern_any_digit (x : jsstring) :
  Q.integer_pattern x = regex_test class_digit x
  ∧ (Q.integer_pattern x = true ↔ ∃ c, c ∈ x ∧ in_class class_digit c = true).
Proof.
  assert (Heq : Q.integer_pattern x = regex_test class_digit x).
  { unfold regex_test. induction x as [|c r IH]; [done|].
    cbn [Q.integer_pattern existsb]. rewrite IH. unfold Q.integer_at.
    destruct (in_class class_digit c); [done|]. simpl.
    destruct ((c =? 45)%N || (c =? 43)%N); [|done]. simpl.
    destruct r as [|d r]; [done|]. simpl.
    by destruct ((48 <=? d)%N && (d <=? 57)%N). }
  split; [done|]. rewrite Heq. unfold regex_test. rewrite existsb_exists.
  split; intros (c & Hin & Hc); exists c; split; try done;
    by apply list_elem_of_In.
Qed.
